(** * syncNetDir: the planner and the applier of [sync_net_dir.py]

    A shallow embedding of [sync_net_dir.py] (one Python module) and the
    properties its specification states about it.

    Modelling conventions.
    - A Python [str] is a [string]; [str.lower] folds the ASCII letters.
    - A [pathlib.Path] is the list of its segments below an anchor; the
      relative path [Path(".")] is the empty list, [p / name] appends a
      segment.  [Path.resolve], [_to_long_path], [_long] and [_short] only
      change the spelling of a path (they add or strip the Windows
      long-path prefix), never its segments, so they are the identity here.
      What the three spelling functions do to the text of a path is
      modelled on strings, under "Long paths".
    - [st_size] is a [nat]; [st_mtime] and [st_atime] are finite IEEE 754
      doubles, subtracted and compared with the operations of the
      library's [SpecFloat] (binary64, round to nearest even), as Python
      floats are.
    - A filesystem is a finite map from paths to entries, and it does not
      change while a plan is made.  [os.walk] sees the source as a [tree]
      of names; [os.stat] and the copy primitives look paths up in the
      maps.  [Path.exists] calls [stat] and, as [pathlib] does, answers
      [False] for the errors [pathlib] ignores and lets every other error
      through; [os.path.exists] answers [False] for every error.
    - [os.walk] yields directories below the source root, from which
      [relative_to] gives the relative path back; the model carries the
      relative path.
    - Every [OSError] the operating system may raise while applying is
      given by an [os_behaviour], one per item, over which the theorems
      quantify. *)

From stdpp Require Import base list strings gmap pretty sorting.
From Stdlib Require Import SpecFloat.
Local Set Warnings "-register-all".
Local Open Scope list_scope.

(** ** Strings *)

Definition ascii_lower (c : Ascii.ascii) : Ascii.ascii :=
  let n := Ascii.nat_of_ascii c in
  if (65 <=? n)%nat && (n <=? 90)%nat then Ascii.ascii_of_nat (n + 32) else c.

(** [str.lower] *)
Fixpoint lower (s : string) : string :=
  match s with
  | EmptyString => EmptyString
  | String c s' => String (ascii_lower c) (lower s')
  end.

(** [s.replace(a, b)] for one-character [a] and [b] *)
Fixpoint replace (a b : Ascii.ascii) (s : string) : string :=
  match s with
  | EmptyString => EmptyString
  | String c s' => String (if Ascii.eqb c a then b else c) (replace a b s')
  end.

(** [s.startswith(p)] *)
Fixpoint startswith (s p : string) : bool :=
  match p, s with
  | EmptyString, _ => true
  | String _ _, EmptyString => false
  | String a p', String b s' => Ascii.eqb a b && startswith s' p'
  end.

(** [sep.join(parts)] *)
Fixpoint join (sep : string) (parts : list string) : string :=
  match parts with
  | [] => ""
  | [x] => x
  | x :: rest => x +:+ sep +:+ join sep rest
  end.

(** [s.split(c)]: the segments of [s] between the occurrences of [c];
    never empty, [split c "" = [""]]. *)
Fixpoint split (c : Ascii.ascii) (s : string) : list string :=
  match s with
  | EmptyString => [""]
  | String a s' =>
      if Ascii.eqb a c then "" :: split c s'
      else match split c s' with
           | [] => [String a ""]
           | x :: rest => String a x :: rest
           end
  end.

(** [c in s] for a character [c] *)
Fixpoint contains (c : Ascii.ascii) (s : string) : bool :=
  match s with
  | EmptyString => false
  | String a s' => Ascii.eqb a c || contains c s'
  end.

Definition backslash : Ascii.ascii := Ascii.ascii_of_nat 92.
Definition slash : Ascii.ascii := Ascii.ascii_of_nat 47.
Definition asterisk : Ascii.ascii := Ascii.ascii_of_nat 42.
Definition question_mark : Ascii.ascii := Ascii.ascii_of_nat 63.

(** A stand-in for [fnmatch.fnmatchcase] on patterns made of literal
    characters, [*] and [?]; it instantiates the matcher in the worked
    examples. *)
Fixpoint glob (pat : string) : string → bool :=
  match pat with
  | EmptyString => fun s => match s with EmptyString => true | _ => false end
  | String c pat' =>
      if Ascii.eqb c asterisk then
        fix star (s : string) : bool :=
          glob pat' s || match s with
                         | EmptyString => false
                         | String _ s' => star s'
                         end
      else fun s =>
        match s with
        | EmptyString => false
        | String d s' => (Ascii.eqb c question_mark || Ascii.eqb c d) && glob pat' s'
        end
  end.

(** The stand-in with the argument order of [fnmatch.fnmatch(name, pat)]. *)
Definition glob_fnmatch (name pat : string) : bool := glob pat name.

(** ** Paths *)

Abbreviation path := (list string).

(** [p.relative_to(root)]; [None] stands for the [ValueError]. *)
Fixpoint relative_to (p root : path) {struct root} : option path :=
  match root, p with
  | [], _ => Some p
  | r :: root', x :: p' => if decide (r = x) then relative_to p' root' else None
  | _ :: _, [] => None
  end.

(** [p.parent] *)
Definition parent (p : path) : path := removelast p.

(** [p.with_suffix(p.suffix + ext)]: whatever the suffix of the last
    segment is, the result is that segment followed by [ext]. *)
Definition with_suffix_added (p : path) (ext : string) : path :=
  match reverse p with
  | [] => []
  | name :: rev_parent => reverse rev_parent ++ [name +:+ ext]
  end.

(** A name the operating system can give a directory entry on either
    platform: it holds no separator. *)
Definition entry_name (name : string) : Prop :=
  contains slash name = false ∧ contains backslash name = false.

(** ** Configuration *)

Record Excludes := mkExcludes {
  root_dirs : gset string;
  recursive_dirs : gset string;
  file_patterns : list string;
  specific_paths : list string
}.

Record JobConfig := mkJobConfig {
  source_dir : path;
  dest_dir : path;
  excludes : Excludes
}.

(** The [excludes] mapping of the YAML document, as [yaml.safe_load]
    returns it when its lists hold strings (absent lists are empty). *)
Record YamlExcludes := mkYamlExcludes {
  y_root_dirs : list string;
  y_recursive_dirs : list string;
  y_file_patterns : list string;
  y_specific_paths : list string
}.

(** [JobConfig.from_yaml], after the two required keys were found *)
Definition from_yaml (src dst : path) (excl : YamlExcludes) : JobConfig :=
  {| source_dir := src;
     dest_dir := dst;
     excludes :=
       {| root_dirs := list_to_set (lower <$> y_root_dirs excl);
          recursive_dirs := list_to_set (lower <$> y_recursive_dirs excl);
          file_patterns := y_file_patterns excl;
          specific_paths :=
            (λ p, lower (replace slash backslash p)) <$> y_specific_paths excl |} |}.

(** ** Errors *)

Inductive exn_class := PermissionError | FileNotFoundError | OtherOSError.

(** The error numbers the program or [pathlib] tells apart. *)
Inductive errno :=
  | ENOENT | ENOTDIR | EBADF | ELOOP | EACCES | EPERM | ENOSPC
  | EOTHER (n : nat).   (* any other error number *)

(** An [OSError]: its class, what [str(e)] prints, and its [errno] and
    [winerror] attributes ([None] when the exception has none). *)
Record exn := mkExn {
  exn_kind : exn_class;
  exn_msg : string;
  exn_errno : option errno;
  exn_winerror : option nat
}.

Global Instance errno_eq_dec : EqDecision errno.
Proof. solve_decision. Defined.

(** [pathlib._ignore_error]: the errors [Path.exists] turns into [False]. *)
Definition _IGNORED_ERRNOS : list errno := [ENOENT; ENOTDIR; EBADF; ELOOP].
Definition _IGNORED_WINERRORS : list nat := [21; 123; 1921].

Definition _ignore_error (e : exn) : bool :=
  match exn_errno e with
  | Some n => bool_decide (n ∈ _IGNORED_ERRNOS)
  | None => false
  end
  || match exn_winerror e with
     | Some n => bool_decide (n ∈ _IGNORED_WINERRORS)
     | None => false
     end.

(** A loop that appends the results of [f] and that the first exception
    ends. *)
Definition for_each {A B} (f : A → exn + B) : list A → exn + list B :=
  fix go (l : list A) : exn + list B :=
    match l with
    | [] => inr []
    | x :: l' =>
        match f x with
        | inl e => inl e
        | inr y =>
            match go l' with
            | inl e => inl e
            | inr ys => inr (y :: ys)
            end
        end
    end.

(** ** Floats *)

(** A Python [float] that is a number: a finite IEEE 754 double, given by
    its sign, mantissa and exponent as in [SpecFloat] ([DFinite s m e] is
    (-1)^s * m * 2^e, with [m] and [e] canonical). *)
Inductive double :=
  | DZero (s : bool)
  | DFinite (s : bool) (m : positive) (e : Z).

Definition spec (x : double) : spec_float :=
  match x with
  | DZero s => S754_zero s
  | DFinite s m e => S754_finite s m e
  end.

(** The canonical representations, which are the doubles. *)
Definition is_double (x : double) : bool :=
  match x with
  | DZero _ => true
  | DFinite _ m e => bounded 53 1024 m e
  end.

(** The float [2.0] *)
Definition two : spec_float := S754_finite false 4503599627370496 (-51).

(** [abs(a - b) <= 2], in double precision *)
Definition within_two (a b : double) : bool :=
  SFleb (SFabs (SFsub 53 1024 (spec a) (spec b))) two.

(** The value of a double, counted in units of 2^-1074, the smallest
    positive double. *)
Definition ulps (x : double) : Z :=
  match x with
  | DZero _ => 0%Z
  | DFinite s m e => ((if s then -1 else 1) * Z.pos m * 2 ^ (e + 1074))%Z
  end.

(** ** Files and filesystems *)

Record stat_result := mkStat { st_size : nat; st_atime : double; st_mtime : double }.

Record fdata := mkFile { f_bytes : list Byte.byte; f_atime : double; f_mtime : double }.

Inductive entry :=
  | File (d : fdata)
  | Unreadable (e : exn).   (* present, but reading it raises [e] *)

Abbreviation fs := (gmap path entry).

Definition no_such_file : exn :=
  {| exn_kind := FileNotFoundError; exn_msg := "[Errno 2] No such file or directory";
     exn_errno := Some ENOENT; exn_winerror := None |}.

Definition stat_of (d : fdata) : stat_result :=
  {| st_size := length (f_bytes d); st_atime := f_atime d; st_mtime := f_mtime d |}.

(** [os.stat(p)] *)
Definition os_stat (m : fs) (p : path) : exn + stat_result :=
  match m !! p with
  | Some (File d) => inr (stat_of d)
  | Some (Unreadable e) => inl e
  | None => inl no_such_file
  end.

(** [Path.exists]: [stat] decides; an error that [pathlib] ignores means
    that the path does not exist, any other error is raised. *)
Definition path_exists (m : fs) (p : path) : exn + bool :=
  match os_stat m p with
  | inr _ => inr true
  | inl e => if _ignore_error e then inr false else inl e
  end.

(** [os.path.exists]: [False] whatever the error of [os.stat] is. *)
Definition os_path_exists (m : fs) (p : path) : bool :=
  match os_stat m p with
  | inr _ => true
  | inl _ => false
  end.

(** What [os.walk(top)] (top-down, [onerror=None], [followlinks=False])
    finds at a directory entry.  A [Node] lists its sub-directories and its
    other entries, each in the order [os.scandir] yields them.  When
    [os.scandir] raises, [os.walk] ignores the error and yields nothing for
    that directory; a symbolic link to a directory is listed by its parent
    and not walked into. *)
Inductive tree :=
  | Node (dirs : list (string * tree)) (files : list string)
  | ScandirError (e : exn)
  | DirLink.

(** Names are unique within a directory, in every directory of the tree. *)
Inductive wf_tree : tree → Prop :=
  | wf_Node dirs files :
      NoDup (dirs.*1 ++ files) →
      Forall (λ d, wf_tree d.2) dirs →
      wf_tree (Node dirs files)
  | wf_ScandirError e : wf_tree (ScandirError e)
  | wf_DirLink : wf_tree DirLink.

(** A metadata look-up of the planner. *)
Inductive probe :=
  | ProbeStat (p : path)      (* [os.stat(p)] *)
  | ProbeExists (p : path).   (* [p.exists()] *)

(** ** The plan *)

Inductive action := ADD | UPDATE | SKIP | EXCLUDE.

Record PlanItem := mkItem {
  act : action;
  src : path;
  dst : path;
  reason : string
}.

Global Instance action_eq_dec : EqDecision action.
Proof. solve_decision. Defined.
Global Instance PlanItem_eq_dec : EqDecision PlanItem.
Proof. solve_decision. Defined.
Global Instance exn_class_eq_dec : EqDecision exn_class.
Proof. solve_decision. Defined.
Global Instance exn_eq_dec : EqDecision exn.
Proof. solve_decision. Defined.

(** ** SyncPlanner *)

(** The attributes [SyncPlanner.__init__] sets. *)
Record SyncPlanner := mkPlanner {
  cfg : JobConfig;
  src_root : path;
  dst_root : path;
  _root_excl : gset string;
  _rec_excl : gset string;
  _file_patterns : list string;
  _specific_excl : list string
}.

Definition SyncPlanner_init (c : JobConfig) : SyncPlanner :=
  {| cfg := c;
     src_root := source_dir c;
     dst_root := dest_dir c;
     _root_excl := root_dirs (excludes c);
     _rec_excl := recursive_dirs (excludes c);
     _file_patterns := lower <$> file_patterns (excludes c);
     _specific_excl := specific_paths (excludes c) |}.

Section planner.
(** [fnmatch.fnmatch] of the Python library, and the platform flag. *)
Context (fnmatch : string → string → bool) (IS_WINDOWS : bool).

Definition sep : string := if IS_WINDOWS then "\" else "/".

(** [str(p)] of a relative path *)
Definition path_str (p : path) : string :=
  match p with
  | [] => "."
  | _ => join sep p
  end.

Definition _rel_str (p : path) : string :=
  lower (replace slash backslash (path_str p)).

Definition _is_file_excluded (self : SyncPlanner) (name : string) : bool :=
  let n := lower name in
  existsb (λ pat, fnmatch n pat) (_file_patterns self).

Definition _is_under_specific (self : SyncPlanner) (rel_dir : path) : bool :=
  match _specific_excl self with
  | [] => false
  | _ =>
      let s := _rel_str rel_dir in
      existsb (λ sp, bool_decide (s = sp) || startswith s (sp +:+ "\"))
              (_specific_excl self)
  end.

Definition mark (same : bool) : string := if same then "=" else "≠".

(** [dst.exists()] is outside the two [try] blocks: what it raises
    leaves [_decide]. *)
Definition _decide (src_fs dst_fs : fs) (src dst : path) : exn + action * string :=
  match os_stat src_fs src with
  | inl e => inr (EXCLUDE, "unreadable: " +:+ exn_msg e)
  | inr s_stat =>
      match path_exists dst_fs dst with
      | inl e => inl e
      | inr false => inr (ADD, "missing")
      | inr true =>
          match os_stat dst_fs dst with
          | inl e => inr (UPDATE, "dst unreadable: " +:+ exn_msg e)
          | inr d_stat =>
              let size_same := bool_decide (st_size s_stat = st_size d_stat) in
              let mtime_same := within_two (st_mtime s_stat) (st_mtime d_stat) in
              if size_same && mtime_same then inr (SKIP, "same size+mtime")
              else inr (UPDATE,
                        "size " +:+ mark size_same +:+ ", mtime " +:+ mark mtime_same)
          end
      end
  end.

(** The loop that splits [dirnames] into [keep] and [removed]:
    [removed] takes the names with [name.lower() in excl]. *)
Definition split_dirnames (excl : gset string) (dirnames : list string)
  : list string * list string :=
  (filter (λ name, lower name ∉ excl) dirnames,
   filter (λ name, lower name ∈ excl) dirnames).

(** The body of [for fname in filenames]: the item it appends, or the
    exception that leaves it. *)
Definition plan_file (self : SyncPlanner) (src_fs dst_fs : fs)
    (rel_dir : path) (fname : string) : exn + PlanItem :=
  let src_file := (src_root self ++ rel_dir) ++ [fname] in
  let rel_file := rel_dir ++ [fname] in
  let dst_file := dst_root self ++ rel_file in
  if _is_file_excluded self fname
  then inr (mkItem EXCLUDE src_file dst_file "pattern")
  else
    match _decide src_fs dst_fs src_file dst_file with
    | inl e => inl e
    | inr (a, r) => inr (mkItem a src_file dst_file r)
    end.

(** The body removes the sub-directory [name] of [rel_dir] from
    [dirnames], so that [os.walk] does not walk into it. *)
Definition pruned (self : SyncPlanner) (rel_dir : path) (name : string) : Prop :=
  (rel_dir = [] ∧ lower name ∈ _root_excl self) ∨ lower name ∈ _rec_excl self.

Global Instance pruned_dec self rel_dir name : Decision (pruned self rel_dir name).
Proof. unfold pruned. apply _. Defined.

(** The items one iteration of the [os.walk] loop appends, and the
    [dirnames] it leaves for [os.walk] to walk into; or the exception
    that leaves the iteration.  [os.walk] yields
    [dirpath = src_root / rel_dir], from which [relative_to] gives
    [rel_dir] back; the model carries [rel_dir]. *)
Definition visit (self : SyncPlanner) (src_fs dst_fs : fs)
    (rel_dir : path) (dirnames filenames : list string)
  : exn + list PlanItem * list string :=
  let dirpath_path := src_root self ++ rel_dir in
  if _is_under_specific self rel_dir then
    inr ([mkItem EXCLUDE dirpath_path (dst_root self ++ rel_dir) "specific_path"], [])
  else
    let '(items1, dirnames) :=
      if bool_decide (rel_dir = []) then
        let '(keep, removed) := split_dirnames (_root_excl self) dirnames in
        ((λ r, mkItem EXCLUDE (dirpath_path ++ [r]) (dst_root self ++ [r])
                      "root_dir") <$> removed,
         keep)
      else ([], dirnames) in
    let '(items2, dirnames) :=
      match dirnames with
      | [] => ([], dirnames)
      | _ =>
          let '(keep, removed) := split_dirnames (_rec_excl self) dirnames in
          ((λ r, mkItem EXCLUDE (dirpath_path ++ [r])
                        ((dst_root self ++ rel_dir) ++ [r]) "recursive_dir")
             <$> removed,
           keep)
      end in
    match for_each (plan_file self src_fs dst_fs rel_dir) filenames with
    | inl e => inl e
    | inr items3 => inr (items1 ++ items2 ++ items3, dirnames)
    end.

(** The three kinds of item the body records for a directory. *)
Definition specific_item (self : SyncPlanner) (rel_dir : path) : PlanItem :=
  mkItem EXCLUDE (src_root self ++ rel_dir) (dst_root self ++ rel_dir)
         "specific_path".
Definition root_item (self : SyncPlanner) (rel_dir : path) (r : string) : PlanItem :=
  mkItem EXCLUDE (src_root self ++ rel_dir ++ [r]) (dst_root self ++ rel_dir ++ [r])
         "root_dir".
Definition rec_item (self : SyncPlanner) (rel_dir : path) (r : string) : PlanItem :=
  mkItem EXCLUDE (src_root self ++ rel_dir ++ [r]) (dst_root self ++ rel_dir ++ [r])
         "recursive_dir".

(** Which of the two filters removes a sub-directory: the root-only
    filter runs first, the recursive filter sees what it left. *)
Definition root_removed (self : SyncPlanner) (rel_dir : path) (name : string) : Prop :=
  rel_dir = [] ∧ lower name ∈ _root_excl self.
Definition rec_removed (self : SyncPlanner) (rel_dir : path) (name : string) : Prop :=
  ¬ root_removed self rel_dir name ∧ lower name ∈ _rec_excl self.

Global Instance root_removed_dec self rel_dir name :
  Decision (root_removed self rel_dir name).
Proof. unfold root_removed. apply _. Defined.
Global Instance rec_removed_dec self rel_dir name :
  Decision (rec_removed self rel_dir name).
Proof. unfold rec_removed. apply _. Defined.

(** The [for ... in os.walk(...)] loop below [rel_dir]: the items of this
    directory, then those of every sub-directory the body left in
    [dirnames], in order; the first exception ends it. *)
Fixpoint walk (self : SyncPlanner) (src_fs dst_fs : fs)
    (rel_dir : path) (t : tree) : exn + list PlanItem :=
  match t with
  | ScandirError _ | DirLink => inr []
  | Node dirs filenames =>
      match visit self src_fs dst_fs rel_dir (dirs.*1) filenames with
      | inl e => inl e
      | inr (items, _) =>
          match for_each
                  (λ d, if _is_under_specific self rel_dir then inr []
                        else if decide (pruned self rel_dir d.1) then inr []
                        else walk self src_fs dst_fs (rel_dir ++ [d.1]) d.2)
                  dirs with
          | inl e => inl e
          | inr below => inr (items ++ concat below)
          end
      end
  end.

(** [SyncPlanner.plan].  The source is what [os.stat(src_root)] raises,
    or the tree [os.walk] sees below a root that exists. *)
Definition plan (self : SyncPlanner) (source : exn + tree)
    (src_fs dst_fs : fs) : exn + list PlanItem :=
  match source with
  | inl e =>
      if _ignore_error e
      then inl {| exn_kind := FileNotFoundError;
                  exn_msg := "Source not found: " +:+ join sep (src_root self);
                  exn_errno := None; exn_winerror := None |}
      else inl e
  | inr t => walk self src_fs dst_fs [] t
  end.

(** *** The items of a loop that no exception ends

    The functions below are [plan_file], [visit] and [walk] again for
    the case that no [dst.exists()] raises; they serve the proofs, which
    relate them to the functions above. *)
Definition file_item (self : SyncPlanner) (src_fs dst_fs : fs)
    (rel_dir : path) (fname : string) : PlanItem :=
  match plan_file self src_fs dst_fs rel_dir fname with
  | inr it => it
  | inl _ =>
      mkItem EXCLUDE ((src_root self ++ rel_dir) ++ [fname])
             (dst_root self ++ rel_dir ++ [fname]) ""
  end.

Definition visit_items (self : SyncPlanner) (src_fs dst_fs : fs)
    (rel_dir : path) (dirnames filenames : list string)
  : list PlanItem * list string :=
  let dirpath_path := src_root self ++ rel_dir in
  if _is_under_specific self rel_dir then
    ([mkItem EXCLUDE dirpath_path (dst_root self ++ rel_dir) "specific_path"], [])
  else
    let '(items1, dirnames) :=
      if bool_decide (rel_dir = []) then
        let '(keep, removed) := split_dirnames (_root_excl self) dirnames in
        ((λ r, mkItem EXCLUDE (dirpath_path ++ [r]) (dst_root self ++ [r])
                      "root_dir") <$> removed,
         keep)
      else ([], dirnames) in
    let '(items2, dirnames) :=
      match dirnames with
      | [] => ([], dirnames)
      | _ =>
          let '(keep, removed) := split_dirnames (_rec_excl self) dirnames in
          ((λ r, mkItem EXCLUDE (dirpath_path ++ [r])
                        ((dst_root self ++ rel_dir) ++ [r]) "recursive_dir")
             <$> removed,
           keep)
      end in
    (items1 ++ items2 ++ (file_item self src_fs dst_fs rel_dir <$> filenames),
     dirnames).

Fixpoint walk_items (self : SyncPlanner) (src_fs dst_fs : fs)
    (rel_dir : path) (t : tree) : list PlanItem :=
  match t with
  | ScandirError _ | DirLink => []
  | Node dirs filenames =>
      (visit_items self src_fs dst_fs rel_dir (dirs.*1) filenames).1 ++
      (dirs ≫= λ d,
         if _is_under_specific self rel_dir then []
         else if decide (pruned self rel_dir d.1) then []
         else walk_items self src_fs dst_fs (rel_dir ++ [d.1]) d.2)
  end.

(** The directories the loop body runs for when [os.walk] starts at
    [top] (with tree [t]): [top] itself, and every sub-directory of a
    visited directory that the body leaves in [dirnames] and that
    [os.walk] can list. *)
Inductive visited (self : SyncPlanner) (top : path) (t : tree)
  : path → list (string * tree) → list string → Prop :=
  | visited_top dirs files :
      t = Node dirs files →
      visited self top t top dirs files
  | visited_child rel_dir dirs files name sub_dirs sub_files :
      visited self top t rel_dir dirs files →
      _is_under_specific self rel_dir = false →
      (name, Node sub_dirs sub_files) ∈ dirs →
      ¬ pruned self rel_dir name →
      visited self top t (rel_dir ++ [name]) sub_dirs sub_files.

(** ** The filesystem probes of [_decide]

    [_decide] and the loop body again, each returning next to its result
    the [os.stat] and [Path.exists] calls it makes, in order. *)
Definition _decide_probes (src_fs dst_fs : fs) (src dst : path)
  : list probe * (exn + action * string) :=
  match os_stat src_fs src with
  | inl e => ([ProbeStat src], inr (EXCLUDE, "unreadable: " +:+ exn_msg e))
  | inr s_stat =>
      match path_exists dst_fs dst with
      | inl e => ([ProbeStat src; ProbeExists dst], inl e)
      | inr false => ([ProbeStat src; ProbeExists dst], inr (ADD, "missing"))
      | inr true =>
          match os_stat dst_fs dst with
          | inl e => ([ProbeStat src; ProbeExists dst; ProbeStat dst],
                      inr (UPDATE, "dst unreadable: " +:+ exn_msg e))
          | inr d_stat =>
              let size_same := bool_decide (st_size s_stat = st_size d_stat) in
              let mtime_same := within_two (st_mtime s_stat) (st_mtime d_stat) in
              ([ProbeStat src; ProbeExists dst; ProbeStat dst],
               if size_same && mtime_same then inr (SKIP, "same size+mtime")
               else inr (UPDATE,
                         "size " +:+ mark size_same +:+ ", mtime "
                         +:+ mark mtime_same))
          end
      end
  end.

Definition plan_file_probes (self : SyncPlanner) (src_fs dst_fs : fs)
    (rel_dir : path) (fname : string) : list probe * (exn + PlanItem) :=
  let src_file := (src_root self ++ rel_dir) ++ [fname] in
  let rel_file := rel_dir ++ [fname] in
  let dst_file := dst_root self ++ rel_file in
  if _is_file_excluded self fname
  then ([], inr (mkItem EXCLUDE src_file dst_file "pattern"))
  else
    match _decide_probes src_fs dst_fs src_file dst_file with
    | (probes, inl e) => (probes, inl e)
    | (probes, inr (a, r)) => (probes, inr (mkItem a src_file dst_file r))
    end.
End planner.

(** [name] equals an entry of [l] up to case. *)
Definition matches_ci (name : string) (l : list string) : Prop :=
  ∃ c, c ∈ l ∧ lower c = lower name.

(** The planner [self] with no root-only names. *)
Definition without_root_excl (self : SyncPlanner) : SyncPlanner :=
  {| cfg := cfg self;
     src_root := src_root self;
     dst_root := dst_root self;
     _root_excl := ∅;
     _rec_excl := _rec_excl self;
     _file_patterns := _file_patterns self;
     _specific_excl := _specific_excl self |}.

(** ** SyncApplier *)

(** The system calls of the apply phase. *)
Inductive syscall :=
  | Mkdir (p : path)                 (* [Path.mkdir(parents=True, exist_ok=True)] *)
  | CopyFile (from to : path)        (* [shutil.copyfile] *)
  | Stat (p : path)                  (* [os.stat] *)
  | Utime (p : path) (atime mtime : double)   (* [os.utime] *)
  | Replace (from to : path)         (* [os.replace] *)
  | Exists (p : path)                (* [os.path.exists] *)
  | Remove (p : path).               (* [os.remove] *)

(** What the operating system does to the calls made for one item: the
    clock, and for each call whether it raises.  A failing copy leaves the
    temporary path as it was ([None]) or holding the bytes written so far. *)
Record os_behaviour := mkBehaviour {
  now : double;
  mkdir_raises : option exn;
  copy_raises : option (exn * option (list Byte.byte));
  stat_raises : option exn;
  utime_raises : option exn;
  replace_raises : option exn;
  remove_raises : option exn
}.

Definition calm : os_behaviour :=
  {| now := DZero false; mkdir_raises := None; copy_raises := None; stat_raises := None;
     utime_raises := None; replace_raises := None; remove_raises := None |}.

(** A call that was made: what it raised, if anything, and the
    destination filesystem it left. *)
Record event := mkEvent {
  ev_call : syscall;
  ev_raised : option exn;
  ev_disk : fs
}.

(** The destination filesystem, and the calls made so far. *)
Record world := mkWorld { disk : fs; trace : list event }.

(** A computation that reads and writes the [world] and may raise. *)
Definition io (A : Type) : Type := world → (exn + A) * world.

Definition io_ret {A} (x : A) : io A := λ w, (inr x, w).

Definition io_bind {A B} (m : io A) (k : A → io B) : io B :=
  λ w, match m w with
       | (inl e, w') => (inl e, w')
       | (inr x, w') => k x w'
       end.

(** [try: body / except OSError as e: handler e] *)
Definition io_try {A} (body : io A) (handler : exn → io A) : io A :=
  λ w, match body w with
       | (inl e, w') => handler e w'
       | r => r
       end.

(** [try: body / finally: raise], inside the handler of [e]: the bare
    [raise] re-raises [e] when [body] returns, and the exception of [body]
    when it raises. *)
Definition io_finally_raise {A} (e : exn) (body : io unit) : io A :=
  λ w, match body w with
       | (inl e', w') => (inl e', w')
       | (inr _, w') => (inl e, w')
       end.

Global Instance io_mret : MRet io := @io_ret.
Global Instance io_mbind : MBind io := λ A B k m, io_bind m k.

(** One call: its outcome [r] and the filesystem [m'] it leaves. *)
Definition raised_by {A} (r : exn + A) : option exn :=
  match r with inl e => Some e | inr _ => None end.

(** The world after one more call. *)
Definition step (w : world) (c : syscall) (raised : option exn) (m' : fs) : world :=
  {| disk := m';
     trace := trace w ++ [{| ev_call := c; ev_raised := raised; ev_disk := m' |}] |}.

(** One call: its outcome [r] and the filesystem [m'] it leaves. *)
Definition call {A} (c : syscall) (r : exn + A) (m' : fs) : io A :=
  λ w, (r, step w c (raised_by r) m').

Definition get_disk : io fs := λ w, (inr (disk w), w).

Module SyncApplier.
Section applier.
Context (preserve_mtime : bool) (src_fs : fs).

Definition mkdir (ob : os_behaviour) (p : path) : io unit :=
  m ← get_disk;
  match mkdir_raises ob with
  | Some e => call (Mkdir p) (inl e) m
  | None => call (Mkdir p) (inr ()) m
  end.

Definition copyfile (ob : os_behaviour) (from to : path) : io unit :=
  m ← get_disk;
  match copy_raises ob with
  | Some (e, None) => call (CopyFile from to) (inl e) m
  | Some (e, Some written) =>
      call (CopyFile from to) (inl e)
           (<[to := File {| f_bytes := written; f_atime := now ob;
                            f_mtime := now ob |}]> m)
  | None =>
      match src_fs !! from with
      | Some (File d) =>
          call (CopyFile from to) (inr ())
               (<[to := File {| f_bytes := f_bytes d; f_atime := now ob;
                                f_mtime := now ob |}]> m)
      | Some (Unreadable e) => call (CopyFile from to) (inl e) m
      | None => call (CopyFile from to) (inl no_such_file) m
      end
  end.

Definition stat (ob : os_behaviour) (p : path) : io stat_result :=
  m ← get_disk;
  match stat_raises ob with
  | Some e => call (Stat p) (inl e) m
  | None => call (Stat p) (os_stat src_fs p) m
  end.

(** [os.utime]: the file takes the two times as they are given (the
    resolution of the filesystem is not modelled). *)
Definition utime (ob : os_behaviour) (p : path) (atime mtime : double) : io unit :=
  m ← get_disk;
  match utime_raises ob, m !! p with
  | Some e, _ => call (Utime p atime mtime) (inl e) m
  | None, Some (File d) =>
      call (Utime p atime mtime) (inr ())
           (<[p := File {| f_bytes := f_bytes d; f_atime := atime;
                           f_mtime := mtime |}]> m)
  | None, Some (Unreadable e) => call (Utime p atime mtime) (inl e) m
  | None, None => call (Utime p atime mtime) (inl no_such_file) m
  end.

Definition replace_file (ob : os_behaviour) (from to : path) : io unit :=
  m ← get_disk;
  match replace_raises ob, m !! from with
  | Some e, _ => call (Replace from to) (inl e) m
  | None, Some x => call (Replace from to) (inr ()) (<[to := x]> (delete from m))
  | None, None => call (Replace from to) (inl no_such_file) m
  end.

Definition exists_file (p : path) : io bool :=
  m ← get_disk;
  call (Exists p) (inr (os_path_exists m p)) m.

Definition remove (ob : os_behaviour) (p : path) : io unit :=
  m ← get_disk;
  match remove_raises ob with
  | Some e => call (Remove p) (inl e) m
  | None => call (Remove p) (inr ()) (delete p m)
  end.

(** The clean-up both [except] clauses run. *)
Definition cleanup (ob : os_behaviour) (temp_path : path) : io unit :=
  b ← exists_file temp_path;
  if b : bool then remove ob temp_path else mret ().

(** The [try] block. *)
Definition try_block (ob : os_behaviour) (it : PlanItem) (temp_path : path)
  : io unit :=
  copyfile ob (src it) temp_path ;;
  (if preserve_mtime then
     s_stat ← stat ob (src it);
     utime ob temp_path (st_atime s_stat) (st_mtime s_stat)
   else mret ()) ;;
  replace_file ob temp_path (dst it).

(** The two [except] clauses. *)
Definition except_block (ob : os_behaviour) (temp_path : path) (e : exn)
  : io unit :=
  match exn_kind e with
  | PermissionError => io_finally_raise e (cleanup ob temp_path)
  | _ => io_finally_raise e (cleanup ob temp_path)
  end.

(** The body of the loop for an item that is neither SKIP nor EXCLUDE. *)
Definition apply_item (ob : os_behaviour) (it : PlanItem) : io unit :=
  mkdir ob (parent (dst it)) ;;
  let temp_path := with_suffix_added (dst it) ".part" in
  io_try (try_block ob it temp_path) (except_block ob temp_path).

(** [SyncApplier.apply]; the [n]-th item meets the [n]-th behaviour. *)
Fixpoint apply (items : list PlanItem) (obs : list os_behaviour) : io unit :=
  match items with
  | [] => mret ()
  | it :: rest =>
      match act it with
      | SKIP | EXCLUDE => apply rest (tail obs)
      | _ => apply_item (default calm (head obs)) it ;; apply rest (tail obs)
      end
  end.
End applier.
End SyncApplier.

(** The file a completed copy of [d] leaves at the destination. *)
Definition copied (preserve_mtime : bool) (ob : os_behaviour) (d : fdata) : fdata :=
  {| f_bytes := f_bytes d;
     f_atime := if preserve_mtime then f_atime d else now ob;
     f_mtime := if preserve_mtime then f_mtime d else now ob |}.

(** The calls of a [try] block that runs to its end. *)
Definition try_calls (preserve_mtime : bool) (it : PlanItem) (temp_path : path)
    (atime mtime : double) : list syscall :=
  [CopyFile (src it) temp_path]
  ++ (if preserve_mtime then [Stat (src it); Utime temp_path atime mtime] else [])
  ++ [Replace temp_path (dst it)].

(** [p] and the directories above it, the root directory apart. *)
Definition ancestors (p : path) : list path :=
  (λ n, take n p) <$> seq 1 (length p).

(** The paths a call can create, change or remove.
    [mkdir(parents=True, exist_ok=True)] creates the directory and every
    directory above it that is missing. *)
Definition written (c : syscall) : list path :=
  match c with
  | Mkdir p => ancestors p
  | CopyFile _ to => [to]
  | Utime p _ _ => [p]
  | Replace from to => [from; to]
  | Remove p => [p]
  | Stat _ | Exists _ => []
  end.

(** ** The apply phase of [main] *)

Inductive outcome :=
  | Exit (code : nat) (stderr : string)
  | Return (stdout : string).

(** [main] after the plan was printed, when [--apply] is given. *)
Definition main_apply (src_fs : fs) (plan : list PlanItem)
    (obs : list os_behaviour) (w : world) : outcome * world :=
  let to_apply :=
    filter (λ it, act it = ADD ∨ act it = UPDATE) plan in
  match SyncApplier.apply true src_fs to_apply obs w with
  | (inl e, w') =>
      match exn_kind e with
      | PermissionError =>
          (Exit 1 ("Copy aborted (permission/lock error): " +:+ exn_msg e), w')
      | _ => (Exit 1 ("Copy aborted (I/O error): " +:+ exn_msg e), w')
      end
  | (inr _, w') => (Return "Apply complete.", w')
  end.

(** ** A worked example

    A source tree with one directory for each exclusion layer, and a
    destination that already holds some of the files. *)
Module Example.
Definition yaml : YamlExcludes :=
  {| y_root_dirs := ["node_modules"];
     y_recursive_dirs := ["__pycache__"];
     y_file_patterns := ["*.o"];
     y_specific_paths := ["scripts/output"] |}.

Definition config : JobConfig := from_yaml ["srv"; "app"] ["mirror"] yaml.
Definition self : SyncPlanner := SyncPlanner_init config.

Definition build_dirs : list (string * tree) :=
  [("node_modules", Node [] ["deep.js"]); ("__PyCache__", Node [] ["c.pyc"])].
Definition scripts_dirs : list (string * tree) :=
  [("output", Node [("logs", Node [] ["l.txt"])] ["log.txt"]);
   ("output2", Node [] ["k.txt"])].
Definition top_dirs : list (string * tree) :=
  [("node_modules", Node [] ["x.js"]);
   ("scripts", Node scripts_dirs []);
   ("build", Node build_dirs ["tmp.o"; "TMP.O"])].
Definition top_files : list string := ["a.txt"; "b.txt"; "c.txt"].
Definition source : tree := Node top_dirs top_files.

Definition bytes (n : nat) : list Byte.byte := repeat Byte.x00 n.
Definition file (size : nat) (mtime : double) : entry :=
  File {| f_bytes := bytes size; f_atime := mtime; f_mtime := mtime |}.
Definition denied : exn :=
  {| exn_kind := PermissionError; exn_msg := "[Errno 13] Permission denied";
     exn_errno := Some EACCES; exn_winerror := None |}.
Definition disk_full : exn :=
  {| exn_kind := OtherOSError; exn_msg := "[Errno 28] No space left on device";
     exn_errno := Some ENOSPC; exn_winerror := None |}.

(** The doubles 100.0, 200.0, 202.0, 300.0, 302.5, 400.0 and 500.0. *)
Definition t100 : double := DFinite false 7036874417766400 (-46).
Definition t200 : double := DFinite false 7036874417766400 (-45).
Definition t202 : double := DFinite false 7107243161944064 (-45).
Definition t300 : double := DFinite false 5277655813324800 (-44).
Definition t302_5 : double := DFinite false 5321636278435840 (-44).
Definition t400 : double := DFinite false 7036874417766400 (-44).
Definition t500 : double := DFinite false 8796093022208000 (-44).

Definition src_fs : fs :=
  {[ ["srv"; "app"; "a.txt"] := file 5 t100;
     ["srv"; "app"; "b.txt"] := file 3 t200;
     ["srv"; "app"; "c.txt"] := Unreadable denied;
     ["srv"; "app"; "scripts"; "output2"; "k.txt"] := file 7 t300;
     ["srv"; "app"; "build"; "node_modules"; "deep.js"] := file 1 t400 ]}.

Definition dst_fs : fs :=
  {[ ["mirror"; "b.txt"] := file 3 t202;
     ["mirror"; "scripts"; "output2"; "k.txt"] := file 7 t302_5;
     ["mirror"; "build"; "node_modules"; "deep.js"] := file 2 t400 ]}.

(** The same destination, where [deep.js] may not be examined. *)
Definition locked_dst_fs : fs :=
  <[ ["mirror"; "build"; "node_modules"; "deep.js"] := Unreadable denied ]> dst_fs.

Definition start : world := {| disk := dst_fs; trace := [] |}.

(** The items of a plan that is returned. *)
Definition planned (r : exn + list PlanItem) : list PlanItem :=
  match r with
  | inr items => items
  | inl _ => []
  end.

(** The plan of the example. *)
Definition items : list PlanItem :=
  planned (walk glob_fnmatch false self src_fs dst_fs [] source).

(** A source directory holding a file and a file named like its
    temporary copy, listed in this order, and an empty destination. *)
Definition part_config : JobConfig :=
  from_yaml ["srv"] ["mirror"]
    {| y_root_dirs := []; y_recursive_dirs := []; y_file_patterns := [];
       y_specific_paths := [] |}.
Definition part_self : SyncPlanner := SyncPlanner_init part_config.
Definition part_source : tree := Node [] ["a.txt.part"; "a.txt"].
Definition part_src_fs : fs :=
  {[ ["srv"; "a.txt.part"] := file 4 t100; ["srv"; "a.txt"] := file 5 t100 ]}.
Definition part_items : list PlanItem :=
  planned (walk glob_fnmatch false part_self part_src_fs ∅ [] part_source).

(** A directory name listed both in root_dirs and in recursive_dirs. *)
Definition both_config : JobConfig :=
  from_yaml ["srv"] ["mirror"]
    {| y_root_dirs := ["build"]; y_recursive_dirs := ["build"];
       y_file_patterns := []; y_specific_paths := [] |}.
Definition both_source : tree := Node [("build", Node [] ["x.o"])] [].

(** A sub-directory the planner may not list. *)
Definition secret_source : tree :=
  Node [("secret", ScandirError denied)] ["a.txt"].

(** A copy that fails half-way, and a temporary file that cannot be
    removed. *)
Definition stuck : os_behaviour :=
  {| now := t500; mkdir_raises := None;
     copy_raises := Some (disk_full, Some (bytes 2));
     stat_raises := None; utime_raises := None; replace_raises := None;
     remove_raises := Some denied |}.

(** The same failing copy, with a temporary file that can be removed. *)
Definition torn : os_behaviour :=
  {| now := t500; mkdir_raises := None;
     copy_raises := Some (disk_full, Some (bytes 2));
     stat_raises := None; utime_raises := None; replace_raises := None;
     remove_raises := None |}.

(** A destination root two levels below a directory that does not exist
    yet. *)
Definition deep_config : JobConfig :=
  from_yaml ["srv"] ["x"; "new"; "mirror"]
    {| y_root_dirs := []; y_recursive_dirs := []; y_file_patterns := [];
       y_specific_paths := [] |}.
Definition deep_self : SyncPlanner := SyncPlanner_init deep_config.

(** Two files of equal size whose times are the doubles 3.000000002 and
    1.000000002: their difference, 2 + 2^-52, rounds to 2.0. *)
Definition t3 : double := DFinite false 6755399445559344 (-51).
Definition t1 : double := DFinite false 4503599636377695 (-52).
Definition late_src_fs : fs := {[ ["srv"; "a.txt"] := file 5 t3 ]}.
Definition late_dst_fs : fs := {[ ["mirror"; "a.txt"] := file 5 t1 ]}.
Definition a_item : PlanItem :=
  mkItem ADD ["srv"; "app"; "a.txt"] ["mirror"; "a.txt"] "missing".
End Example.

(** ** Long paths

    The spelling functions, on the text of a path.  In a string of this
    file a backslash stands for itself, so ["\\?\"] is the four characters
    of the Windows long-path prefix. *)

(** [s[n:]] *)
Fixpoint str_from (n : nat) (s : string) : string :=
  match n, s with
  | O, _ => s
  | S n', String _ s' => str_from n' s'
  | S _, EmptyString => EmptyString
  end.

Definition _to_long_path (IS_WINDOWS : bool) (p : string) : string :=
  if negb IS_WINDOWS then p
  else if startswith p "\\?\" then p
  else if startswith p "\\" then "\\?\UNC" +:+ str_from 1 p
  else "\\?\" +:+ p.

(** [SyncPlanner._long], given [str(p)] *)
Definition _long (IS_WINDOWS : bool) (p : string) : string :=
  _to_long_path IS_WINDOWS p.

(** [SyncPlanner._short], given [s = str(p)] *)
Definition _short (IS_WINDOWS : bool) (s : string) : string :=
  if IS_WINDOWS && startswith s "\\?\UNC\" then "\" +:+ str_from 7 s
  else if IS_WINDOWS && startswith s "\\?\" then str_from 4 s
  else s.

(** ** Configurations *)

(** [excl] when the document has no [excludes] mapping. *)
Definition no_excludes : YamlExcludes :=
  {| y_root_dirs := []; y_recursive_dirs := []; y_file_patterns := [];
     y_specific_paths := [] |}.

(** ** Reports *)

Definition newline : string := String (Ascii.ascii_of_nat 10) "".

(** [sorted(s)] for a set of strings: its members in increasing order. *)
Definition sorted (s : gset string) : list string :=
  merge_sort (λ a b, Is_true (String.leb a b)) (elements s).

Definition _fmt_list (lst : list string) : string :=
  match lst with
  | [] => "(none)"
  | _ => join ", " lst
  end.

Fixpoint spaces (n : nat) : string :=
  match n with O => "" | S n' => " " +:+ spaces n' end.

(** [f"{s:7}"] for [w = 7]: [s] padded with spaces on the right. *)
Definition ljust (w : nat) (s : string) : string :=
  s +:+ spaces (w - String.length s).

Definition action_name (a : action) : string :=
  match a with
  | ADD => "ADD" | UPDATE => "UPDATE" | SKIP => "SKIP" | EXCLUDE => "EXCLUDE"
  end.

Section report.
(** The platform flag, and [str(p)] for a path that is not relative. *)
Context (IS_WINDOWS : bool) (str_path : path → string).

Definition format_config_summary (cfg : JobConfig) : string :=
  let ex := excludes cfg in
  let lines :=
    [ "Source: " +:+ str_path (source_dir cfg);
      "Dest  : " +:+ str_path (dest_dir cfg);
      "Excludes:";
      "  root_dirs     : " +:+ _fmt_list (sorted (root_dirs ex));
      "  recursive_dirs: " +:+ _fmt_list (sorted (recursive_dirs ex));
      "  specific_paths: " +:+ _fmt_list (specific_paths ex);
      "  file_patterns : " +:+ _fmt_list (file_patterns ex);
      "" ] in
  join newline lines.

(** [groups[key]] after the loop over [items]. *)
Definition group (key : action) (items : list PlanItem) : list PlanItem :=
  filter (λ it, act it = key) items.

(** The inner function [rel] of [format_plan]. *)
Definition rel (p : path) (root : option path) : string :=
  match root with
  | Some r =>
      match relative_to p r with
      | Some q => path_str IS_WINDOWS q
      | None => str_path p
      end
  | None => str_path p
  end.

(** [add {..} | update {..} | skip {..} | exclude {..}] *)
Definition counts (items : list PlanItem) : string :=
  "add " +:+ pretty (length (group ADD items))
  +:+ " | update " +:+ pretty (length (group UPDATE items))
  +:+ " | skip " +:+ pretty (length (group SKIP items))
  +:+ " | exclude " +:+ pretty (length (group EXCLUDE items)).

(** [sum(len(v) for v in groups.values())] *)
Definition total (items : list PlanItem) : nat :=
  length (group ADD items) + length (group UPDATE items)
  + length (group SKIP items) + length (group EXCLUDE items).

Definition summary_line (items : list PlanItem) : string :=
  "Summary: total " +:+ pretty (total items) +:+ " | " +:+ counts items.

Definition row (src_root : option path) (it : PlanItem) : string :=
  "  - " +:+ rel (src it) src_root +:+ " [" +:+ reason it +:+ "]".

Definition row_verbose (key : action) (it : PlanItem) : string :=
  "  - " +:+ ljust 7 (action_name key) +:+ " " +:+ str_path (src it)
  +:+ "  →  " +:+ str_path (dst it) +:+ "  [" +:+ reason it +:+ "]".

(** The lines one call of [block] appends. *)
Definition block (items : list PlanItem) (src_root : option path)
    (title : string) (key : action) : list string :=
  let rows := group key items in
  [title +:+ " (" +:+ pretty (length rows) +:+ ")"]
  ++ (row src_root <$> rows) ++ [""].

(** The lines one call of [block_verbose] appends. *)
Definition block_verbose (items : list PlanItem) (title : string) (key : action)
  : list string :=
  let rows := group key items in
  [title +:+ " (" +:+ pretty (length rows) +:+ ")"]
  ++ (row_verbose key <$> rows) ++ [""].

(** The list [lines] of [format_plan] when it returns. *)
Definition format_plan_lines (items : list PlanItem)
    (src_root dst_root : option path) (compact : bool) : list string :=
  if compact then
    (match src_root with Some r => ["Source: " +:+ str_path r] | None => [] end)
    ++ (match dst_root with Some r => ["Dest  : " +:+ str_path r] | None => [] end)
    ++ ["Plan  : " +:+ counts items; ""]
    ++ block items src_root "ADDED" ADD
    ++ block items src_root "UPDATED" UPDATE
    ++ block items src_root "SKIPPED (already up-to-date)" SKIP
    ++ block items src_root "EXCLUDED (by pattern or pruned dir)" EXCLUDE
    ++ [summary_line items]
  else
    block_verbose items "ADDED" ADD
    ++ block_verbose items "UPDATED" UPDATE
    ++ block_verbose items "SKIPPED (already up-to-date)" SKIP
    ++ block_verbose items "EXCLUDED (by pattern or pruned dir)" EXCLUDE
    ++ [summary_line items].

Definition format_plan (items : list PlanItem)
    (src_root dst_root : option path) (compact : bool) : string :=
  join newline (format_plan_lines items src_root dst_root compact).
End report.

(** ** [main] *)

(** The parsed command line. *)
Record Args := mkArgs {
  arg_config : string;
  arg_apply : bool;
  arg_verbose : bool;
  arg_compact : bool
}.

(** What a run of [main] leaves: the text of each [print] to the standard
    output and to the standard error, the exit status ([None] when [main]
    returns), and the destination with the calls made. *)
Record run := mkRun {
  stdout : list string;
  stderr : list string;
  status : option nat;
  final : world
}.

Section main.
Context (fnmatch : string → string → bool) (IS_WINDOWS : bool).
Context (str_path : path → string).

(** [main], once the command line is parsed.  [loaded] is what
    [JobConfig.from_yaml] gives: the configuration, or the text of the
    exception it raised, of whatever class ([open], the YAML parser, a
    required key that is missing, a value of a type the method cannot
    work with).  [source] is what [plan] finds at the source root.  The
    destination filesystem is the [disk] of the world; [obs] are the
    behaviours the operating system shows to the items that are
    applied. *)
Definition main (args : Args) (loaded : string + JobConfig)
    (source : exn + tree) (src_fs : fs) (obs : list os_behaviour) (w : world)
  : run :=
  match loaded with
  | inl msg =>
      {| stdout := []; stderr := ["Config error: " +:+ msg]; status := Some 2;
         final := w |}
  | inr cfg =>
      let out1 :=
        if arg_compact args then []
        else [format_config_summary str_path cfg] in
      let planner := SyncPlanner_init cfg in
      match plan fnmatch IS_WINDOWS planner source src_fs (disk w) with
      | inl e =>
          {| stdout := out1; stderr := ["Planning failed: " +:+ exn_msg e];
             status := Some 1; final := w |}
      | inr items =>
          let out2 :=
            out1 ++ [format_plan IS_WINDOWS str_path items
                       (Some (src_root planner)) (Some (dst_root planner))
                       (arg_compact args)] in
          if negb (arg_apply args) then
            {| stdout := out2; stderr := []; status := None; final := w |}
          else
            match main_apply src_fs items obs w with
            | (Exit code msg, w') =>
                {| stdout := out2; stderr := [msg]; status := Some code;
                   final := w' |}
            | (Return msg, w') =>
                {| stdout := out2 ++ [msg]; stderr := []; status := None;
                   final := w' |}
            end
      end
  end.
End main.

Module Report.
(** The spelling of paths on a POSIX system, for the worked examples. *)
Definition posix_str (p : path) : string := "/" +:+ join "/" p.

Definition dry_run : Args :=
  {| arg_config := "job.yaml"; arg_apply := false; arg_verbose := false;
     arg_compact := true |}.
Definition wet_run : Args :=
  {| arg_config := "job.yaml"; arg_apply := true; arg_verbose := false;
     arg_compact := true |}.

(** Specific paths written with a trailing separator, as the source root
    itself, and with capital letters. *)
Definition trailing_yaml : YamlExcludes :=
  {| y_root_dirs := []; y_recursive_dirs := []; y_file_patterns := [];
     y_specific_paths := ["scripts/output/"] |}.
Definition dot_yaml : YamlExcludes :=
  {| y_root_dirs := []; y_recursive_dirs := []; y_file_patterns := [];
     y_specific_paths := ["."] |}.
Definition capitals_yaml : YamlExcludes :=
  {| y_root_dirs := []; y_recursive_dirs := []; y_file_patterns := [];
     y_specific_paths := ["Scripts/Output"] |}.

(** The same directory names, written in two ways. *)
Definition names_yaml : YamlExcludes :=
  {| y_root_dirs := ["Build"; "build"; "Dist"]; y_recursive_dirs := [];
     y_file_patterns := []; y_specific_paths := [] |}.
Definition names_yaml' : YamlExcludes :=
  {| y_root_dirs := ["dist"; "BUILD"]; y_recursive_dirs := [];
     y_file_patterns := []; y_specific_paths := [] |}.

(** The planner of the example without its exclusions. *)
Definition bare_self : SyncPlanner :=
  SyncPlanner_init (from_yaml ["srv"; "app"] ["mirror"] no_excludes).

(** A source whose sub-directories are symbolic links. *)
Definition linked_source : tree :=
  Node [("node_modules", DirLink); ("docs", DirLink)] ["a.txt"].

Definition k_item : PlanItem :=
  mkItem UPDATE ["srv"; "app"; "scripts"; "output2"; "k.txt"]
         ["mirror"; "scripts"; "output2"; "k.txt"] "size =, mtime ≠".
End Report.
(** * Properties *)

(** ** Strings *)

Lemma append_cons x (a b : string) : String x a +:+ b = String x (a +:+ b).
Proof. reflexivity. Qed.

Lemma append_nil_l (b : string) : "" +:+ b = b.
Proof. reflexivity. Qed.

Lemma append_assoc (a b c : string) : (a +:+ b) +:+ c = a +:+ (b +:+ c).
Proof.
  induction a as [|x a IH]; [done |]. by rewrite !append_cons, IH.
Qed.

Lemma append_nil_r (a : string) : a +:+ "" = a.
Proof.
  induction a as [|x a IH]; [done |]. by rewrite append_cons, IH.
Qed.

Lemma startswith_spec (s p : string) :
  startswith s p = true ↔ ∃ r, s = p +:+ r.
Proof.
  revert s. induction p as [|a p IH]; intros s; simpl.
  - split; [intros _; exists s; reflexivity | by destruct s].
  - destruct s as [|b s]; simpl.
    + split; [done | intros [r Hr]; discriminate].
    + rewrite andb_true_iff, IH. split.
      * intros [Hab [r ->]]. apply Ascii.eqb_eq in Hab as ->. by exists r.
      * intros [r Hr]. rewrite append_cons in Hr. injection Hr as -> ->.
        split; [apply Ascii.eqb_refl | by exists r].
Qed.

Lemma split_nonempty c s : split c s ≠ [].
Proof.
  destruct s as [|a s]; simpl; [done |].
  destruct (Ascii.eqb a c); [done |]. by destruct (split c s).
Qed.

Lemma join_cons sep x l :
  l ≠ [] → join sep (x :: l) = x +:+ sep +:+ join sep l.
Proof. by destruct l. Qed.

Lemma join_app sep l1 l2 :
  l1 ≠ [] → l2 ≠ [] →
  join sep (l1 ++ l2) = join sep l1 +:+ sep +:+ join sep l2.
Proof.
  intros H1 H2. induction l1 as [|x l1 IH]; [done |].
  destruct l1 as [|y l1].
  - simpl app. rewrite join_cons by done. reflexivity.
  - rewrite <- app_comm_cons, join_cons by (simpl; done).
    rewrite IH by done. rewrite (join_cons sep x (y :: l1)) by done.
    by rewrite !append_assoc.
Qed.

Lemma join_split c s : join (String c "") (split c s) = s.
Proof.
  induction s as [|a s IH]; [done |]. simpl.
  destruct (Ascii.eqb_spec a c) as [-> | Hne].
  - rewrite join_cons by apply split_nonempty. by rewrite IH.
  - pose proof (split_nonempty c s) as Hn.
    destruct (split c s) as [|x rest]; [done |].
    destruct rest as [|y rest].
    + simpl in *. by rewrite IH.
    + rewrite join_cons by done. rewrite join_cons in IH by done.
      rewrite append_cons. by rewrite IH.
Qed.

Lemma split_app_sep c a b :
  split c (a +:+ String c b) = split c a ++ split c b.
Proof.
  induction a as [|x a IH]; simpl.
  - by rewrite Ascii.eqb_refl.
  - destruct (Ascii.eqb x c); rewrite IH; [done |].
    pose proof (split_nonempty c a) as Hn.
    by destruct (split c a).
Qed.

(** [s == sp or s.startswith(sp + "\\")] compares whole segments. *)
Lemma specific_match_segments (s sp : string) :
  bool_decide (s = sp) || startswith s (sp +:+ "\") = true
  ↔ split backslash sp `prefix_of` split backslash s.
Proof.
  rewrite orb_true_iff, bool_decide_eq_true, startswith_spec. split.
  - intros [-> | [r ->]]; [done |].
    rewrite append_assoc. change ("\" +:+ r) with (String backslash r).
    rewrite split_app_sep. by apply prefix_app_r.
  - intros [k Hk]. destruct k as [|x k].
    + left. rewrite app_nil_r in Hk.
      rewrite <- (join_split backslash s), <- (join_split backslash sp).
      by rewrite Hk.
    + right. exists (join "\" (x :: k)).
      rewrite <- (join_split backslash s) at 1. rewrite Hk.
      change (String backslash "") with "\".
      rewrite join_app by (done || apply split_nonempty).
      change "\" with (String backslash "") at 1.
      rewrite join_split. by rewrite append_assoc.
Qed.

(** The normalized form of a relative path, segment by segment. *)

Lemma ascii_lower_backslash c :
  Ascii.eqb (ascii_lower c) backslash = Ascii.eqb c backslash.
Proof. by destruct c as [[] [] [] [] [] [] [] []]. Qed.

Lemma contains_lower s : contains backslash (lower s) = contains backslash s.
Proof.
  induction s as [|a s IH]; [done |]. simpl. by rewrite ascii_lower_backslash, IH.
Qed.

Lemma lower_append a b : lower (a +:+ b) = lower a +:+ lower b.
Proof.
  induction a as [|x a IH]; [done |]. rewrite append_cons. simpl.
  by rewrite IH, append_cons.
Qed.

Lemma lower_join sep l : lower (join sep l) = join (lower sep) (lower <$> l).
Proof.
  induction l as [|x l IH]; [done |]. destruct l as [|y l]; [reflexivity |].
  rewrite join_cons by done. rewrite lower_append, lower_append, IH.
  rewrite !fmap_cons. by rewrite (join_cons _ (lower x)).
Qed.

Lemma replace_append a b x y :
  replace a b (x +:+ y) = replace a b x +:+ replace a b y.
Proof.
  induction x as [|c x IH]; [done |]. rewrite append_cons. simpl.
  by rewrite IH, append_cons.
Qed.

Lemma replace_absent a b s : contains a s = false → replace a b s = s.
Proof.
  induction s as [|c s IH]; [done |]. simpl. intros [Hc Hs]%orb_false_elim.
  by rewrite Hc, IH.
Qed.

Lemma replace_join a b sep l :
  Forall (λ s, contains a s = false) l →
  replace a b (join sep l) = join (replace a b sep) l.
Proof.
  induction l as [|x l IH]; [done |]. intros [Hx Hl]%Forall_cons.
  destruct l as [|y l]; [by apply replace_absent |].
  rewrite !join_cons by done.
  by rewrite !replace_append, IH, (replace_absent _ _ x).
Qed.

Lemma split_absent c s : contains c s = false → split c s = [s].
Proof.
  induction s as [|a s IH]; [done |]. simpl. intros [Hc Hs]%orb_false_elim.
  by rewrite Hc, IH.
Qed.

Lemma split_join c l :
  l ≠ [] → Forall (λ s, contains c s = false) l →
  split c (join (String c "") l) = l.
Proof.
  induction l as [|x l IH]; [done |]. intros _ [Hx Hl]%Forall_cons.
  destruct l as [|y l]; [by apply split_absent |].
  rewrite join_cons by done.
  change (String c "" +:+ join (String c "") (y :: l))
    with (String c (join (String c "") (y :: l))).
  by rewrite split_app_sep, split_absent, IH.
Qed.

(** For names the operating system can produce, the segments of the
    normalized path are the lower-cased names. *)
Lemma rel_str_segments IS_WINDOWS (rel_dir : path) :
  rel_dir ≠ [] → Forall entry_name rel_dir →
  split backslash (_rel_str IS_WINDOWS rel_dir) = lower <$> rel_dir.
Proof.
  intros Hne Hnames. unfold _rel_str, path_str.
  destruct rel_dir as [|x l]; [done |].
  rewrite replace_join by (eapply Forall_impl; [done | by intros ? [? _]]).
  assert (replace slash backslash (sep IS_WINDOWS) = String backslash "") as ->
    by (by destruct IS_WINDOWS).
  rewrite lower_join. change (lower (String backslash "")) with (String backslash "").
  apply split_join; [done |].
  apply Forall_fmap. eapply Forall_impl; [done |]. intros s [_ Hs]. simpl.
  by rewrite contains_lower.
Qed.

(** ** Induction on trees *)

Lemma tree_ind' (P : tree → Prop) :
  (∀ dirs files, Forall (λ d, P d.2) dirs → P (Node dirs files)) →
  (∀ e, P (ScandirError e)) →
  P DirLink →
  ∀ t, P t.
Proof.
  intros HN HE HL. fix IH 1. intros [dirs files | e |].
  - apply HN. induction dirs as [|[n sub] dirs IHd]; constructor.
    + apply IH.
    + apply IHd.
  - apply HE.
  - apply HL.
Qed.

Lemma fmap_pointwise {A B} (f g : A → B) (l : list A) :
  (∀ x, f x = g x) → f <$> l = g <$> l.
Proof. intros H. induction l as [|x l IH]; [done |]. by rewrite !fmap_cons, H, IH. Qed.

Lemma fmap_bind {A B C} (g : B → C) (f : A → list B) (l : list A) :
  g <$> (l ≫= f) = l ≫= (λ x, g <$> f x).
Proof.
  induction l as [|x l IH]; [done |]. by rewrite !bind_cons, fmap_app, IH.
Qed.

Lemma snoc_inj (l : list string) : Inj (=) (=) (λ r, l ++ [r]).
Proof. intros r1 r2 H. by apply app_inv_head in H as [= ->]. Qed.

Lemma NoDup_fst_agree {A B} (l : list (A * B)) x y1 y2 :
  NoDup l.*1 → (x, y1) ∈ l → (x, y2) ∈ l → y1 = y2.
Proof.
  induction l as [|[a b] l IH]; intros Hnd H1 H2.
  - by apply elem_of_nil in H1.
  - rewrite fmap_cons in Hnd. apply NoDup_cons in Hnd as [Ha Hnd].
    assert (Hin : ∀ y, (a, y) ∈ l → a ∈ l.*1).
    { intros y Hy. apply list_elem_of_fmap. by exists (a, y). }
    apply elem_of_cons in H1 as [Heq1 | H1];
      apply elem_of_cons in H2 as [Heq2 | H2]; simplify_eq.
    + done.
    + destruct Ha. eauto.
    + destruct Ha. eauto.
    + eauto.
Qed.

(** ** Loops that an exception can end *)

Lemma for_each_inr {A B} (f : A → exn + B) (l : list A) (ys : list B) :
  for_each f l = inr ys ↔ Forall2 (λ x y, f x = inr y) l ys.
Proof.
  revert ys. induction l as [|x l IH]; intros ys; simpl.
  - split; [intros [= <-]; constructor | by inversion 1].
  - destruct (f x) as [e | y] eqn:Hx.
    + split; [done | inversion 1; congruence].
    + destruct (for_each f l) as [e | ys'] eqn:Hl.
      * split; [done |]. inversion 1 as [| ? y' ? ys' Hy Hys]; subst.
        by apply IH in Hys.
      * split.
        -- intros [= <-]. constructor; [done | by apply IH].
        -- inversion 1 as [| ? y' ? ys'' Hy Hys]; subst.
           apply IH in Hys. congruence.
Qed.


Lemma for_each_fmap {A B} (f : A → exn + B) (g : A → B) (l : list A) :
  (∀ x, x ∈ l → f x = inr (g x)) → for_each f l = inr (g <$> l).
Proof.
  intros H. apply for_each_inr. induction l as [|x l IH]; [constructor |].
  rewrite fmap_cons. constructor; [apply H; by left |].
  apply IH. intros y Hy. apply H. by right.
Qed.

Lemma for_each_inr_fmap {A B} (f : A → exn + B) (g : A → B) (l : list A) ys :
  for_each f l = inr ys → (∀ x y, f x = inr y → y = g x) → ys = g <$> l.
Proof.
  intros H%for_each_inr Hg. induction H as [| x y l ys Hx _ IH]; [done |].
  by rewrite fmap_cons, (Hg x y Hx), IH.
Qed.

(** ** The loop body *)

Section walk_facts.
Context (fnmatch : string → string → bool) (IS_WINDOWS : bool).
Context (self : SyncPlanner) (src_fs dst_fs : fs).

Local Abbreviation walk_items' := (walk_items fnmatch IS_WINDOWS self src_fs dst_fs).
Local Abbreviation visit_items' := (visit_items fnmatch IS_WINDOWS self src_fs dst_fs).
Local Abbreviation specific := (_is_under_specific IS_WINDOWS self).
Local Abbreviation file_item' := (file_item fnmatch self src_fs dst_fs).

Local Abbreviation specific_item' := (specific_item self).
Local Abbreviation root_item' := (root_item self).
Local Abbreviation rec_item' := (rec_item self).
Local Abbreviation root_removed' := (root_removed self).
Local Abbreviation rec_removed' := (rec_removed self).

Lemma visit_specific rel_dir dirnames filenames :
  specific rel_dir = true →
  visit_items' rel_dir dirnames filenames = ([specific_item' rel_dir], []).
Proof. intros H. unfold visit_items. by rewrite H. Qed.

Lemma visit_not_specific rel_dir dirnames filenames :
  specific rel_dir = false →
  visit_items' rel_dir dirnames filenames =
    ((root_item' rel_dir <$> filter (root_removed' rel_dir) dirnames)
     ++ (rec_item' rel_dir <$> filter (rec_removed' rel_dir) dirnames)
     ++ (file_item' rel_dir <$> filenames),
     filter (λ name, ¬ pruned self rel_dir name) dirnames).
Proof.
  intros H. unfold visit_items. rewrite H. unfold split_dirnames.
  case_bool_decide as Hrel; cbv beta iota zeta.
  - subst rel_dir.
    assert (Hroot : filter (root_removed' []) dirnames
                    = filter (λ n, lower n ∈ _root_excl self) dirnames).
    { apply list_filter_iff. unfold root_removed. tauto. }
    assert (Hrec : filter (rec_removed' []) dirnames
                   = filter (λ n, lower n ∈ _rec_excl self)
                       (filter (λ n, lower n ∉ _root_excl self) dirnames)).
    { rewrite list_filter_filter. apply list_filter_iff.
      unfold rec_removed, root_removed. tauto. }
    assert (Hkeep : filter (λ n, ¬ pruned self [] n) dirnames
                    = filter (λ n, lower n ∉ _rec_excl self)
                        (filter (λ n, lower n ∉ _root_excl self) dirnames)).
    { rewrite list_filter_filter. apply list_filter_iff.
      unfold pruned. tauto. }
    rewrite Hroot, Hrec, Hkeep.
    assert (Hr : ∀ r, mkItem EXCLUDE ((src_root self ++ []) ++ [r])
                        (dst_root self ++ [r]) "root_dir" = root_item self [] r).
    { intros r. unfold root_item. by rewrite app_nil_r. }
    assert (Hc : ∀ r, mkItem EXCLUDE ((src_root self ++ []) ++ [r])
                        ((dst_root self ++ []) ++ [r]) "recursive_dir"
                      = rec_item self [] r).
    { intros r. unfold rec_item. by rewrite !app_nil_r. }
    rewrite (fmap_pointwise _ _ _ Hr).
    destruct (filter (λ n, lower n ∉ _root_excl self) dirnames); [done |].
    by rewrite (fmap_pointwise _ _ _ Hc).
  - assert (Hroot : filter (root_removed' rel_dir) dirnames = []).
    { induction dirnames as [|n l IH]; [done |].
      rewrite filter_cons_False; [done | unfold root_removed; tauto]. }
    assert (Hrec : filter (rec_removed' rel_dir) dirnames
                   = filter (λ n, lower n ∈ _rec_excl self) dirnames).
    { apply list_filter_iff. unfold rec_removed, root_removed. tauto. }
    assert (Hkeep : filter (λ n, ¬ pruned self rel_dir n) dirnames
                    = filter (λ n, lower n ∉ _rec_excl self) dirnames).
    { apply list_filter_iff. unfold pruned. tauto. }
    rewrite Hroot, Hrec, Hkeep.
    assert (Hc : ∀ r, mkItem EXCLUDE ((src_root self ++ rel_dir) ++ [r])
                        ((dst_root self ++ rel_dir) ++ [r]) "recursive_dir"
                      = rec_item self rel_dir r).
    { intros r. unfold rec_item. by rewrite <- !(assoc_L (++)). }
    destruct dirnames; [done |].
    by rewrite (fmap_pointwise _ _ _ Hc).
Qed.

Lemma file_item_src rel_dir fname :
  src (file_item' rel_dir fname) = src_root self ++ rel_dir ++ [fname].
Proof.
  unfold file_item, plan_file.
  destruct (_is_file_excluded _ _ _);
    [| destruct (_decide _ _ _ _) as [? | [? ?]]]; simpl;
    by rewrite <- (assoc_L (++)).
Qed.

Lemma file_item_dst rel_dir fname :
  dst (file_item' rel_dir fname) = dst_root self ++ rel_dir ++ [fname].
Proof.
  unfold file_item, plan_file.
  by destruct (_is_file_excluded _ _ _);
    [| destruct (_decide _ _ _ _) as [? | [? ?]]].
Qed.

(** Where an item of one iteration comes from. *)
Lemma elem_of_visit rel_dir dirnames filenames it :
  it ∈ (visit_items' rel_dir dirnames filenames).1 ↔
    (specific rel_dir = true ∧ it = specific_item' rel_dir)
    ∨ (specific rel_dir = false ∧
       ((∃ r, r ∈ dirnames ∧ root_removed' rel_dir r ∧ it = root_item' rel_dir r)
        ∨ (∃ r, r ∈ dirnames ∧ rec_removed' rel_dir r ∧ it = rec_item' rel_dir r)
        ∨ (∃ f, f ∈ filenames ∧ it = file_item' rel_dir f))).
Proof.
  destruct (specific rel_dir) eqn:Hs.
  - rewrite visit_specific by done. simpl. rewrite list_elem_of_singleton.
    split; [by left | intros [[_ ?] | [? _]]; done].
  - rewrite visit_not_specific by done. simpl.
    rewrite !elem_of_app, !list_elem_of_fmap.
    setoid_rewrite list_elem_of_filter. split.
    + intros [(r & -> & ? & ?) | [(r & -> & ? & ?) | (f & -> & ?)]];
        right; (split; [done |]); eauto 10.
    + intros [[? _] | [_ [(r & ? & ? & ->) | [(r & ? & ? & ->) | (f & ? & ->)]]]];
        [done | eauto 10 ..].
Qed.

Lemma elem_of_walk_Node rel_dir dirs files it :
  it ∈ walk_items' rel_dir (Node dirs files) ↔
    it ∈ (visit_items' rel_dir dirs.*1 files).1
    ∨ ∃ name sub, (name, sub) ∈ dirs ∧ specific rel_dir = false
                  ∧ ¬ pruned self rel_dir name
                  ∧ it ∈ walk_items' (rel_dir ++ [name]) sub.
Proof.
  simpl. rewrite elem_of_app, list_elem_of_bind. split.
  - intros [? | ([name sub] & Hit & Hd)]; [by left | right].
    simpl in Hit. destruct (specific rel_dir); [by apply elem_of_nil in Hit |].
    destruct (decide (pruned self rel_dir name)); [by apply elem_of_nil in Hit |].
    eauto 10.
  - intros [? | (name & sub & Hd & Hs & Hp & Hit)]; [by left | right].
    exists (name, sub). split; [| done]. simpl. rewrite Hs.
    by destruct (decide (pruned self rel_dir name)).
Qed.

(** The walk of a visited directory is part of the whole walk. *)
Lemma visited_lift top dirs files name sub rel_dir ds fl :
  visited IS_WINDOWS self (top ++ [name]) sub rel_dir ds fl →
  (name, sub) ∈ dirs →
  specific top = false →
  ¬ pruned self top name →
  visited IS_WINDOWS self top (Node dirs files) rel_dir ds fl.
Proof.
  intros Hv Hd Hs Hp. induction Hv as [ds fl -> | ].
  - eapply visited_child; [by apply visited_top | done ..].
  - eapply visited_child; eauto.
Qed.

Lemma visited_walk_incl top t rel_dir dirs files it :
  visited IS_WINDOWS self top t rel_dir dirs files →
  it ∈ walk_items' rel_dir (Node dirs files) →
  it ∈ walk_items' top t.
Proof.
  intros Hv. revert it. induction Hv as [dirs files -> | rel_dir dirs files name
    sub_dirs sub_files Hv IH Hs Hd Hp]; intros it Hit; [done |].
  apply IH. apply elem_of_walk_Node. right. eauto 10.
Qed.

(** Every item of the walk is recorded by the body for some visited
    directory, and conversely. *)
Lemma elem_of_walk top t it :
  it ∈ walk_items' top t ↔
    ∃ rel_dir dirs files,
      visited IS_WINDOWS self top t rel_dir dirs files
      ∧ it ∈ (visit_items' rel_dir dirs.*1 files).1.
Proof.
  split.
  - revert top. induction t as [dirs files IH | e |] using tree_ind'; intros top Hit.
    + apply elem_of_walk_Node in Hit as [Hit | (name & sub & Hd & Hs & Hp & Hit)].
      * exists top, dirs, files. split; [by apply visited_top | done].
      * rewrite Forall_forall in IH. apply (IH _ Hd) in Hit
          as (rel_dir & ds & fl & Hv & Hit).
        exists rel_dir, ds, fl. split; [| done]. by eapply visited_lift.
    + by apply elem_of_nil in Hit.
    + by apply elem_of_nil in Hit.
  - intros (rel_dir & dirs & files & Hv & Hit).
    eapply visited_walk_incl; [done |]. apply elem_of_walk_Node. by left.
Qed.

(** Path correspondence, and what lies above an item: no directory on
    the way down to it matched the path-prefix filter, and none of them
    was removed from [dirnames]. *)
Lemma walk_item_paths top t it :
  it ∈ walk_items' top t →
  ∃ q, src it = src_root self ++ top ++ q
       ∧ dst it = dst_root self ++ top ++ q
       ∧ (∀ q1 name q2, q = q1 ++ name :: q2 →
            specific (top ++ q1) = false
            ∧ (q2 ≠ [] → ¬ pruned self (top ++ q1) name)).
Proof.
  revert top. induction t as [dirs files IH | e |] using tree_ind'; intros top Hit.
  - apply elem_of_walk_Node in Hit as [Hit | (name & sub & Hd & Hs & Hp & Hit)].
    + apply elem_of_visit in Hit as [[Hs ->] | [Hs Hit]].
      * exists []. rewrite app_nil_r. repeat split; try done.
        all: by destruct q1.
      * assert (∃ r, src it = src_root self ++ top ++ [r]
                     ∧ dst it = dst_root self ++ top ++ [r]) as (r & Hsrc & Hdst).
        { destruct Hit as [(r & _ & _ & ->) | [(r & _ & _ & ->) | (f & _ & ->)]].
          - by exists r.
          - by exists r.
          - exists f. by rewrite file_item_src, file_item_dst. }
        exists [r]. repeat split; try done.
        all: destruct q1 as [|? [|? ?]]; simplify_eq/=; rewrite ?app_nil_r; done.
    + rewrite Forall_forall in IH.
      apply (IH _ Hd) in Hit as (q & Hsrc & Hdst & Hanc). simpl in *.
      exists (name :: q). rewrite <- !(assoc_L (++)) in Hsrc, Hdst.
      repeat split; try done.
      all: destruct q1 as [|x q1]; simplify_eq/=; rewrite ?app_nil_r; try done.
      all: specialize (Hanc q1 name0 q2 eq_refl);
        rewrite <- (assoc_L (++)) in Hanc; simpl in Hanc; by apply Hanc.
  - by apply elem_of_nil in Hit.
  - by apply elem_of_nil in Hit.
Qed.

Lemma visit_srcs rel_dir dirnames filenames :
  specific rel_dir = false →
  src <$> (visit_items' rel_dir dirnames filenames).1 =
    (λ r, (src_root self ++ rel_dir) ++ [r]) <$>
      (filter (root_removed' rel_dir) dirnames
       ++ filter (rec_removed' rel_dir) dirnames ++ filenames).
Proof.
  intros Hs. rewrite visit_not_specific by done. simpl.
  rewrite !fmap_app, <- !list_fmap_compose.
  f_equal; [| f_equal]; apply fmap_pointwise; intros r; simpl.
  - by rewrite (assoc_L (++)).
  - by rewrite (assoc_L (++)).
  - by rewrite file_item_src, (assoc_L (++)).
Qed.

(** With unique names in every directory, no path gets two items. *)
Lemma walk_NoDup_src top t :
  wf_tree t → NoDup (src <$> walk_items' top t).
Proof.
  revert top. induction t as [dirs files IH | e |] using tree_ind';
    intros top Hwf; [| apply NoDup_nil_2 ..].
  inversion Hwf as [? ? Hnames Hsub | |]; subst.
  change (walk_items' top (Node dirs files)) with
    ((visit_items' top dirs.*1 files).1 ++
     (dirs ≫= λ d, if specific top then [] else
                    if decide (pruned self top d.1) then []
                    else walk_items' (top ++ [d.1]) d.2)).
  rewrite fmap_app, fmap_bind.
  apply NoDup_app in Hnames as (Hdn & Hdisj & Hfl).
  destruct (specific top) eqn:Hs.
  { rewrite visit_specific by done.
    assert (Hnil : ∀ l : list (string * tree),
               l ≫= (λ _, src <$> @nil PlanItem) = []).
    { intros l. induction l as [|? ? IHl]; [done |]. by rewrite bind_cons, IHl. }
    rewrite Hnil, app_nil_r. apply NoDup_singleton. }
  apply NoDup_app. split_and!.
  - rewrite visit_srcs by done.
    apply (NoDup_fmap_2 (λ r, (src_root self ++ top) ++ [r])
             (Inj0 := snoc_inj _)).
    apply NoDup_app. split_and!.
    + by apply NoDup_filter.
    + intros x [Hrr Hx]%list_elem_of_filter
        [[[Hn _] _]%list_elem_of_filter | Hf]%elem_of_app;
        [by destruct Hn | by apply (Hdisj x)].
    + apply NoDup_app. split_and!; [by apply NoDup_filter | | done].
      intros x [_ Hx]%list_elem_of_filter Hf. by apply (Hdisj x).
  - intros p Hp Hq. rewrite visit_srcs in Hp by done.
    apply list_elem_of_fmap in Hp as (r & -> & Hr).
    apply list_elem_of_bind in Hq as ([name sub] & Hq & Hd). simpl in Hq.
    destruct (decide (pruned self top name)) as [| Hnp];
      [by apply elem_of_nil in Hq |].
    apply list_elem_of_fmap in Hq as (it & Heq & Hit).
    apply walk_item_paths in Hit as (q & Hsrc & _ & _).
    rewrite Hsrc, <- !(assoc_L (++)) in Heq.
    apply app_inv_head, app_inv_head in Heq. simpl in Heq.
    injection Heq as -> Hq0.
    assert (Hdn' : name ∈ dirs.*1).
    { apply list_elem_of_fmap. by exists (name, sub). }
    rewrite !elem_of_app, !list_elem_of_filter in Hr.
    destruct Hr as [[[? ?] _] | [[[_ ?] _] | Hf]].
    + apply Hnp. left. done.
    + apply Hnp. right. done.
    + by apply (Hdisj name).
  - apply NoDup_bind.
    + intros [n1 s1] [n2 s2] p H1 H2 Hp1 Hp2. simpl in *.
      destruct (decide (pruned self top n1)); [by apply elem_of_nil in Hp1 |].
      destruct (decide (pruned self top n2)); [by apply elem_of_nil in Hp2 |].
      apply list_elem_of_fmap in Hp1 as (it1 & -> & Hit1).
      apply list_elem_of_fmap in Hp2 as (it2 & Heq & Hit2).
      apply walk_item_paths in Hit1 as (q1 & Hsrc1 & _ & _).
      apply walk_item_paths in Hit2 as (q2 & Hsrc2 & _ & _).
      rewrite Hsrc1, Hsrc2, <- !(assoc_L (++)) in Heq.
      apply app_inv_head, app_inv_head in Heq. simpl in Heq.
      injection Heq as -> _.
      f_equal. by eapply NoDup_fst_agree.
    + intros [name sub] Hd. simpl.
      destruct (decide (pruned self top name)); [apply NoDup_nil_2 |].
      rewrite Forall_forall in IH, Hsub.
      apply (IH _ Hd). apply (Hsub _ Hd).
    + by apply NoDup_fmap_1 in Hdn.
Qed.

(** *** The loop and its items *)

Local Abbreviation walk' := (walk fnmatch IS_WINDOWS self src_fs dst_fs).
Local Abbreviation visit' := (visit fnmatch IS_WINDOWS self src_fs dst_fs).
Local Abbreviation plan_file' := (plan_file fnmatch self src_fs dst_fs).

Lemma plan_file_item rel_dir fname it :
  plan_file' rel_dir fname = inr it → it = file_item' rel_dir fname.
Proof. intros H. unfold file_item. by rewrite H. Qed.

Lemma visit_inr rel_dir dirnames filenames r :
  visit' rel_dir dirnames filenames = inr r →
  r = visit_items' rel_dir dirnames filenames
  ∧ (specific rel_dir = false →
     ∀ f, f ∈ filenames → plan_file' rel_dir f = inr (file_item' rel_dir f)).
Proof.
  unfold visit, visit_items. destruct (specific rel_dir).
  { intros [= <-]. done. }
  destruct (for_each (plan_file' rel_dir) filenames) as [e | items3] eqn:Hf;
    [by repeat case_match |].
  pose proof (for_each_inr_fmap _ (file_item' rel_dir) _ _ Hf
                (plan_file_item rel_dir)) as ->.
  intros Hr. split.
  - repeat case_match; by simplify_eq.
  - intros _ f Hin. apply for_each_inr in Hf.
    apply (Forall2_fmap_r) in Hf. apply Forall2_same_length_lookup in Hf as [_ Hf].
    apply list_elem_of_lookup in Hin as [i Hi]. by apply (Hf i f f).
Qed.

Lemma visit_complete rel_dir dirnames filenames :
  (specific rel_dir = false →
   ∀ f, f ∈ filenames → ∃ it, plan_file' rel_dir f = inr it) →
  visit' rel_dir dirnames filenames = inr (visit_items' rel_dir dirnames filenames).
Proof.
  intros H. unfold visit, visit_items. destruct (specific rel_dir); [done |].
  rewrite (for_each_fmap _ (file_item' rel_dir)).
  - by repeat case_match; simplify_eq.
  - intros f Hf. destruct (H eq_refl f Hf) as [it Hit].
    by rewrite Hit, (plan_file_item _ _ _ Hit).
Qed.


(** A walk that no exception ends gives the items of [walk_items]. *)
Lemma walk_inr top t items :
  walk' top t = inr items → items = walk_items' top t.
Proof.
  revert top items.
  induction t as [dirs files IH | e |] using tree_ind'; intros top items;
    [| by intros [= <-] ..].
  simpl. destruct (visit' top dirs.*1 files) as [e | [its dn]] eqn:Hv; [done |].
  apply visit_inr in Hv as [Hv _]. rewrite <- Hv. simpl.
  destruct (for_each _ dirs) as [e | below] eqn:Hb; [done |].
  intros [= <-]. f_equal. clear Hv.
  revert below Hb. induction dirs as [|[name sub] dirs IHd]; intros below Hb.
  - by injection Hb as <-.
  - apply Forall_cons in IH as [IH1 IH2]. simpl in Hb.
    destruct (specific top) eqn:Hs.
    + destruct (for_each _ dirs) as [e | ys] eqn:Hys; [done |].
      injection Hb as <-. rewrite bind_cons. simpl. by rewrite (IHd IH2 ys).
    + destruct (decide (pruned self top name)).
      * destruct (for_each _ dirs) as [e | ys] eqn:Hys; [done |].
        injection Hb as <-. rewrite bind_cons. simpl.
        rewrite decide_True by done. by rewrite (IHd IH2 ys).
      * destruct (walk' (top ++ [name]) sub) as [e | y] eqn:Hy; [done |].
        destruct (for_each _ dirs) as [e | ys] eqn:Hys; [done |].
        injection Hb as <-. rewrite bind_cons. simpl.
        rewrite decide_False by done.
        by rewrite (IH1 _ _ Hy), (IHd IH2 ys).
Qed.

(** A walk that no exception ends has walked every visited directory
    to its end. *)
Lemma walk_inr_visited top t items rel_dir dirs files :
  walk' top t = inr items →
  visited IS_WINDOWS self top t rel_dir dirs files →
  ∃ items', walk' rel_dir (Node dirs files) = inr items'.
Proof.
  intros Hw Hv.
  induction Hv as [dirs files -> | rel_dir dirs files name sub_dirs sub_files
    Hv [items0 Hw0] Hs Hd Hp]; [eauto |].
  simpl in Hw0.
  destruct (visit' rel_dir dirs.*1 files) as [e | [its dn]]; [done |].
  destruct (for_each _ dirs) as [e | below] eqn:Hb; [done |].
  apply for_each_inr in Hb.
  apply list_elem_of_lookup in Hd as [i Hi].
  destruct (Forall2_lookup_l _ _ _ _ _ Hb Hi) as (y & _ & Hy).
  simpl in Hy. rewrite Hs in Hy.
  rewrite decide_False in Hy by done. eauto.
Qed.

(** In a walk that no exception ends, the body gave an item for every
    file of every visited directory outside the specific paths. *)
Lemma walk_inr_files top t items rel_dir dirs files f :
  walk' top t = inr items →
  visited IS_WINDOWS self top t rel_dir dirs files →
  specific rel_dir = false → f ∈ files →
  plan_file' rel_dir f = inr (file_item' rel_dir f).
Proof.
  intros Hw Hv Hspec Hf.
  destruct (walk_inr_visited _ _ _ _ _ _ Hw Hv) as [items' Hw'].
  simpl in Hw'.
  destruct (visit' rel_dir dirs.*1 files) as [e | [its dn]] eqn:Hvis; [done |].
  apply visit_inr in Hvis as [_ Hvis]. by apply Hvis.
Qed.

(** The walk comes to its end when the body gives an item for every
    file it meets. *)
Lemma walk_complete top t :
  (∀ rel_dir dirs files f,
      visited IS_WINDOWS self top t rel_dir dirs files →
      specific rel_dir = false → f ∈ files →
      ∃ it, plan_file' rel_dir f = inr it) →
  walk' top t = inr (walk_items' top t).
Proof.
  revert top. induction t as [dirs files IH | e |] using tree_ind';
    intros top H; [| done ..].
  simpl. rewrite visit_complete
    by (intros Hs f Hf; by apply (H top dirs files f (visited_top _ _ _ _ _ _ eq_refl))).
  destruct (visit_items' top dirs.*1 files) as [its dn] eqn:Hvis. simpl.
  assert (Hsub : ∀ name sub, (name, sub) ∈ dirs → specific top = false →
                   ¬ pruned self top name →
                   walk' (top ++ [name]) sub = inr (walk_items' (top ++ [name]) sub)).
  { intros name sub Hd Hs Hp. rewrite Forall_forall in IH.
    apply (IH _ Hd). intros rel_dir ds fl f Hv.
    apply (H rel_dir ds fl f). by eapply visited_lift. }
  clear IH H Hvis.
  rewrite (for_each_fmap _
             (λ d, if specific top then [] else
                   if decide (pruned self top d.1) then []
                   else walk_items' (top ++ [d.1]) d.2)).
  - do 2 f_equal. clear Hsub. induction dirs as [|d dirs IHd]; [done |].
    rewrite fmap_cons, bind_cons. cbn [concat]. by rewrite IHd.
  - intros [name sub] Hd. simpl. destruct (specific top) eqn:Hs; [done |].
    destruct (decide (pruned self top name)); [done |]. by apply Hsub.
Qed.

End walk_facts.

(** ** Paths *)

Lemma relative_to_app (root rel : path) : relative_to (root ++ rel) root = Some rel.
Proof.
  induction root as [|r root IH]; [done |]. simpl. by rewrite decide_True.
Qed.

Lemma parent_snoc (p : path) name : parent (p ++ [name]) = p.
Proof. apply removelast_last. Qed.

Lemma with_suffix_added_snoc (p : path) name ext :
  with_suffix_added (p ++ [name]) ext = p ++ [name +:+ ext].
Proof.
  unfold with_suffix_added. rewrite reverse_app. simpl. by rewrite reverse_involutive.
Qed.

Lemma with_suffix_added_ne (p : path) ext :
  p ≠ [] → ext ≠ "" → with_suffix_added p ext ≠ p.
Proof.
  intros Hp Hext. destruct p as [|x p _] using rev_ind; [done |].
  rewrite with_suffix_added_snoc. intros [= H]%app_inv_head.
  apply Hext. apply (inj (String.app x)). by rewrite append_nil_r.
Qed.

(** ** The applier *)

Section applier_facts.
Context (pm : bool) (src_fs : fs).

Local Abbreviation apply_item' := (SyncApplier.apply_item pm src_fs).
Local Abbreviation try_block' := (SyncApplier.try_block pm src_fs).

Local Tactic Notation "unfold_io" :=
  unfold mbind, io_mbind, io_bind, mret, io_mret, io_ret, get_disk, call.
Local Tactic Notation "unfold_io" "in" hyp(H) :=
  unfold mbind, io_mbind, io_bind, mret, io_mret, io_ret, get_disk, call in H.

Lemma run_cleanup ob temp w :
  SyncApplier.cleanup ob temp w =
    match os_path_exists (disk w) temp, remove_raises ob with
    | false, _ => (inr (), step w (Exists temp) None (disk w))
    | true, Some e =>
        (inl e, step (step w (Exists temp) None (disk w)) (Remove temp) (Some e) (disk w))
    | true, None =>
        (inr (), step (step w (Exists temp) None (disk w)) (Remove temp) None
                      (delete temp (disk w)))
    end.
Proof.
  unfold SyncApplier.cleanup, SyncApplier.exists_file, SyncApplier.remove.
  unfold_io. simpl.
  destruct (os_path_exists (disk w) temp); [destruct (remove_raises ob) |];
    reflexivity.
Qed.

Lemma os_path_exists_delete (m : fs) p : os_path_exists (delete p m) p = false.
Proof. unfold os_path_exists, os_stat. by rewrite lookup_delete_eq. Qed.

Lemma run_except ob temp e w :
  SyncApplier.except_block ob temp e w =
    match SyncApplier.cleanup ob temp w with
    | (inl e', w') => (inl e', w')
    | (inr _, w') => (inl e, w')
    end.
Proof.
  unfold SyncApplier.except_block, io_finally_raise. by destruct (exn_kind e).
Qed.

Lemma run_copyfile ob from to w :
  SyncApplier.copyfile src_fs ob from to w =
    match copy_raises ob, src_fs !! from with
    | Some (e, Some written), _ =>
        (inl e, step w (CopyFile from to) (Some e)
                  (<[to := File {| f_bytes := written; f_atime := now ob;
                                   f_mtime := now ob |}]> (disk w)))
    | Some (e, None), _ => (inl e, step w (CopyFile from to) (Some e) (disk w))
    | None, Some (File d) =>
        (inr (), step w (CopyFile from to) None
                   (<[to := File (copied false ob d)]> (disk w)))
    | None, Some (Unreadable e) =>
        (inl e, step w (CopyFile from to) (Some e) (disk w))
    | None, None =>
        (inl no_such_file, step w (CopyFile from to) (Some no_such_file) (disk w))
    end.
Proof.
  unfold SyncApplier.copyfile. unfold_io.
  destruct (copy_raises ob) as [[e [written|]]|]; [done .. |].
  by destruct (src_fs !! from) as [[d|e]|].
Qed.

Lemma run_stat ob p w :
  SyncApplier.stat src_fs ob p w =
    match stat_raises ob with
    | Some e => (inl e, step w (Stat p) (Some e) (disk w))
    | None => (os_stat src_fs p, step w (Stat p) (raised_by (os_stat src_fs p)) (disk w))
    end.
Proof. unfold SyncApplier.stat. unfold_io. by destruct (stat_raises ob). Qed.

Lemma run_utime ob p atime mtime w d :
  disk w !! p = Some (File d) →
  SyncApplier.utime ob p atime mtime w =
    match utime_raises ob with
    | Some e => (inl e, step w (Utime p atime mtime) (Some e) (disk w))
    | None =>
        (inr (), step w (Utime p atime mtime) None
                   (<[p := File {| f_bytes := f_bytes d; f_atime := atime;
                                   f_mtime := mtime |}]> (disk w)))
    end.
Proof.
  intros H. unfold SyncApplier.utime. unfold_io. rewrite H.
  by destruct (utime_raises ob).
Qed.

Lemma run_replace ob from to w x :
  disk w !! from = Some x →
  SyncApplier.replace_file ob from to w =
    match replace_raises ob with
    | Some e => (inl e, step w (Replace from to) (Some e) (disk w))
    | None => (inr (), step w (Replace from to) None (<[to := x]> (delete from (disk w))))
    end.
Proof.
  intros H. unfold SyncApplier.replace_file. unfold_io. rewrite H.
  by destruct (replace_raises ob).
Qed.

Lemma run_mkdir ob p w :
  SyncApplier.mkdir ob p w =
    match mkdir_raises ob with
    | Some e => (inl e, step w (Mkdir p) (Some e) (disk w))
    | None => (inr (), step w (Mkdir p) None (disk w))
    end.
Proof. unfold SyncApplier.mkdir. unfold_io. by destruct (mkdir_raises ob). Qed.

Lemma disk_step w c r m : disk (step w c r m) = m.
Proof. reflexivity. Qed.

Lemma trace_step w c r m :
  trace (step w c r m) = trace w ++ [mkEvent c r m].
Proof. reflexivity. Qed.

Local Ltac finish_trace :=
  rewrite ?trace_step, <- ?(assoc_L (++)); reflexivity.

Local Ltac each_event tac :=
  repeat (apply List.Forall_cons; [tac |]); apply List.Forall_nil.

Local Ltac lookups :=
  rewrite ?disk_step;
  repeat first
    [ rewrite lookup_insert_eq
    | rewrite lookup_insert_ne by done
    | rewrite lookup_delete_ne by done ].

Lemma try_block_spec ob it temp w1 r w2 :
  temp ≠ dst it →
  try_block' ob it temp w1 = (r, w2) →
  ∃ new,
    trace w2 = trace w1 ++ new
    ∧ Forall (λ ev, ev_disk ev !! dst it = disk w1 !! dst it
                    ∨ ∃ d, src_fs !! src it = Some (File d)
                           ∧ ev_disk ev !! dst it = Some (File (copied pm ob d))) new
    ∧ (∀ p, p ≠ temp → p ≠ dst it → disk w2 !! p = disk w1 !! p)
    ∧ match r with
      | inr _ =>
          ∃ d, src_fs !! src it = Some (File d)
               ∧ ev_call <$> new = try_calls pm it temp (f_atime d) (f_mtime d)
               ∧ Forall (λ ev, ev_raised ev = None) new
               ∧ disk w2 = <[dst it := File (copied pm ob d)]> (delete temp (disk w1))
      | inl e0 =>
          ∃ pre ev0,
            new = pre ++ [ev0]
            ∧ ev_raised ev0 = Some e0
            ∧ Forall (λ ev, ev_raised ev = None) pre
            ∧ disk w2 !! dst it = disk w1 !! dst it
            ∧ ∃ atime mtime,
                ev_call <$> new `prefix_of` try_calls pm it temp atime mtime
      end.
Proof.
  intros Hne Hrun. unfold SyncApplier.try_block in Hrun.
  unfold mbind at 1 2, io_mbind, io_bind in Hrun.
  rewrite run_copyfile in Hrun.
  destruct (copy_raises ob) as [[e [written|]]|].
  1,2: simplify_eq; eexists; split; [finish_trace |];
    split; [each_event ltac:(left; simpl; by lookups) |];
    split; [intros; by lookups |];
    eexists [], _; split_and!; [done | done | done | by lookups |];
    exists (DZero false), (DZero false); destruct pm; by eexists.
  destruct (src_fs !! src it) as [[d|e]|] eqn:Hsrc.
  2,3: simplify_eq; eexists; split; [finish_trace |];
    split; [each_event ltac:(left; simpl; by lookups) |];
    split; [intros; by lookups |];
    eexists [], _; split_and!; [done | done | done | by lookups |];
    exists (DZero false), (DZero false); destruct pm; by eexists.
  destruct pm.
  - unfold mbind, io_mbind, io_bind in Hrun. rewrite run_stat in Hrun.
    destruct (stat_raises ob) as [e|].
    { simplify_eq. eexists. split; [finish_trace |].
      split; [each_event ltac:(left; simpl; by lookups) |].
      split; [intros; by lookups |].
      eexists [_], _. split_and!; [done | done | by each_event ltac:(done) | by lookups |].
      exists (DZero false), (DZero false). by eexists. }
    unfold os_stat in Hrun. rewrite Hsrc in Hrun.
    erewrite run_utime in Hrun by (by lookups).
    destruct (utime_raises ob) as [e|].
    { simplify_eq. eexists. split; [finish_trace |].
      split; [each_event ltac:(left; simpl; by lookups) |].
      split; [intros; by lookups |].
      eexists [_; _], _. split_and!; [done | done | by each_event ltac:(done) | by lookups |].
      exists (f_atime d), (f_mtime d). by eexists. }
    erewrite run_replace in Hrun by (by lookups).
    destruct (replace_raises ob) as [e|].
    { simplify_eq. eexists. split; [finish_trace |].
      split; [each_event ltac:(left; simpl; by lookups) |].
      split; [intros; by lookups |].
      eexists [_; _; _], _. split_and!; [done | done | by each_event ltac:(done) | by lookups |].
      exists (f_atime d), (f_mtime d). by eexists. }
    simplify_eq. eexists. split; [finish_trace |].
    split.
    { repeat (apply List.Forall_cons; [left; simpl; by lookups |]).
      apply List.Forall_cons; [| apply List.Forall_nil].
      right. exists d. split; [done |]. simpl. by lookups. }
    split.
    { intros. by lookups. }
    exists d. split_and!; [done | done | by each_event ltac:(done) |].
    by rewrite !disk_step, !delete_insert_eq.
  - unfold mbind, io_mbind, io_bind, mret, io_mret, io_ret in Hrun.
    erewrite run_replace in Hrun by (by lookups).
    destruct (replace_raises ob) as [e|].
    { simplify_eq. eexists. split; [finish_trace |].
      split; [each_event ltac:(left; simpl; by lookups) |].
      split; [intros; by lookups |].
      eexists [_], _. split_and!; [done | done | by each_event ltac:(done) | by lookups |].
      exists (DZero false), (DZero false). by eexists. }
    simplify_eq. eexists. split; [finish_trace |].
    split.
    { repeat (apply List.Forall_cons; [left; simpl; by lookups |]).
      apply List.Forall_cons; [| apply List.Forall_nil].
      right. exists d. split; [done |]. simpl. by lookups. }
    split.
    { intros. by lookups. }
    exists d. split_and!; [done | done | by each_event ltac:(done) |].
    by rewrite !disk_step, !delete_insert_eq.
Qed.

(** What one item does to the world. *)
Lemma apply_item_spec ob it w r w' :
  dst it ≠ [] →
  apply_item' ob it w = (r, w') →
  let temp := with_suffix_added (dst it) ".part" in
  ∃ new,
    trace w' = trace w ++ new
    ∧ Forall (λ ev, ev_disk ev !! dst it = disk w !! dst it
                    ∨ ∃ d, src_fs !! src it = Some (File d)
                           ∧ ev_disk ev !! dst it = Some (File (copied pm ob d))) new
    ∧ (∀ p, p ≠ temp → p ≠ dst it → disk w' !! p = disk w !! p)
    ∧ match r with
      | inr _ =>
          ∃ d, src_fs !! src it = Some (File d)
               ∧ ev_call <$> new =
                   Mkdir (parent (dst it))
                   :: try_calls pm it temp (f_atime d) (f_mtime d)
               ∧ Forall (λ ev, ev_raised ev = None) new
               ∧ disk w' = <[dst it := File (copied pm ob d)]> (delete temp (disk w))
      | inl e =>
          disk w' !! dst it = disk w !! dst it
          ∧ ((new = [mkEvent (Mkdir (parent (dst it))) (Some e) (disk w)]
              ∧ disk w' = disk w)
             ∨ ∃ pre ev0 e0 post,
                 new = pre ++ [ev0] ++ post
                 ∧ ev_raised ev0 = Some e0
                 ∧ Forall (λ ev, ev_raised ev = None) pre
                 ∧ (∃ atime mtime,
                      ev_call <$> (pre ++ [ev0]) `prefix_of`
                        Mkdir (parent (dst it)) :: try_calls pm it temp atime mtime)
                 ∧ ((Forall (λ ev, ev_raised ev = None) post
                     ∧ (ev_call <$> post = [Exists temp]
                        ∨ ev_call <$> post = [Exists temp; Remove temp])
                     ∧ e = e0 ∧ os_path_exists (disk w') temp = false)
                    ∨ (ev_call <$> post = [Exists temp; Remove temp]
                       ∧ ev_raised <$> post = [None; Some e]
                       ∧ remove_raises ob = Some e
                       ∧ os_path_exists (disk w') temp = true)))
      end.
Proof.
  intros Hd Hrun temp.
  assert (Hne : temp ≠ dst it).
  { by apply with_suffix_added_ne. }
  unfold SyncApplier.apply_item in Hrun. fold temp in Hrun.
  unfold mbind, io_mbind, io_bind in Hrun. rewrite run_mkdir in Hrun.
  destruct (mkdir_raises ob) as [e|].
  { simplify_eq. eexists. split; [finish_trace |].
    split; [each_event ltac:(by left) |]. split; [done |].
    split; [done |]. by left. }
  unfold io_try in Hrun.
  destruct (try_block' ob it temp _) as [[e0|[]] w2] eqn:Htry.
  - apply try_block_spec in Htry
      as (new1 & Htr & Hpart & Hframe & pre & ev0 & -> & Hev0 & Hpre & Hdst & a & m & Hpref);
      [| done].
    rewrite disk_step in Hpart, Hframe, Hdst.
    rewrite run_except, run_cleanup in Hrun.
    destruct (os_path_exists (disk w2) temp) eqn:Htemp;
      [destruct (remove_raises ob) as [e'|] eqn:Hrm |]; simplify_eq.
    + eexists. split; [rewrite !trace_step, Htr, trace_step;
                       rewrite <- ?(assoc_L (++)); reflexivity |].
      split.
      { apply List.Forall_cons; [by left |].
        rewrite (assoc_L (++) pre). apply Forall_app. split; [done |].
        each_event ltac:(left; simpl; by rewrite ?disk_step). }
      split; [done |]. split; [done |]. right.
      eexists (_ :: pre), ev0, e0, [_; _]. split_and!; [done | done | | |].
      * by apply List.Forall_cons.
      * exists a, m. simpl. by apply prefix_cons.
      * right. split_and!; [done | done | done |]. by rewrite disk_step.
    + eexists. split; [rewrite !trace_step, Htr, trace_step;
                       rewrite <- ?(assoc_L (++)); reflexivity |].
      split.
      { apply List.Forall_cons; [by left |].
        rewrite (assoc_L (++) pre). apply Forall_app. split; [done |].
        each_event ltac:(left; simpl; rewrite ?disk_step; by rewrite ?lookup_delete_ne). }
      split; [intros; rewrite disk_step, lookup_delete_ne by done; by apply Hframe |].
      split; [by rewrite disk_step, lookup_delete_ne |]. right.
      eexists (_ :: pre), ev0, e0, [_; _]. split_and!; [done | done | | |].
      * by apply List.Forall_cons.
      * exists a, m. simpl. by apply prefix_cons.
      * left. split_and!; [by each_event ltac:(done) | by right | done |].
        rewrite disk_step. apply os_path_exists_delete.
    + eexists. split; [rewrite !trace_step, Htr, trace_step;
                       rewrite <- ?(assoc_L (++)); reflexivity |].
      split.
      { apply List.Forall_cons; [by left |].
        rewrite (assoc_L (++) pre). apply Forall_app. split; [done |].
        each_event ltac:(left; simpl; by rewrite ?disk_step). }
      split; [done |]. split; [done |]. right.
      eexists (_ :: pre), ev0, e0, [_]. split_and!; [done | done | | |].
      * by apply List.Forall_cons.
      * exists a, m. simpl. by apply prefix_cons.
      * left. split_and!; [by each_event ltac:(done) | by left | done | done].
  - apply try_block_spec in Htry
      as (new1 & Htr & Hpart & Hframe & d & Hsrc & Hcalls & Hnone & Hdisk); [| done].
    rewrite disk_step in Hpart, Hframe, Hdisk. simplify_eq.
    eexists. split; [rewrite Htr, trace_step;
                     rewrite <- ?(assoc_L (++)); reflexivity |].
    split; [apply List.Forall_cons; [by left | done] |].
    split; [done |].
    exists d. split_and!; [done | | | done].
    + by rewrite <- Hcalls.
    + by apply List.Forall_cons.
Qed.

Local Abbreviation apply' := (SyncApplier.apply pm src_fs).

Lemma apply_skip it rest obs w :
  act it = SKIP ∨ act it = EXCLUDE →
  apply' (it :: rest) obs w = apply' rest (tail obs) w.
Proof. intros [H | H]; simpl; by rewrite H. Qed.

Lemma apply_cons it rest obs w :
  act it = ADD ∨ act it = UPDATE →
  apply' (it :: rest) obs w =
    match apply_item' (default calm (head obs)) it w with
    | (inl e, w') => (inl e, w')
    | (inr _, w') => apply' rest (tail obs) w'
    end.
Proof. intros [H | H]; simpl; by rewrite H. Qed.

Local Ltac inv_elem H :=
  repeat (apply elem_of_cons in H as [-> | H]); try (by apply elem_of_nil in H).
Local Ltac elem_here :=
  repeat first [apply list_elem_of_here | apply list_elem_of_further].

Lemma written_item_calls it temp atime mtime c p :
  c ∈ Mkdir (parent (dst it)) :: try_calls pm it temp atime mtime
      ++ [Exists temp; Remove temp] →
  p ∈ written c →
  (c = Mkdir (parent (dst it)) ∧ p ∈ ancestors (parent (dst it)))
  ∨ p ∈ [temp; dst it].
Proof.
  unfold try_calls. intros Hc Hp.
  destruct pm; simpl in Hc; inv_elem Hc; try (by left);
    simpl in Hp; inv_elem Hp; right; elem_here.
Qed.

(** The calls made for one item touch its temporary path and its
    destination, and [mkdir] the parent directory with the directories
    above it; nothing else. *)
Lemma apply_item_written ob it w r w' :
  dst it ≠ [] →
  apply_item' ob it w = (r, w') →
  ∃ new, trace w' = trace w ++ new
         ∧ Forall (λ ev, ∀ p, p ∈ written (ev_call ev) →
                      (ev_call ev = Mkdir (parent (dst it))
                       ∧ p ∈ ancestors (parent (dst it)))
                      ∨ p ∈ [with_suffix_added (dst it) ".part"; dst it]) new
         ∧ match r with
           | inl e => ∃ ev, ev ∈ new ∧ ev_raised ev = Some e
           | inr _ => Forall (λ ev, ev_raised ev = None) new
           end.
Proof.
  intros Hd Hrun. apply apply_item_spec in Hrun as (new & Htr & _ & _ & Hr); [| done].
  exists new. split; [done |].
  set (temp := with_suffix_added (dst it) ".part") in *.
  assert (Hcalls : ∀ l atime mtime,
    ev_call <$> l `prefix_of` Mkdir (parent (dst it)) :: try_calls pm it temp atime mtime →
    Forall (λ ev, ∀ p, p ∈ written (ev_call ev) →
                       (ev_call ev = Mkdir (parent (dst it))
                        ∧ p ∈ ancestors (parent (dst it)))
                       ∨ p ∈ [temp; dst it]) l).
  { intros l a m [k Hk]. apply Forall_forall. intros ev Hev p Hp.
    eapply (written_item_calls it temp a m); [| done].
    rewrite app_comm_cons, Hk, <- (assoc_L (++)). apply elem_of_app. left.
    by apply list_elem_of_fmap_2. }
  assert (Hpost : ∀ l,
    ev_call <$> l = [Exists temp] ∨ ev_call <$> l = [Exists temp; Remove temp] →
    Forall (λ ev, ∀ p, p ∈ written (ev_call ev) →
                       (ev_call ev = Mkdir (parent (dst it))
                        ∧ p ∈ ancestors (parent (dst it)))
                       ∨ p ∈ [temp; dst it]) l).
  { intros l Hl. apply Forall_forall. intros ev Hev p Hp.
    apply (list_elem_of_fmap_2 ev_call) in Hev.
    destruct Hl as [Hl | Hl]; rewrite Hl in Hev;
      repeat (apply elem_of_cons in Hev as [Hc | Hev];
              [rewrite Hc in Hp; simpl in Hp; inv_elem Hp; right; elem_here |]);
      by apply elem_of_nil in Hev. }
  destruct r as [e | []].
  - destruct Hr as [_ [[-> _] | (pre & ev0 & e0 & post & -> & Hev0 & Hpre & (a & m & Hpref)
                                   & Hpost')]].
    + split.
      * apply List.Forall_cons; [| apply List.Forall_nil].
        simpl. intros p Hp. by left.
      * eexists. split; [apply list_elem_of_here | done].
    + split.
      * rewrite (assoc_L (++)). apply Forall_app. split; [by eapply Hcalls |].
        apply Hpost. destruct Hpost' as [(_ & H & _) | (H & _)]; [done | by right].
      * destruct Hpost' as [(_ & _ & -> & _) | (Hc & Hrs & _ & _)].
        -- exists ev0. split; [| done]. apply elem_of_app. right. apply list_elem_of_here.
        -- destruct post as [|ev1 [|ev2 [|? ?]]]; simplify_eq/=.
           exists ev2. split; [| done]. apply elem_of_app. right. elem_here.
  - destruct Hr as (d & Hsrc & Hcalls' & Hnone & _). split; [| done].
    apply (Hcalls _ (f_atime d) (f_mtime d)). by rewrite Hcalls'.
Qed.

Lemma apply_written items obs w r w' :
  Forall (λ it, (act it = ADD ∨ act it = UPDATE) → dst it ≠ []) items →
  apply' items obs w = (r, w') →
  ∃ new, trace w' = trace w ++ new
         ∧ Forall (λ ev, ∃ it, it ∈ items ∧ (act it = ADD ∨ act it = UPDATE)
                      ∧ ∀ p, p ∈ written (ev_call ev) →
                             (ev_call ev = Mkdir (parent (dst it))
                              ∧ p ∈ ancestors (parent (dst it)))
                             ∨ p ∈ [with_suffix_added (dst it) ".part"; dst it]) new
         ∧ match r with
           | inl e => ∃ ev, ev ∈ new ∧ ev_raised ev = Some e
           | inr _ => Forall (λ ev, ev_raised ev = None) new
           end.
Proof.
  revert obs w. induction items as [|it rest IH]; intros obs w Hdst Hrun.
  - simpl in Hrun. unfold mret, io_mret, io_ret in Hrun. simplify_eq.
    exists []. by rewrite app_nil_r.
  - apply Forall_cons in Hdst as [Hd Hdst].
    assert (Hweaken : ∀ new : list event,
      Forall (λ ev, ∃ it0, it0 ∈ rest ∧ (act it0 = ADD ∨ act it0 = UPDATE)
                ∧ ∀ p, p ∈ written (ev_call ev) →
                       (ev_call ev = Mkdir (parent (dst it0))
                        ∧ p ∈ ancestors (parent (dst it0)))
                       ∨ p ∈ [with_suffix_added (dst it0) ".part"; dst it0]) new →
      Forall (λ ev, ∃ it0, it0 ∈ it :: rest ∧ (act it0 = ADD ∨ act it0 = UPDATE)
                ∧ ∀ p, p ∈ written (ev_call ev) →
                       (ev_call ev = Mkdir (parent (dst it0))
                        ∧ p ∈ ancestors (parent (dst it0)))
                       ∨ p ∈ [with_suffix_added (dst it0) ".part"; dst it0]) new).
    { intros new Hnew. eapply Forall_impl; [done |]. intros ev (it0 & ? & ? & ?).
      exists it0. split; [by apply list_elem_of_further | done]. }
    destruct (decide (act it = ADD ∨ act it = UPDATE)) as [Ha | Ha].
    + rewrite apply_cons in Hrun by done.
      pose proof (Hd Ha) as Hd'.
      destruct (apply_item' _ it w) as [[e | []] w1] eqn:Hitem;
        apply (apply_item_written _ _ _ _ _ Hd') in Hitem
          as (new1 & Htr1 & Hw1 & Hr1).
      * simplify_eq. exists new1. split_and!; [done | | done].
        eapply Forall_impl; [done |]. intros ev Hev. exists it.
        split; [apply list_elem_of_here | done].
      * apply IH in Hrun as (new2 & Htr2 & Hw2 & Hr2); [| done].
        exists (new1 ++ new2). split_and!.
        -- by rewrite Htr2, Htr1, (assoc_L (++)).
        -- apply Forall_app. split; [| by apply Hweaken].
           eapply Forall_impl; [exact Hw1 |]. intros ev Hev. exists it.
           split; [apply list_elem_of_here | by split].
        -- destruct r as [e | []].
           ++ destruct Hr2 as (ev & Hev & ?). exists ev.
              split; [apply elem_of_app; by right | done].
           ++ by apply Forall_app.
    + rewrite apply_skip in Hrun by (destruct (act it); tauto).
      apply IH in Hrun as (new & Htr & Hw & Hr); [| done].
      exists new. split_and!; [done | by apply Hweaken | done].
Qed.
End applier_facts.

(** ** Reasons and decisions *)

(** Equal times are within the tolerance. *)
Lemma within_two_refl (m : double) : within_two m m = true.
Proof.
  destruct m as [[] | s m e]; [reflexivity | reflexivity |].
  unfold within_two, spec, SFsub. rewrite Z.sub_diag. reflexivity.
Qed.

(** [Path.exists] answers [True] exactly for a path [os.stat] can read. *)
Lemma path_exists_stat (m : fs) (p : path) :
  path_exists m p =
    match os_stat m p with
    | inr _ => inr true
    | inl e => if _ignore_error e then inr false else inl e
    end.
Proof. reflexivity. Qed.

Lemma decide_reason src_fs dst_fs src dst a r :
  _decide src_fs dst_fs src dst = inr (a, r) →
  r ≠ "root_dir" ∧ r ≠ "recursive_dir" ∧ r ≠ "specific_path".
Proof.
  unfold _decide, path_exists.
  destruct (os_stat src_fs src) as [e | s]; [by intros [= <- <-] |].
  destruct (os_stat dst_fs dst) as [e | d].
  { destruct (_ignore_error e); [by intros [= <- <-] | done]. }
  destruct (bool_decide _), (within_two _ _); by intros [= <- <-].
Qed.

(** The decision table of [_decide], by what [os.stat] finds at the two
    paths. *)
Lemma decide_table src_fs dst_fs src dst :
  (∀ e, os_stat src_fs src = inl e →
        _decide src_fs dst_fs src dst
        = inr (EXCLUDE, "unreadable: " +:+ exn_msg e))
  ∧ (∀ s e, os_stat src_fs src = inr s → os_stat dst_fs dst = inl e →
        _decide src_fs dst_fs src dst
        = if _ignore_error e then inr (ADD, "missing") else inl e)
  ∧ (∀ s d, os_stat src_fs src = inr s → os_stat dst_fs dst = inr d →
        let size_same := st_size s = st_size d in
        let mtime_same := within_two (st_mtime s) (st_mtime d) = true in
        ∃ a r, _decide src_fs dst_fs src dst = inr (a, r)
          ∧ (size_same ∧ mtime_same → a = SKIP ∧ r = "same size+mtime")
          ∧ (¬ (size_same ∧ mtime_same) →
             a = UPDATE
             ∧ ∃ bs bm : bool,
                 r = "size " +:+ mark bs +:+ ", mtime " +:+ mark bm
                 ∧ (bs = true ↔ size_same) ∧ (bm = true ↔ mtime_same))).
Proof.
  unfold _decide, path_exists. split_and!.
  - by intros e ->.
  - intros s e -> ->. by destruct (_ignore_error e).
  - intros s d -> ->. cbv zeta.
    case_bool_decide as Hsize; destruct (within_two _ _) eqn:Hm; simpl;
      eexists _, _; (split; [reflexivity |]).
    + split; [done |]. by intros [].
    + split; [by intros [_ ?] |]. intros _. split; [done |].
      exists true, false. by split_and!.
    + split; [by intros [? _] |]. intros _. split; [done |].
      exists false, true. by split_and!.
    + split; [by intros [? _] |]. intros _. split; [done |].
      exists false, false. by split_and!.
Qed.

(** While the destination does not change under it, [_decide] never gives
    the reason of its second [except] clause: [dst.exists()] has already
    called [os.stat] on the same path, outside the [try]. *)
Lemma decide_never_dst_unreadable src_fs dst_fs src dst a r :
  _decide src_fs dst_fs src dst = inr (a, r) →
  startswith r "dst unreadable" = false.
Proof.
  unfold _decide, path_exists.
  destruct (os_stat src_fs src) as [e | s]; [by intros [= <- <-] |].
  destruct (os_stat dst_fs dst) as [e | d].
  { destruct (_ignore_error e); [by intros [= <- <-] | done]. }
  destruct (bool_decide _), (within_two _ _); by intros [= <- <-].
Qed.

(** The probes are bookkeeping: dropping them gives [_decide] and the loop
    body back. *)
Lemma decide_probes_erase src_fs dst_fs src dst :
  (_decide_probes src_fs dst_fs src dst).2 = _decide src_fs dst_fs src dst.
Proof.
  unfold _decide_probes, _decide.
  destruct (os_stat src_fs src); [done |].
  destruct (path_exists dst_fs dst) as [? | []]; [done | | done].
  by destruct (os_stat dst_fs dst).
Qed.

Lemma plan_file_probes_erase fnmatch self src_fs dst_fs rel_dir fname :
  (plan_file_probes fnmatch self src_fs dst_fs rel_dir fname).2
  = plan_file fnmatch self src_fs dst_fs rel_dir fname.
Proof.
  unfold plan_file_probes, plan_file.
  destruct (_is_file_excluded _ _ _); [done |].
  rewrite <- decide_probes_erase.
  by destruct (_decide_probes _ _ _ _) as [? [? | [? ?]]].
Qed.

(** The non-empty prefixes of a path. *)
Lemma elem_of_ancestors (p q : path) :
  p ∈ ancestors q ↔ p ≠ [] ∧ p `prefix_of` q.
Proof.
  unfold ancestors. rewrite list_elem_of_fmap. split.
  - intros (n & -> & Hn). apply elem_of_seq in Hn. split.
    + destruct q; [simpl in Hn; lia |]. destruct n; [lia | done].
    + exists (drop n q). by rewrite take_drop.
  - intros [Hne [k ->]]. exists (length p). split.
    + by rewrite take_app_length.
    + apply elem_of_seq. rewrite length_app. destruct p; [done |]. simpl. lia.
Qed.

Lemma filter_all {A} (P : A → Prop) `{∀ x, Decision (P x)} (l : list A) :
  (∀ x, x ∈ l → P x) → filter P l = l.
Proof.
  induction l as [|x l IH]; intros Hl; [done |].
  rewrite filter_cons_True by (apply Hl; apply list_elem_of_here).
  f_equal. apply IH. intros y Hy. apply Hl. by apply list_elem_of_further.
Qed.

Lemma filter_none {A} (P : A → Prop) `{∀ x, Decision (P x)} (l : list A) :
  (∀ x, x ∈ l → ¬ P x) → filter P l = [].
Proof.
  induction l as [|x l IH]; intros Hl; [done |].
  rewrite filter_cons_False by (apply Hl; apply list_elem_of_here).
  apply IH. intros y Hy. apply Hl. by apply list_elem_of_further.
Qed.

Lemma from_yaml_matches (name : string) (l : list string) :
  lower name ∈ (list_to_set (lower <$> l) : gset string) ↔ matches_ci name l.
Proof.
  rewrite elem_of_list_to_set, list_elem_of_fmap. unfold matches_ci.
  split; intros (c & ? & ?); exists c; done.
Qed.

Section planner_claims.
Context (fnmatch : string → string → bool) (IS_WINDOWS : bool).

Local Abbreviation walk' := (walk fnmatch IS_WINDOWS).
Local Abbreviation walk_items' := (walk_items fnmatch IS_WINDOWS).
Local Abbreviation plan' := (plan fnmatch IS_WINDOWS).
Local Abbreviation plan_file' := (plan_file fnmatch).
Local Abbreviation file_item' := (file_item fnmatch).

(** A plan that is returned is the walk of a source root that exists. *)
Lemma plan_inr self source src_fs dst_fs items :
  plan' self source src_fs dst_fs = inr items →
  ∃ root, source = inr root
          ∧ walk' self src_fs dst_fs [] root = inr items
          ∧ items = walk_items' self src_fs dst_fs [] root.
Proof.
  destruct source as [e | root]; simpl.
  - by destruct (_ignore_error e).
  - intros H. exists root. split_and!; [done | done |]. by apply walk_inr.
Qed.

Lemma visited_prefix self top t rel_dir dirs files :
  visited IS_WINDOWS self top t rel_dir dirs files → top `prefix_of` rel_dir.
Proof.
  induction 1 as [| ? ? ? ? ? ? ? IH]; [done |]. by apply prefix_app_r.
Qed.

Lemma plan_file_reason self src_fs dst_fs rel_dir fname :
  reason (file_item' self src_fs dst_fs rel_dir fname) ≠ "root_dir"
  ∧ reason (file_item' self src_fs dst_fs rel_dir fname) ≠ "recursive_dir"
  ∧ reason (file_item' self src_fs dst_fs rel_dir fname) ≠ "specific_path".
Proof.
  unfold file_item, plan_file. destruct (_is_file_excluded _ _ _); [by split_and! |].
  pose proof (decide_reason src_fs dst_fs
    ((src_root self ++ rel_dir) ++ [fname])
    (dst_root self ++ rel_dir ++ [fname])) as H.
  destruct (_decide _ _ _ _) as [e | [a r]]; [by split_and! |].
  by apply (H a r).
Qed.

(** A file of a visited directory gets the item the loop body builds. *)
Lemma visited_file_planned self src_fs dst_fs root rel_dir dirs files fname :
  visited IS_WINDOWS self [] root rel_dir dirs files →
  _is_under_specific IS_WINDOWS self rel_dir = false →
  fname ∈ files →
  file_item' self src_fs dst_fs rel_dir fname ∈ walk_items' self src_fs dst_fs [] root.
Proof.
  intros Hv Hs Hf. apply elem_of_walk. exists rel_dir, dirs, files.
  split; [done |]. apply elem_of_visit. right. split; [done |]. eauto.
Qed.

(** The same for a walk that came to its end. *)
Lemma visited_file_in_plan self src_fs dst_fs root items rel_dir dirs files fname :
  walk' self src_fs dst_fs [] root = inr items →
  visited IS_WINDOWS self [] root rel_dir dirs files →
  _is_under_specific IS_WINDOWS self rel_dir = false →
  fname ∈ files →
  ∃ it, plan_file' self src_fs dst_fs rel_dir fname = inr it ∧ it ∈ items.
Proof.
  intros Hw Hv Hs Hf. exists (file_item' self src_fs dst_fs rel_dir fname).
  split; [by eapply walk_inr_files |].
  rewrite (walk_inr _ _ _ _ _ _ _ _ Hw). by eapply visited_file_planned.
Qed.

(** Where an item sits below the two roots. *)
Lemma walk_item_rel self src_fs dst_fs root it :
  it ∈ walk_items' self src_fs dst_fs [] root →
  ∃ rel, relative_to (src it) (src_root self) = Some rel
         ∧ src it = src_root self ++ rel
         ∧ dst it = dst_root self ++ rel
         ∧ (act it = ADD ∨ act it = UPDATE → rel ≠ []).
Proof.
  intros Hit. apply elem_of_walk in Hit as (rel_dir & dirs & files & _ & Hit).
  apply elem_of_visit in Hit
    as [[_ ->] | [_ [(r & _ & _ & ->) | [(r & _ & _ & ->) | (f & _ & ->)]]]].
  - exists rel_dir. simpl. rewrite relative_to_app.
    split_and!; [done .. |]. by intros [|].
  - exists (rel_dir ++ [r]). simpl. rewrite relative_to_app.
    split_and!; [done .. |]. by intros [|].
  - exists (rel_dir ++ [r]). simpl. rewrite relative_to_app.
    split_and!; [done .. |]. by intros [|].
  - exists (rel_dir ++ [f]). rewrite file_item_src, file_item_dst, relative_to_app.
    split_and!; [done .. |]. intros _. by destruct rel_dir.
Qed.

Lemma walk_item_dst self src_fs dst_fs root :
  Forall (λ it, act it = ADD ∨ act it = UPDATE → dst it ≠ [])
         (walk_items' self src_fs dst_fs [] root).
Proof.
  apply Forall_forall. intros it Hit Hact.
  apply walk_item_rel in Hit as (rel & _ & _ & -> & Hrel). specialize (Hrel Hact).
  destruct rel; [done |]. by destruct (dst_root self).
Qed.

(** C10. Every item the planner emits pairs a source path below the
    source root with the destination root joined with the same relative
    path, for files and for pruned directories alike, and the relative
    path of an ADD or UPDATE item is not empty.  Every path a call of
    the applier can create, change or remove when it applies the plan
    lies under the destination root, but for the directories above the
    destination root, which [mkdir(parents=True)] creates when they are
    missing. *)
Theorem C10_path_correspondence self source src_fs dst_fs items :
  plan' self source src_fs dst_fs = inr items →
  (∀ it, it ∈ items →
     ∃ rel, relative_to (src it) (src_root self) = Some rel
            ∧ src it = src_root self ++ rel
            ∧ dst it = dst_root self ++ rel
            ∧ (act it = ADD ∨ act it = UPDATE → rel ≠ []))
  ∧ (∀ pm obs w r w',
       SyncApplier.apply pm src_fs items obs w = (r, w') →
       ∃ new, trace w' = trace w ++ new
              ∧ Forall (λ ev, ∀ p, p ∈ written (ev_call ev) →
                          dst_root self `prefix_of` p
                          ∨ ((∃ q, ev_call ev = Mkdir q)
                             ∧ p ≠ [] ∧ p `prefix_of` dst_root self)) new).
Proof.
  intros (root & _ & _ & ->)%plan_inr.
  split; [intros it; apply walk_item_rel |].
  intros pm obs w r w' Hrun.
  apply apply_written in Hrun as (new & Htr & Hnew & _); [| apply walk_item_dst].
  exists new. split; [done |]. eapply Forall_impl; [done |].
  intros ev (it & Hit & Hact & Hp) p Hin.
  apply walk_item_rel in Hit as (rel & _ & _ & Hdst & Hrel). specialize (Hrel Hact).
  destruct rel as [|name rel _] using rev_ind; [done |].
  apply Hp in Hin. rewrite Hdst, (assoc_L (++)), parent_snoc,
    with_suffix_added_snoc in Hin.
  destruct Hin as [[Hc [Hne Hpre]%elem_of_ancestors] | Hin].
  - destruct (prefix_weak_total (dst_root self) p (dst_root self ++ rel))
      as [? | ?]; [by apply prefix_app_r | done | by left |].
    right. split; [by eexists | done].
  - left. repeat (apply elem_of_cons in Hin as [-> | Hin]);
      [| | by apply elem_of_nil in Hin];
      rewrite <- ?(assoc_L (++)); by apply prefix_app_r.
Qed.

(** The item of a traversed file that matches no pattern, in a plan
    that is returned. *)
Lemma file_decision self root src_fs dst_fs items rel_dir dirs files fname :
  walk' self src_fs dst_fs [] root = inr items →
  visited IS_WINDOWS self [] root rel_dir dirs files →
  _is_under_specific IS_WINDOWS self rel_dir = false →
  fname ∈ files →
  _is_file_excluded fnmatch self fname = false →
  let src_file := src_root self ++ rel_dir ++ [fname] in
  let dst_file := dst_root self ++ rel_dir ++ [fname] in
  ∃ it, it ∈ items
    ∧ src it = src_file ∧ dst it = dst_file
    ∧ (∀ e, os_stat src_fs src_file = inl e →
            act it = EXCLUDE ∧ reason it = "unreadable: " +:+ exn_msg e)
    ∧ (∀ s e, os_stat src_fs src_file = inr s → os_stat dst_fs dst_file = inl e →
              _ignore_error e = true ∧ act it = ADD ∧ reason it = "missing")
    ∧ (∀ s d, os_stat src_fs src_file = inr s → os_stat dst_fs dst_file = inr d →
              let size_same := st_size s = st_size d in
              let mtime_same := within_two (st_mtime s) (st_mtime d) = true in
              (act it = SKIP ↔ size_same ∧ mtime_same)
              ∧ (size_same ∧ mtime_same → reason it = "same size+mtime")
              ∧ (¬ (size_same ∧ mtime_same) →
                 act it = UPDATE
                 ∧ ∃ bs bm : bool,
                     reason it = "size " +:+ mark bs +:+ ", mtime " +:+ mark bm
                     ∧ (bs = true ↔ size_same) ∧ (bm = true ↔ mtime_same))).
Proof.
  intros Hw Hv Hs Hf Hpat src_file dst_file.
  destruct (visited_file_in_plan _ _ _ _ _ _ _ _ _ Hw Hv Hs Hf) as (it & Hit & Hin).
  exists it. split; [done |].
  rewrite (plan_file_item _ _ _ _ _ _ _ Hit), file_item_src, file_item_dst.
  split; [done |]. split; [done |].
  rewrite <- (plan_file_item _ _ _ _ _ _ _ Hit).
  unfold plan_file in Hit. rewrite Hpat in Hit.
  rewrite <- (assoc_L (++)) in Hit. fold src_file dst_file in Hit.
  destruct (decide_table src_fs dst_fs src_file dst_file) as (H1 & H2 & H3).
  split_and!.
  - intros e He. rewrite (H1 e He) in Hit. by injection Hit as <-.
  - intros s e Hsrc Hdst. rewrite (H2 s e Hsrc Hdst) in Hit.
    destruct (_ignore_error e); [| done]. by injection Hit as <-.
  - intros s d Hsrc Hdst. cbv zeta.
    destruct (H3 s d Hsrc Hdst) as (a & r & Hd & Hskip & Hupd).
    rewrite Hd in Hit. injection Hit as <-. cbn [act reason].
    split_and!; [| by intros [_ ?]%Hskip | done].
    split; [| by intros [? _]%Hskip].
    intros ->.
    destruct (decide (st_size s = st_size d
                      ∧ within_two (st_mtime s) (st_mtime d) = true)) as [? | Hn];
      [done |].
    by destruct (Hupd Hn).
Qed.

(** C8. A traversed file whose lower-cased name matches one of the
    lower-cased configured patterns (the name alone, whatever directory
    it is in) gets the item EXCLUDE "pattern": the plan holds it,
    building it makes no [os.stat] and no [exists] call, and it is the
    same whatever the two filesystems hold. *)
Theorem C8_pattern_excluded c root src_fs dst_fs rel_dir dirs files fname :
  let self := SyncPlanner_init c in
  visited IS_WINDOWS self [] root rel_dir dirs files →
  _is_under_specific IS_WINDOWS self rel_dir = false →
  fname ∈ files →
  (∃ pat, pat ∈ file_patterns (excludes c)
          ∧ fnmatch (lower fname) (lower pat) = true) →
  let it := mkItem EXCLUDE (src_root self ++ rel_dir ++ [fname])
                   (dst_root self ++ rel_dir ++ [fname]) "pattern" in
  (∀ items, plan' self (inr root) src_fs dst_fs = inr items → it ∈ items)
  ∧ plan_file_probes fnmatch self src_fs dst_fs rel_dir fname = ([], inr it)
  ∧ ∀ src_fs' dst_fs', plan_file' self src_fs' dst_fs' rel_dir fname = inr it.
Proof.
  intros self Hv Hs Hf (pat & Hpat & Hm) it.
  assert (Hex : _is_file_excluded fnmatch self fname = true).
  { unfold _is_file_excluded. apply existsb_exists. exists (lower pat).
    split; [| done]. apply list_elem_of_In. simpl. by apply list_elem_of_fmap_2. }
  assert (Hitem : ∀ s d, plan_file' self s d rel_dir fname = inr it).
  { intros s d. unfold plan_file. rewrite Hex. unfold it.
    by rewrite <- (assoc_L (++)). }
  split_and!; [| | done].
  - intros items Hplan.
    destruct (visited_file_in_plan _ _ _ _ _ _ _ _ _ Hplan Hv Hs Hf)
      as (it' & Hit' & Hin).
    rewrite Hitem in Hit'. by injection Hit' as <-.
  - unfold plan_file_probes. rewrite Hex. unfold it.
    by rewrite <- (assoc_L (++)).
Qed.

Lemma NoDup_fmap_agree {A B} (f : A → B) (l : list A) x y :
  NoDup (f <$> l) → x ∈ l → y ∈ l → f x = f y → x = y.
Proof.
  induction l as [|a l IH]; intros Hnd Hx Hy Hf.
  - by apply elem_of_nil in Hx.
  - rewrite fmap_cons in Hnd. apply NoDup_cons in Hnd as [Ha Hnd].
    apply elem_of_cons in Hx as [-> | Hx]; apply elem_of_cons in Hy as [-> | Hy].
    + done.
    + destruct Ha. rewrite Hf. by apply list_elem_of_fmap_2.
    + destruct Ha. rewrite <- Hf. by apply list_elem_of_fmap_2.
    + by apply IH.
Qed.

Lemma bind_pointwise {A B} (f g : A → list B) (l : list A) :
  (∀ x, x ∈ l → f x = g x) → l ≫= f = l ≫= g.
Proof.
  induction l as [|x l IH]; intros H; [done |].
  rewrite !bind_cons, (H x) by apply list_elem_of_here.
  f_equal. apply IH. intros y Hy. apply H. by apply list_elem_of_further.
Qed.

Lemma NoDup_fmap_filter_eq {A B} `{EqDecision B} (f : A → B) (l : list A) x :
  NoDup (f <$> l) → x ∈ l → filter (λ y, f y = f x) l = [x].
Proof.
  induction l as [|a l IH]; intros Hnd Hx; [by apply elem_of_nil in Hx |].
  rewrite fmap_cons in Hnd. apply NoDup_cons in Hnd as [Ha Hnd].
  apply elem_of_cons in Hx as [-> | Hx].
  - rewrite filter_cons_True by done. f_equal.
    apply filter_none. intros y Hy Hf. apply Ha. rewrite <- Hf.
    by apply list_elem_of_fmap_2.
  - rewrite filter_cons_False; [by apply IH |].
    intros Hf. apply Ha. rewrite Hf. by apply list_elem_of_fmap_2.
Qed.

Lemma for_each_ext {A B} (f g : A → exn + B) (l : list A) :
  (∀ x, x ∈ l → f x = g x) → for_each f l = for_each g l.
Proof.
  induction l as [|x l IH]; intros H; [done |]. simpl.
  rewrite (H x) by apply list_elem_of_here.
  rewrite IH; [done |]. intros y Hy. apply H. by apply list_elem_of_further.
Qed.

(** Below the root the root-only names play no part. *)
Lemma walk_root_free self src_fs dst_fs rel_dir t :
  rel_dir ≠ [] →
  walk' self src_fs dst_fs rel_dir t
  = walk' (without_root_excl self) src_fs dst_fs rel_dir t.
Proof.
  revert rel_dir. induction t as [dirs files IH | e |] using tree_ind';
    intros rel_dir Hrel; [| done ..].
  simpl.
  assert (visit fnmatch IS_WINDOWS self src_fs dst_fs rel_dir dirs.*1 files
          = visit fnmatch IS_WINDOWS (without_root_excl self) src_fs dst_fs rel_dir
              dirs.*1 files) as <-.
  { unfold visit. rewrite !bool_decide_eq_false_2 by done. reflexivity. }
  destruct (visit _ _ self _ _ _ _ _) as [e | [its dn]]; [done |].
  rewrite (for_each_ext _
    (λ d, if _is_under_specific IS_WINDOWS (without_root_excl self) rel_dir
          then inr []
          else if decide (pruned (without_root_excl self) rel_dir d.1) then inr []
               else walk' (without_root_excl self) src_fs dst_fs (rel_dir ++ [d.1]) d.2));
    [done |].
  intros [name sub] Hd. simpl.
  change (_is_under_specific IS_WINDOWS (without_root_excl self) rel_dir)
    with (_is_under_specific IS_WINDOWS self rel_dir).
  destruct (_is_under_specific IS_WINDOWS self rel_dir); [done |].
  rewrite Forall_forall in IH.
  destruct (decide (pruned self rel_dir name)) as [Hp | Hp],
    (decide (pruned (without_root_excl self) rel_dir name)) as [Hp' | Hp'].
  - done.
  - destruct Hp'. destruct Hp as [[? _] | ?]; [done | by right].
  - destruct Hp. destruct Hp' as [[? _] | ?]; [done | by right].
  - apply (IH _ Hd). by destruct rel_dir.
Qed.

Lemma walk_reason_root_dir self src_fs dst_fs top t it :
  it ∈ walk_items' self src_fs dst_fs top t →
  reason it = "root_dir" →
  top = [] ∧ ∃ r, it = root_item self [] r ∧ lower r ∈ _root_excl self.
Proof.
  intros Hit Hr. apply elem_of_walk in Hit as (rel_dir & dirs & files & Hv & Hit).
  apply visited_prefix in Hv.
  apply elem_of_visit in Hit
    as [[_ ->] | [_ [(r & _ & [-> ?] & ->) | [(r & _ & _ & ->) | (f & _ & ->)]]]].
  - done.
  - apply prefix_nil_inv in Hv as ->. eauto.
  - done.
  - by apply plan_file_reason in Hr.
Qed.

Lemma walk_reason_recursive_dir self src_fs dst_fs top t it :
  it ∈ walk_items' self src_fs dst_fs top t →
  reason it = "recursive_dir" →
  ∃ rel_dir dirs files name,
    visited IS_WINDOWS self top t rel_dir dirs files
    ∧ _is_under_specific IS_WINDOWS self rel_dir = false
    ∧ name ∈ dirs.*1
    ∧ rec_removed self rel_dir name
    ∧ it = rec_item self rel_dir name.
Proof.
  intros Hit Hr. apply elem_of_walk in Hit as (rel_dir & dirs & files & Hv & Hit).
  apply elem_of_visit in Hit
    as [[_ ->] | [Hs [(r & _ & _ & ->) | [(r & Hin & Hrec & ->) | (f & _ & ->)]]]].
  - done.
  - done.
  - exists rel_dir, dirs, files, r. by split_and!.
  - by apply plan_file_reason in Hr.
Qed.

(** C5. The root-only filter records one EXCLUDE "root_dir" item per
    matching immediate child of the source root and nothing else: the
    plan's "root_dir" items are exactly those children, and no item lies
    inside them.  Below the root the names of root_dirs play no part:
    the walk is the one of a planner with no root-only names at all, and
    a sub-directory of a visited directory below the root that bears
    such a name (and that the recursive filter does not remove) is
    visited in its turn, each of its files getting in the plan the item
    the loop body builds for any file. *)
Theorem C5_root_only_scoping self src_fs dst_fs dirs files items :
  plan' self (inr (Node dirs files)) src_fs dst_fs = inr items →
  filter (λ it, reason it = "root_dir") items
    = (if _is_under_specific IS_WINDOWS self [] then []
       else root_item self [] <$>
              filter (λ name, lower name ∈ _root_excl self) dirs.*1)
  ∧ (∀ it name q, it ∈ items → src it = src_root self ++ name :: q → q ≠ [] →
       lower name ∉ _root_excl self)
  ∧ (∀ rel_dir t, rel_dir ≠ [] →
       walk' self src_fs dst_fs rel_dir t
       = walk' (without_root_excl self) src_fs dst_fs rel_dir t)
  ∧ (∀ rel_dir ds fl name sub_dirs sub_files,
       visited IS_WINDOWS self [] (Node dirs files) rel_dir ds fl →
       rel_dir ≠ [] →
       _is_under_specific IS_WINDOWS self rel_dir = false →
       (name, Node sub_dirs sub_files) ∈ ds →
       lower name ∈ _root_excl self →
       lower name ∉ _rec_excl self →
       visited IS_WINDOWS self [] (Node dirs files) (rel_dir ++ [name])
               sub_dirs sub_files
       ∧ (_is_under_specific IS_WINDOWS self (rel_dir ++ [name]) = false →
          ∀ f, f ∈ sub_files →
            ∃ it, plan_file' self src_fs dst_fs (rel_dir ++ [name]) f = inr it
                  ∧ it ∈ items
                  ∧ src it = src_root self ++ rel_dir ++ [name; f]
                  ∧ dst it = dst_root self ++ rel_dir ++ [name; f])).
Proof.
  intros Hplan.
  destruct (plan_inr _ _ _ _ _ Hplan) as (? & [= <-] & Hwalk & ->).
  clear Hplan. split_and!.
  - change (walk_items' self src_fs dst_fs [] (Node dirs files)) with
      ((visit_items fnmatch IS_WINDOWS self src_fs dst_fs [] dirs.*1 files).1 ++
       (dirs ≫= λ d, if _is_under_specific IS_WINDOWS self [] then [] else
                      if decide (pruned self [] d.1) then []
                      else walk_items' self src_fs dst_fs ([] ++ [d.1]) d.2)).
    rewrite filter_app.
    rewrite (filter_none _ (dirs ≫= _)).
    2: { intros it ([name sub] & Hit & _)%list_elem_of_bind Hr. simpl in Hit.
         destruct (_is_under_specific IS_WINDOWS self []); [by apply elem_of_nil in Hit |].
         destruct (decide _); [by apply elem_of_nil in Hit |].
         by apply walk_reason_root_dir in Hit as [? _]. }
    rewrite app_nil_r. destruct (_is_under_specific IS_WINDOWS self []) eqn:Hs.
    + by rewrite visit_specific.
    + rewrite visit_not_specific by done. simpl. rewrite !filter_app.
      rewrite (filter_all _ (root_item self [] <$> _))
        by (by intros it (r & -> & _)%list_elem_of_fmap).
      rewrite (filter_none _ (rec_item self [] <$> _))
        by (by intros it (r & -> & _)%list_elem_of_fmap).
      rewrite (filter_none _ (file_item' self src_fs dst_fs [] <$> _))
        by (intros it (f & -> & _)%list_elem_of_fmap; apply plan_file_reason).
      rewrite !app_nil_r. f_equal. apply list_filter_iff.
      unfold root_removed. tauto.
  - intros it name q Hit Hsrc Hq Hroot.
    apply walk_item_paths in Hit as (q0 & Hsrc0 & _ & Hanc).
    rewrite Hsrc0 in Hsrc. apply app_inv_head in Hsrc. simpl in Hsrc. subst q0.
    destruct (Hanc [] name q eq_refl) as [_ Hp]. apply (Hp Hq). by left.
  - intros. by apply walk_root_free.
  - intros rel_dir ds fl name sub_dirs sub_files Hv Hrel Hs Hd Hroot Hrec.
    assert (Hv' : visited IS_WINDOWS self [] (Node dirs files) (rel_dir ++ [name])
                    sub_dirs sub_files).
    { eapply visited_child; [done | done | done |].
      intros [[? _] | ?]; done. }
    split; [done |]. intros Hs' f Hf.
    destruct (visited_file_in_plan _ _ _ _ _ _ _ _ _ Hwalk Hv' Hs' Hf)
      as (it & Hit & Hin).
    exists it. split_and!; [done | done | |].
    + rewrite (plan_file_item _ _ _ _ _ _ _ Hit), file_item_src.
      by rewrite <- !(assoc_L (++)).
    + rewrite (plan_file_item _ _ _ _ _ _ _ Hit), file_item_dst.
      by rewrite <- !(assoc_L (++)).
Qed.

(** C1. For a configuration loaded by [from_yaml]: every sub-directory
    of a visited directory outside the specific paths whose name equals
    an entry of recursive_dirs up to case, and that the root-only filter
    did not already remove, gets the item EXCLUDE "recursive_dir", and
    when names are unique within directories the plan has exactly this
    one item for its path; "recursive_dir" items arise in no other way;
    and no item of any action has a path strictly inside a directory so
    named, at any depth. *)
Theorem C1_recursive_dirs s d y root src_fs dst_fs items :
  let self := SyncPlanner_init (from_yaml s d y) in
  plan' self (inr root) src_fs dst_fs = inr items →
  (∀ rel_dir dirs files name,
     visited IS_WINDOWS self [] root rel_dir dirs files →
     _is_under_specific IS_WINDOWS self rel_dir = false →
     name ∈ dirs.*1 →
     matches_ci name (y_recursive_dirs y) →
     ¬ (rel_dir = [] ∧ matches_ci name (y_root_dirs y)) →
     rec_item self rel_dir name ∈ items
     ∧ (wf_tree root →
        filter (λ it, src it = src_root self ++ rel_dir ++ [name]) items
        = [rec_item self rel_dir name]))
  ∧ (∀ it, it ∈ items → reason it = "recursive_dir" →
       act it = EXCLUDE
       ∧ ∃ rel_dir dirs files name,
           it = rec_item self rel_dir name
           ∧ visited IS_WINDOWS self [] root rel_dir dirs files
           ∧ _is_under_specific IS_WINDOWS self rel_dir = false
           ∧ name ∈ dirs.*1
           ∧ matches_ci name (y_recursive_dirs y)
           ∧ ¬ (rel_dir = [] ∧ matches_ci name (y_root_dirs y)))
  ∧ (∀ it q1 name q2,
       it ∈ items → src it = src_root self ++ q1 ++ name :: q2 → q2 ≠ [] →
       ¬ matches_ci name (y_recursive_dirs y)).
Proof.
  intros self (? & [= <-] & _ & ->)%plan_inr. split_and!.
  - intros rel_dir dirs files name Hv Hs Hname Hrec Hroot.
    assert (Hin : rec_item self rel_dir name ∈ walk_items' self src_fs dst_fs [] root).
    { apply elem_of_walk. exists rel_dir, dirs, files. split; [done |].
      apply elem_of_visit. right. split; [done |]. right. left.
      exists name. split_and!; [done | | done]. split.
      - intros [-> ?]. apply Hroot. split; [done |]. by apply from_yaml_matches.
      - by apply from_yaml_matches. }
    split; [done |]. intros Hwf.
    apply (NoDup_fmap_filter_eq src _ (rec_item self rel_dir name));
      [by apply walk_NoDup_src | done].
  - intros it Hit Hr.
    apply walk_reason_recursive_dir in Hit
      as (rel_dir & dirs & files & name & Hv & Hs & Hin & [Hnr Hname] & ->); [| done].
    split; [done |]. exists rel_dir, dirs, files, name.
    split_and!; [done | done | done | done | by apply from_yaml_matches |].
    intros [-> Hm]. apply Hnr. split; [done |]. by apply from_yaml_matches.
  - intros it q1 name q2 Hit Hsrc Hq Hrec.
    apply walk_item_paths in Hit as (q0 & Hsrc0 & _ & Hanc).
    rewrite Hsrc0 in Hsrc. apply app_inv_head in Hsrc. simpl in Hsrc. subst q0.
    destruct (Hanc q1 name q2 eq_refl) as [_ Hp]. apply (Hp Hq).
    right. by apply from_yaml_matches.
Qed.

(** The prefix test of [_is_under_specific], on segments. *)
Lemma is_under_specific_segments self rel_dir :
  _is_under_specific IS_WINDOWS self rel_dir = true
  ↔ ∃ sp, sp ∈ _specific_excl self
          ∧ split backslash sp `prefix_of` split backslash (_rel_str IS_WINDOWS rel_dir).
Proof.
  unfold _is_under_specific.
  destruct (_specific_excl self) as [|sp0 l] eqn:Hl.
  { split; [done |]. intros (sp & Hsp & _). by apply elem_of_nil in Hsp. }
  rewrite existsb_exists. split.
  + intros (sp & Hsp%list_elem_of_In & Hm). exists sp. split; [done |].
    by apply specific_match_segments.
  + intros (sp & Hsp & Hm). exists sp. split; [by apply list_elem_of_In |].
    by apply specific_match_segments.
Qed.

(** C3. The path-prefix filter compares whole segments of the
    normalized relative path: a directory matches exactly when the
    segments of some prefix are a prefix of its segments, which for names
    without a separator are the lower-cased names.  So with the
    prefix "scripts\output" the sibling scripts\output2 does not match
    while scripts\output and scripts\output\logs do.  A visited directory
    that matches gets the item EXCLUDE "specific_path" (the only item for
    its path when names are unique within directories), and no item has
    a path strictly inside a matching directory. *)
Theorem C3_specific_path_prefix self root src_fs dst_fs items :
  plan' self (inr root) src_fs dst_fs = inr items →
  (∀ rel_dir,
     _is_under_specific IS_WINDOWS self rel_dir = true
     ↔ ∃ sp, sp ∈ _specific_excl self
             ∧ split backslash sp `prefix_of` split backslash (_rel_str IS_WINDOWS rel_dir))
  ∧ (∀ rel_dir,
       rel_dir ≠ [] → Forall entry_name rel_dir →
       _is_under_specific IS_WINDOWS self rel_dir = true
       ↔ ∃ sp, sp ∈ _specific_excl self
               ∧ split backslash sp `prefix_of` (lower <$> rel_dir))
  ∧ (_specific_excl self = ["scripts\output"] →
     _is_under_specific IS_WINDOWS self ["scripts"; "output2"] = false
     ∧ _is_under_specific IS_WINDOWS self ["scripts"; "output"] = true
     ∧ _is_under_specific IS_WINDOWS self ["scripts"; "output"; "logs"] = true)
  ∧ (∀ rel_dir dirs files,
       visited IS_WINDOWS self [] root rel_dir dirs files →
       _is_under_specific IS_WINDOWS self rel_dir = true →
       specific_item self rel_dir ∈ items
       ∧ (wf_tree root →
          ∀ it, it ∈ items → src it = src_root self ++ rel_dir →
                it = specific_item self rel_dir))
  ∧ (∀ it rel_dir q,
       it ∈ items → src it = src_root self ++ rel_dir ++ q → q ≠ [] →
       _is_under_specific IS_WINDOWS self rel_dir = false).
Proof.
  intros (? & [= <-] & _ & ->)%plan_inr. split_and!.
  - apply is_under_specific_segments.
  - intros rel_dir Hne Hnames.
    rewrite is_under_specific_segments. by rewrite rel_str_segments.
  - intros Hl. unfold _is_under_specific. rewrite Hl.
    by destruct IS_WINDOWS.
  - intros rel_dir dirs files Hv Hs.
    assert (Hin : specific_item self rel_dir ∈ walk_items' self src_fs dst_fs [] root).
    { apply elem_of_walk. exists rel_dir, dirs, files. split; [done |].
      apply elem_of_visit. by left. }
    split; [done |]. intros Hwf it Hit Hsrc.
    eapply (NoDup_fmap_agree src); [by eapply walk_NoDup_src | done | done | done].
  - intros it rel_dir q Hit Hsrc Hq.
    apply walk_item_paths in Hit as (q0 & Hsrc0 & _ & Hanc).
    rewrite Hsrc0 in Hsrc. apply app_inv_head in Hsrc. simpl in Hsrc. subst q0.
    destruct q as [|name q]; [done |].
    by destruct (Hanc rel_dir name q eq_refl) as [? _].
Qed.

End planner_claims.
(** ** The worked examples *)

(** The times of the examples are doubles. *)
Lemma example_times_are_doubles :
  Forall (λ x, is_double x = true)
         [Example.t100; Example.t200; Example.t202; Example.t300; Example.t302_5;
          Example.t400; Example.t500; Example.t1; Example.t3].
Proof. repeat constructor. Qed.

(** C7. A source directory that lists a.txt.part before a.txt, an empty
    destination: both files are planned ADD and the apply phase completes,
    yet the copy of a.txt went through the path a.txt.part and renamed it
    away, so the second plan has a.txt.part as ADD again, not SKIP. *)
Theorem C7_temp_name_collision :
  let replan := plan glob_fnmatch false Example.part_self (inr Example.part_source)
                     Example.part_src_fs in
  let run := main_apply Example.part_src_fs Example.part_items []
                        {| disk := ∅; trace := [] |} in
  replan ∅ = inr Example.part_items
  ∧ Example.part_items =
      [mkItem ADD ["srv"; "a.txt.part"] ["mirror"; "a.txt.part"] "missing";
       mkItem ADD ["srv"; "a.txt"] ["mirror"; "a.txt"] "missing"]
  ∧ run.1 = Return "Apply complete."
  ∧ disk run.2 !! ["mirror"; "a.txt.part"] = None
  ∧ replan (disk run.2) =
      inr [mkItem ADD ["srv"; "a.txt.part"] ["mirror"; "a.txt.part"] "missing";
           mkItem SKIP ["srv"; "a.txt"] ["mirror"; "a.txt"] "same size+mtime"].
Proof. by vm_compute. Qed.

(** C2. A destination file whose metadata may not be read does not get
    the item UPDATE "dst unreadable: ...": [dst.exists()] runs outside the
    [try] blocks of [_decide] and lets the [PermissionError] of [os.stat]
    through, so the decision raises and no item is built for the file.
    The file here is traversed, matches no pattern and has a readable
    source.  Whatever the two filesystems hold, [_decide] never returns
    that reason.
    The comparison of the times is the one of doubles: for two files of
    equal size whose times are more than 2 seconds apart, by 2^-52, the
    difference rounds to 2.0 and the item is SKIP. *)
Theorem C2_unreadable_destination_raises :
  let rel_dir := ["build"; "node_modules"] in
  let src_file := ["srv"; "app"; "build"; "node_modules"; "deep.js"] in
  let dst_file := ["mirror"; "build"; "node_modules"; "deep.js"] in
  (visited false Example.self [] Example.source rel_dir [] ["deep.js"]
   ∧ _is_under_specific false Example.self rel_dir = false
   ∧ _is_file_excluded glob_fnmatch Example.self "deep.js" = false
   ∧ (∃ s, os_stat Example.src_fs src_file = inr s)
   ∧ os_stat Example.locked_dst_fs dst_file = inl Example.denied
   ∧ exn_kind Example.denied = PermissionError
   ∧ _decide Example.src_fs Example.locked_dst_fs src_file dst_file
     = inl Example.denied
   ∧ plan_file glob_fnmatch Example.self Example.src_fs Example.locked_dst_fs
               rel_dir "deep.js"
     = inl Example.denied)
  ∧ (∀ src_fs dst_fs src dst a r,
       _decide src_fs dst_fs src dst = inr (a, r) →
       startswith r "dst unreadable" = false)
  ∧ (os_stat Example.late_src_fs ["srv"; "a.txt"]
     = inr {| st_size := 5; st_atime := Example.t3; st_mtime := Example.t3 |}
     ∧ os_stat Example.late_dst_fs ["mirror"; "a.txt"]
       = inr {| st_size := 5; st_atime := Example.t1; st_mtime := Example.t1 |}
     ∧ (ulps Example.t3 - ulps Example.t1 > 2 * 2 ^ 1074)%Z
     ∧ _decide Example.late_src_fs Example.late_dst_fs
               ["srv"; "a.txt"] ["mirror"; "a.txt"]
       = inr (SKIP, "same size+mtime")).
Proof.
  cbv zeta. split; [| split].
  - split.
    { eapply (visited_child _ _ _ _ ["build"] Example.build_dirs ["tmp.o"; "TMP.O"]
                "node_modules" [] ["deep.js"]).
      - eapply (visited_child _ _ _ _ [] Example.top_dirs Example.top_files
                  "build" Example.build_dirs ["tmp.o"; "TMP.O"]).
        + by apply visited_top.
        + by vm_compute.
        + unfold Example.top_dirs. set_solver.
        + by apply (bool_decide_unpack _); vm_compute.
      - by vm_compute.
      - unfold Example.build_dirs. set_solver.
      - by apply (bool_decide_unpack _); vm_compute. }
    split_and!; [by vm_compute | by vm_compute | by eexists | by vm_compute ..].
  - intros src_fs dst_fs src dst a r. apply decide_never_dst_unreadable.
  - split_and!; by vm_compute.
Qed.

(** C4. The temporary path of one item can be the destination of
    another.  With a.txt.part and a.txt in the source, in this order, the
    first item is completed; the copy of a.txt then runs out of space
    after two bytes.  Those two bytes are written through the path
    mirror/a.txt.part, the destination of the first item, and the
    clean-up removes that path: the completed copy is gone.  And when the
    removal itself fails, its error is the one that leaves the applier,
    not the error of the copy, and the temporary file stays. *)
Theorem C4_partial_file_at_destination :
  let first := ["mirror"; "a.txt.part"] in
  let run := SyncApplier.apply true Example.part_src_fs Example.part_items
               [calm; Example.torn] {| disk := ∅; trace := [] |} in
  let masked := SyncApplier.apply true Example.src_fs [Example.a_item]
                  [Example.stuck] Example.start in
  (Example.part_items =
     [mkItem ADD ["srv"; "a.txt.part"] first "missing";
      mkItem ADD ["srv"; "a.txt"] ["mirror"; "a.txt"] "missing"]
   ∧ run.1 = inl Example.disk_full
   ∧ ev_call <$> trace run.2 =
       [Mkdir ["mirror"];
        CopyFile ["srv"; "a.txt.part"] ["mirror"; "a.txt.part.part"];
        Stat ["srv"; "a.txt.part"];
        Utime ["mirror"; "a.txt.part.part"] Example.t100 Example.t100;
        Replace ["mirror"; "a.txt.part.part"] first;
        Mkdir ["mirror"];
        CopyFile ["srv"; "a.txt"] first;
        Exists first;
        Remove first]
   ∧ (λ ev, ev_disk ev !! first) <$> trace run.2 =
       [None; None; None; None;
        Some (Example.file 4 Example.t100);
        Some (Example.file 4 Example.t100);
        Some (Example.file 2 Example.t500);
        Some (Example.file 2 Example.t500);
        None]
   ∧ Example.part_src_fs !! ["srv"; "a.txt.part"] = Some (Example.file 4 Example.t100)
   ∧ disk run.2 !! first = None)
  ∧ (masked.1 = inl Example.denied
     ∧ ev_call <$> trace masked.2 =
         [Mkdir ["mirror"];
          CopyFile ["srv"; "app"; "a.txt"] ["mirror"; "a.txt.part"];
          Exists ["mirror"; "a.txt.part"];
          Remove ["mirror"; "a.txt.part"]]
     ∧ ev_raised <$> trace masked.2 =
         [None; Some Example.disk_full; None; Some Example.denied]
     ∧ Example.denied ≠ Example.disk_full
     ∧ disk masked.2 !! ["mirror"; "a.txt.part"] = Some (Example.file 2 Example.t500)).
Proof. by vm_compute. Qed.

(** C6. The source root exists and every source file is readable, yet
    planning fails: [os.stat] of one destination file raises
    [PermissionError], [dst.exists()] lets it through and [plan] ends
    with it, so that the dry run of [main] prints no plan and exits with
    status 1.  (With that file readable the same plan is returned.)  And
    a sub-directory of the source that cannot be listed is dropped without
    a trace: planning completes and no item mentions it. *)
Theorem C6_locked_destination_aborts_plan :
  let dry := main glob_fnmatch false Report.posix_str Report.dry_run
               (inr Example.config) (inr Example.source) Example.src_fs []
               {| disk := Example.locked_dst_fs; trace := [] |} in
  (os_stat Example.locked_dst_fs ["mirror"; "build"; "node_modules"; "deep.js"]
   = inl Example.denied
   ∧ plan glob_fnmatch false Example.self (inr Example.source)
          Example.src_fs Example.locked_dst_fs
     = inl Example.denied
   ∧ stdout dry = []
   ∧ stderr dry = ["Planning failed: [Errno 13] Permission denied"]
   ∧ status dry = Some 1
   ∧ plan glob_fnmatch false Example.self (inr Example.source)
          Example.src_fs Example.dst_fs
     = inr Example.items)
  ∧ (plan glob_fnmatch false Example.part_self (inr Example.secret_source)
          Example.part_src_fs ∅
     = inr [mkItem ADD ["srv"; "a.txt"] ["mirror"; "a.txt"] "missing"]
     ∧ ¬ ∃ items it,
           plan glob_fnmatch false Example.part_self (inr Example.secret_source)
                Example.part_src_fs ∅ = inr items
           ∧ it ∈ items ∧ ["srv"; "secret"] `prefix_of` src it).
Proof.
  cbv zeta. split; [split_and!; by vm_compute |]. split; [by vm_compute |].
  intros (items & it & Hplan & Hit & Hpre). vm_compute in Hplan.
  injection Hplan as <-. apply list_elem_of_singleton in Hit as ->.
  destruct Hpre as [k Hk]. simpl in Hk. by injection Hk.
Qed.

(** C9. A copy that fails for lack of space is reported by [main] as a
    permission/lock error when the removal of the temporary file raises
    [PermissionError]: the [finally: raise] of the clean-up lets that
    second error through in place of the first.  With a removal that
    succeeds the same failure is reported as an I/O error.  The exit
    status is 1 in both cases. *)
Theorem C9_disk_full_reported_as_permission_error :
  let run ob := main glob_fnmatch false Report.posix_str Report.wet_run
                  (inr Example.config) (inr Example.source) Example.src_fs [ob]
                  Example.start in
  (ev_raised <$> trace (final (run Example.stuck))
   = [None; Some Example.disk_full; None; Some Example.denied]
   ∧ exn_kind Example.disk_full = OtherOSError
   ∧ exn_kind Example.denied = PermissionError
   ∧ stderr (run Example.stuck)
     = ["Copy aborted (permission/lock error): [Errno 13] Permission denied"]
   ∧ status (run Example.stuck) = Some 1)
  ∧ (ev_raised <$> trace (final (run Example.torn))
     = [None; Some Example.disk_full; None; None]
     ∧ stderr (run Example.torn)
       = ["Copy aborted (I/O error): [Errno 28] No space left on device"]
     ∧ status (run Example.torn) = Some 1).
Proof. by vm_compute. Qed.

(** ** Boundary cases *)

(** C1, as stated, fails when a name is listed in both sets: the child
    build of the root is in recursive_dirs, is traversed, and its only item
    has the reason "root_dir". *)
Lemma C1_root_dirs_take_precedence :
  let self := SyncPlanner_init Example.both_config in
  matches_ci "build" ["build"]
  ∧ plan glob_fnmatch false self (inr Example.both_source) ∅ ∅
    = inr [mkItem EXCLUDE ["srv"; "build"] ["mirror"; "build"] "root_dir"]
  ∧ ¬ ∃ items it,
        plan glob_fnmatch false self (inr Example.both_source) ∅ ∅ = inr items
        ∧ it ∈ items ∧ reason it = "recursive_dir".
Proof.
  split_and!.
  - exists "build". split; [apply list_elem_of_here | done].
  - by vm_compute.
  - intros (items & it & Hplan & Hit & Hr). vm_compute in Hplan.
    injection Hplan as <-. apply list_elem_of_singleton in Hit as ->. done.
Qed.

(** C10, as stated, fails for a destination root below a directory that
    does not exist yet: applying the plan makes the [mkdir] of the
    destination root, with [parents=True], which creates the directories
    above the root as well. *)
Lemma C10_mkdir_above_root :
  let self := Example.deep_self in
  let run := SyncApplier.apply true Example.part_src_fs
               [mkItem ADD ["srv"; "a.txt"] ["x"; "new"; "mirror"; "a.txt"] "missing"]
               [] {| disk := ∅; trace := [] |} in
  dst_root self = ["x"; "new"; "mirror"]
  ∧ plan glob_fnmatch false self (inr (Node [] ["a.txt"])) Example.part_src_fs ∅
    = inr [mkItem ADD ["srv"; "a.txt"] ["x"; "new"; "mirror"; "a.txt"] "missing"]
  ∧ run.1 = inr ()
  ∧ ∃ ev, ev ∈ trace run.2
          ∧ ev_call ev = Mkdir ["x"; "new"; "mirror"]
          ∧ ev_raised ev = None
          ∧ ["x"] ∈ written (ev_call ev)
          ∧ ¬ dst_root self `prefix_of` ["x"].
Proof.
  cbv zeta. split; [by vm_compute |]. split; [by vm_compute |].
  split; [by vm_compute |].
  eexists. split_and!.
  - vm_compute. apply list_elem_of_here.
  - reflexivity.
  - reflexivity.
  - vm_compute. apply list_elem_of_here.
  - intros [k Hk]. vm_compute in Hk. discriminate.
Qed.
(** ** Planning again after an apply *)

(** A destination that holds the copy of the source is up to date. *)
Lemma decide_after_copy src_fs dst_fs src dst ob d :
  src_fs !! src = Some (File d) →
  dst_fs !! dst = Some (File (copied true ob d)) →
  _decide src_fs dst_fs src dst = inr (SKIP, "same size+mtime").
Proof.
  intros Hsrc Hdst.
  assert (Hsize : bool_decide (st_size (stat_of d)
                               = st_size (stat_of (copied true ob d))) = true)
    by (by apply bool_decide_eq_true_2).
  unfold _decide, path_exists, os_stat. rewrite Hsrc, Hdst.
  cbv zeta. rewrite Hsize.
  change (st_mtime (stat_of (copied true ob d))) with (st_mtime (stat_of d)).
  by rewrite within_two_refl.
Qed.

(** [_decide] returns unless [dst.exists()] raises for a file whose source
    is readable. *)
Lemma decide_returns src_fs dst_fs src dst :
  (∃ x, _decide src_fs dst_fs src dst = inr x)
  ↔ (∃ e, os_stat src_fs src = inl e) ∨ (∃ b, path_exists dst_fs dst = inr b).
Proof.
  unfold _decide. destruct (os_stat src_fs src) as [e | s].
  { split; [intros _; left; by eexists | intros _; by eexists]. }
  destruct (path_exists dst_fs dst) as [e | [|]].
  - split; [by intros [? ?] | intros [[? ?] | [? ?]]; done].
  - split; [intros _; right; by eexists |]. intros _.
    destruct (os_stat dst_fs dst); [by eexists |].
    destruct (_ && _); by eexists.
  - split; [intros _; right; by eexists | intros _; by eexists].
Qed.

Lemma NoDup_fmap_filter {A B} (f : A → B) (P : A → Prop) `{∀ x, Decision (P x)}
    (l : list A) :
  NoDup (f <$> l) → NoDup (f <$> filter P l).
Proof.
  induction l as [|x l IH]; [done |]. rewrite fmap_cons. intros [Hx Hl]%NoDup_cons.
  destruct (decide (P x)).
  - rewrite filter_cons_True, fmap_cons by done. apply NoDup_cons. split; [| by apply IH].
    intros (y & Hy & [_ Hin]%list_elem_of_filter)%list_elem_of_fmap.
    apply Hx. rewrite Hy. by apply list_elem_of_fmap_2.
  - rewrite filter_cons_False by done. by apply IH.
Qed.

Lemma NoDup_fmap_transfer {A B C} (f : A → B) (g : A → C) (l : list A) :
  (∀ x y, x ∈ l → y ∈ l → g x = g y → f x = f y) →
  NoDup (f <$> l) → NoDup (g <$> l).
Proof.
  induction l as [|x l IH]; intros Hfg; [constructor |].
  rewrite !fmap_cons. intros [Hx Hl]%NoDup_cons. apply NoDup_cons. split.
  - intros (y & Hy & Hin)%list_elem_of_fmap. apply Hx.
    rewrite (Hfg x y); [by apply list_elem_of_fmap_2 | apply list_elem_of_here
                        | by apply list_elem_of_further | done].
  - apply IH; [| done]. intros y z Hy Hz. apply Hfg; by apply list_elem_of_further.
Qed.

Section replan.
Context (src_fs : fs).

Local Abbreviation apply' := (SyncApplier.apply true src_fs).
Local Abbreviation temp_of it := (with_suffix_added (dst it) ".part").

(** The loop leaves alone every path that is neither a destination nor a
  temporary path of an item it applies. *)
Lemma apply_frame items obs w r w' p :
Forall (λ it, act it = ADD ∨ act it = UPDATE → dst it ≠ []) items →
apply' items obs w = (r, w') →
(∀ it, it ∈ items → act it = ADD ∨ act it = UPDATE →
       p ≠ dst it ∧ p ≠ temp_of it) →
disk w' !! p = disk w !! p.
Proof.
revert obs w. induction items as [|it rest IH]; intros obs w Hdst Hrun Hp.
- simpl in Hrun. by injection Hrun as _ <-.
- apply Forall_cons in Hdst as [Hd Hdst].
  assert (Hrest : ∀ it0, it0 ∈ rest → act it0 = ADD ∨ act it0 = UPDATE →
                         p ≠ dst it0 ∧ p ≠ temp_of it0).
  { intros it0 Hin. apply Hp. by apply list_elem_of_further. }
  destruct (decide (act it = ADD ∨ act it = UPDATE)) as [Ha | Ha].
  + rewrite apply_cons in Hrun by done.
    destruct (Hp it (list_elem_of_here _ _) Ha) as [Hpd Hpt].
    destruct (SyncApplier.apply_item true src_fs _ it w) as [[e | []] w1] eqn:Hitem;
      (apply apply_item_spec in Hitem as (_ & _ & _ & Hframe & _); [| by apply Hd]).
    * simplify_eq. by apply Hframe.
    * rewrite (IH _ _ Hdst Hrun Hrest). by apply Hframe.
  + rewrite apply_skip in Hrun by (destruct (act it); tauto). by eapply IH.
Qed.

(** When the loop completes, every destination holds the copy of its
  source, provided no two items share a destination and no item's
  temporary path is another item's destination. *)
Lemma apply_installs items obs w w' :
Forall (λ it, act it = ADD ∨ act it = UPDATE) items →
Forall (λ it, dst it ≠ []) items →
NoDup (dst <$> items) →
(∀ it it', it ∈ items → it' ∈ items → temp_of it' ≠ dst it) →
apply' items obs w = (inr (), w') →
∀ it, it ∈ items →
  ∃ d, src_fs !! src it = Some (File d)
       ∧ disk w' !! dst it = Some (File (copied true calm d)).
Proof.
revert obs w. induction items as [|it rest IH];
  intros obs w Hact Hdst Hnd Htemp Hrun it0 Hin; [by apply elem_of_nil in Hin |].
apply Forall_cons in Hact as [Ha Hact]. apply Forall_cons in Hdst as [Hd Hdst].
rewrite fmap_cons in Hnd. apply NoDup_cons in Hnd as [Hfresh Hnd].
rewrite apply_cons in Hrun by done.
destruct (SyncApplier.apply_item true src_fs _ it w) as [[e | []] w1] eqn:Hitem;
  [done |].
apply apply_item_spec in Hitem as (_ & _ & _ & _ & d & Hsrc & _ & _ & Hdisk); [| done].
apply elem_of_cons in Hin as [-> | Hin].
- exists d. split; [done |].
  erewrite apply_frame; [| | done |].
  + rewrite Hdisk. apply lookup_insert_eq.
  + eapply Forall_impl; [exact Hdst | by auto].
  + intros it' Hin' _. split.
    * intros Heq. apply Hfresh. rewrite Heq. by apply list_elem_of_fmap_2.
    * apply not_eq_sym, Htemp; [apply list_elem_of_here | by apply list_elem_of_further].
- eapply IH; [done | done | done | | done | done].
  intros ? ? ? ?. apply Htemp; by apply list_elem_of_further.
Qed.

(** What a loop that completes leaves at a path: what was there, or a
  file it wrote, or nothing. *)
Lemma apply_done_lookup items obs w w' p :
Forall (λ it, act it = ADD ∨ act it = UPDATE → dst it ≠ []) items →
apply' items obs w = (inr (), w') →
disk w' !! p = disk w !! p
∨ (∃ d, disk w' !! p = Some (File d))
∨ disk w' !! p = None.
Proof.
revert obs w. induction items as [|it rest IH]; intros obs w Hdst Hrun.
- simpl in Hrun. injection Hrun as <-. by left.
- apply Forall_cons in Hdst as [Hd Hdst].
  destruct (decide (act it = ADD ∨ act it = UPDATE)) as [Ha | Ha].
  + rewrite apply_cons in Hrun by done.
    destruct (SyncApplier.apply_item true src_fs _ it w) as [[e | []] w1] eqn:Hitem;
      [done |].
    apply apply_item_spec in Hitem as (_ & _ & _ & _ & d & _ & _ & _ & Hdisk);
      [| by apply Hd].
    destruct (IH _ _ Hdst Hrun) as [Hsame | Hnew]; [| by right].
    rewrite Hsame, Hdisk.
    destruct (decide (p = dst it)) as [-> | Hpd].
    { right. left. rewrite lookup_insert_eq. by eexists. }
    rewrite lookup_insert_ne by done.
    destruct (decide (p = temp_of it)) as [-> | Hpt].
    { right. right. apply lookup_delete_eq. }
    left. by rewrite lookup_delete_ne.
  + rewrite apply_skip in Hrun by (destruct (act it); tauto). by eapply IH.
Qed.
End replan.

(** X16. Decision idempotence, away from colliding names: when the tree has
    unique names per directory, the ADD and UPDATE items of its plan were
    applied to the end, and no applied item's temporary path is the
    destination of an applied item, planning again classifies each of them
    SKIP "same size+mtime"; and the second plan is returned when the first
    was made for the destination the items were applied to. *)
Theorem replan_skips_applied fnmatch IS_WINDOWS self root src_fs dst_fs obs w w' items :
  wf_tree root →
  walk fnmatch IS_WINDOWS self src_fs dst_fs [] root = inr items →
  let to_apply := filter (λ it, act it = ADD ∨ act it = UPDATE) items in
  (∀ it it', it ∈ to_apply → it' ∈ to_apply →
             with_suffix_added (dst it') ".part" ≠ dst it) →
  SyncApplier.apply true src_fs to_apply obs w = (inr (), w') →
  (∀ it, it ∈ to_apply →
     ∀ items', walk fnmatch IS_WINDOWS self src_fs (disk w') [] root = inr items' →
       mkItem SKIP (src it) (dst it) "same size+mtime" ∈ items')
  ∧ (disk w = dst_fs →
     ∃ items', walk fnmatch IS_WINDOWS self src_fs (disk w') [] root = inr items').
Proof.
  intros Hwf Hwalk to_apply Htemp Hrun.
  pose proof (walk_inr _ _ _ _ _ _ _ _ Hwalk) as Hitems.
  assert (Hall : ∀ x, x ∈ to_apply → x ∈ items ∧ (act x = ADD ∨ act x = UPDATE)).
  { intros x [? ?]%list_elem_of_filter. done. }
  assert (Hdsts : Forall (λ it, act it = ADD ∨ act it = UPDATE → dst it ≠ []) to_apply).
  { apply Forall_forall. intros x Hx _. destruct (Hall x Hx) as [Hin Ha].
    pose proof (walk_item_dst fnmatch IS_WINDOWS self src_fs dst_fs root) as Hd.
    rewrite Forall_forall in Hd. apply Hd; [by rewrite <- Hitems | done]. }
  split.
  - intros it Hit items' Hwalk'.
    assert (Hinstalled : ∃ d, src_fs !! src it = Some (File d)
                              ∧ disk w' !! dst it = Some (File (copied true calm d))).
    { eapply (apply_installs src_fs to_apply); [| | | done | done | done].
      - apply Forall_forall. intros x Hx. by apply Hall.
      - apply Forall_forall. intros x Hx. destruct (Hall x Hx) as [Hin Ha].
        rewrite Forall_forall in Hdsts. by apply Hdsts.
      - apply NoDup_fmap_filter. rewrite Hitems.
        apply (NoDup_fmap_transfer src); [| by apply walk_NoDup_src].
        intros x y Hx Hy Hxy.
        apply walk_item_rel in Hx as (rx & _ & -> & Hdx & _).
        apply walk_item_rel in Hy as (ry & _ & -> & Hdy & _).
        rewrite Hdx, Hdy in Hxy. by apply app_inv_head in Hxy as ->. }
    destruct Hinstalled as (d & Hsrc & Hdst).
    destruct (Hall it Hit) as [Hin Ha]. rewrite Hitems in Hin.
    apply elem_of_walk in Hin as (rel_dir & dirs & files & Hv & Hitem).
    apply elem_of_visit in Hitem
      as [[_ ->] | [Hs [(r & _ & _ & ->) | [(r & _ & _ & ->) | (f & Hf & ->)]]]];
      [by destruct Ha .. |].
    assert (Hpat : _is_file_excluded fnmatch self f = false).
    { destruct (_is_file_excluded fnmatch self f) eqn:E; [| done].
      unfold file_item, plan_file in Ha. rewrite E in Ha. by destruct Ha. }
    rewrite file_item_src, file_item_dst in *.
    assert (Hnew : plan_file fnmatch self src_fs (disk w') rel_dir f
                   = inr (mkItem SKIP (src_root self ++ rel_dir ++ [f])
                                 (dst_root self ++ rel_dir ++ [f]) "same size+mtime")).
    { unfold plan_file. rewrite Hpat, <- (assoc_L (++)).
      by erewrite decide_after_copy. }
    destruct (visited_file_in_plan _ _ _ _ _ _ _ _ _ _ _ Hwalk' Hv Hs Hf)
      as (it' & Hit' & Hin').
    rewrite Hnew in Hit'. by injection Hit' as <-.
  - intros Hw. eexists. apply walk_complete.
    intros rel_dir dirs files f Hv Hs Hf.
    pose proof (walk_inr_files _ _ _ _ _ _ _ _ _ _ _ _ Hwalk Hv Hs Hf) as Hfirst.
    unfold plan_file in Hfirst |- *.
    destruct (_is_file_excluded fnmatch self f); [by eexists |].
    match goal with
    | |- context [_decide src_fs (disk w') ?s ?d] =>
        assert (Hret : ∃ x, _decide src_fs (disk w') s d = inr x);
        [apply decide_returns;
         assert (Hret0 : ∃ x, _decide src_fs dst_fs s d = inr x)
           by (destruct (_decide src_fs dst_fs s d) as [? | [? ?]]; [done | by eexists]);
         apply decide_returns in Hret0 as [? | [b Hb]]; [by left | right];
         unfold path_exists, os_stat in Hb |- *;
         destruct (apply_done_lookup src_fs to_apply obs w w' d Hdsts Hrun)
           as [-> | [[? ->] | ->]];
         [rewrite Hw; by eexists | by eexists | by eexists]
        | destruct Hret as [[a r] ->]; by eexists ]
    end.
Qed.

(** ** The theorems at the worked example *)

Local Ltac elem_at :=
  vm_compute; repeat first [apply list_elem_of_here | apply list_elem_of_further].

Lemma example_plan :
  plan glob_fnmatch false Example.self (inr Example.source)
       Example.src_fs Example.dst_fs = inr Example.items.
Proof. vm_compute. reflexivity. Defined.

Lemma example_visited_root :
  visited false Example.self [] Example.source [] Example.top_dirs Example.top_files.
Proof. by apply visited_top. Defined.

Lemma example_visited_build :
  visited false Example.self [] Example.source ["build"]
          Example.build_dirs ["tmp.o"; "TMP.O"].
Proof.
  apply (visited_child false Example.self [] Example.source []
           Example.top_dirs Example.top_files "build").
  - exact example_visited_root.
  - reflexivity.
  - elem_at.
  - compute_done.
Defined.

Lemma example_visited_scripts :
  visited false Example.self [] Example.source ["scripts"] Example.scripts_dirs [].
Proof.
  apply (visited_child false Example.self [] Example.source []
           Example.top_dirs Example.top_files "scripts").
  - exact example_visited_root.
  - reflexivity.
  - elem_at.
  - compute_done.
Defined.

Lemma example_visited_output :
  visited false Example.self [] Example.source ["scripts"; "output"]
          [("logs", Node [] ["l.txt"])] ["log.txt"].
Proof.
  apply (visited_child false Example.self [] Example.source ["scripts"]
           Example.scripts_dirs [] "output").
  - exact example_visited_scripts.
  - reflexivity.
  - elem_at.
  - compute_done.
Defined.

Lemma example_wf : wf_tree Example.source.
Proof.
  repeat first
    [ apply wf_Node; [compute_done |]
    | apply List.Forall_cons
    | apply List.Forall_nil ].
Defined.

Lemma C10_witness :
  plan glob_fnmatch false Example.self (inr Example.source)
       Example.src_fs Example.dst_fs = inr Example.items
  ∧ (∀ it, it ∈ Example.items →
       ∃ rel, relative_to (src it) ["srv"; "app"] = Some rel
              ∧ src it = ["srv"; "app"] ++ rel
              ∧ dst it = ["mirror"] ++ rel
              ∧ (act it = ADD ∨ act it = UPDATE → rel ≠ []))
  ∧ ∃ new,
      trace (SyncApplier.apply true Example.src_fs Example.items [Example.stuck]
               Example.start).2
      = trace Example.start ++ new
      ∧ Forall (λ ev, ∀ p, p ∈ written (ev_call ev) →
                  ["mirror"] `prefix_of` p
                  ∨ ((∃ q, ev_call ev = Mkdir q)
                     ∧ p ≠ [] ∧ p `prefix_of` ["mirror"])) new.
Proof.
  destruct (C10_path_correspondence glob_fnmatch false Example.self
              (inr Example.source) Example.src_fs Example.dst_fs
              Example.items example_plan) as [Hrel Hwritten].
  split; [exact example_plan |]. split; [exact Hrel |].
  exact (Hwritten true [Example.stuck] Example.start _ _ (surjective_pairing _)).
Defined.

Lemma C8_witness :
  mkItem EXCLUDE ["srv"; "app"; "build"; "TMP.O"] ["mirror"; "build"; "TMP.O"] "pattern"
  ∈ Example.items
  ∧ plan_file_probes glob_fnmatch Example.self Example.src_fs Example.dst_fs
                     ["build"] "TMP.O"
    = ([], inr (mkItem EXCLUDE ["srv"; "app"; "build"; "TMP.O"]
                       ["mirror"; "build"; "TMP.O"] "pattern")).
Proof.
  assert (Hfile : "TMP.O" ∈ ["tmp.o"; "TMP.O"]) by compute_done.
  assert (Hpat : ∃ pat, pat ∈ file_patterns (excludes Example.config)
                        ∧ glob_fnmatch (lower "TMP.O") (lower pat) = true).
  { exists "*.o". split; [compute_done | reflexivity]. }
  destruct (C8_pattern_excluded glob_fnmatch false Example.config Example.source
              Example.src_fs Example.dst_fs ["build"] Example.build_dirs
              ["tmp.o"; "TMP.O"] "TMP.O" example_visited_build eq_refl Hfile Hpat)
    as (Hin & Hprobes & _).
  split; [exact (Hin Example.items example_plan) | exact Hprobes].
Defined.

Lemma example_visited_deep :
  visited false Example.self [] Example.source ["build"; "node_modules"] [] ["deep.js"].
Proof.
  apply (visited_child false Example.self [] Example.source ["build"]
           Example.build_dirs ["tmp.o"; "TMP.O"] "node_modules").
  - exact example_visited_build.
  - reflexivity.
  - elem_at.
  - compute_done.
Defined.

Lemma C5_witness :
  filter (λ it, reason it = "root_dir") Example.items
  = [mkItem EXCLUDE ["srv"; "app"; "node_modules"] ["mirror"; "node_modules"]
            "root_dir"]
  ∧ walk glob_fnmatch false Example.self Example.src_fs Example.dst_fs ["build"]
         (Node Example.build_dirs ["tmp.o"; "TMP.O"])
    = walk glob_fnmatch false (without_root_excl Example.self)
           Example.src_fs Example.dst_fs ["build"]
           (Node Example.build_dirs ["tmp.o"; "TMP.O"])
  ∧ visited false Example.self [] Example.source ["build"; "node_modules"] []
            ["deep.js"]
  ∧ ∃ it, it ∈ Example.items
          ∧ src it = ["srv"; "app"; "build"; "node_modules"; "deep.js"]
          ∧ dst it = ["mirror"; "build"; "node_modules"; "deep.js"].
Proof.
  destruct (C5_root_only_scoping glob_fnmatch false Example.self Example.src_fs
              Example.dst_fs Example.top_dirs Example.top_files Example.items
              example_plan) as (Hroot & _ & Hdeep & Hbelow).
  assert (Hrel : ["build"] ≠ ([] : path)) by discriminate.
  assert (Hdir : ("node_modules", Node [] ["deep.js"]) ∈ Example.build_dirs)
    by elem_at.
  assert (Hname : lower "node_modules" ∈ _root_excl Example.self) by compute_done.
  assert (Hrec : lower "node_modules" ∉ _rec_excl Example.self) by compute_done.
  destruct (Hbelow ["build"] Example.build_dirs ["tmp.o"; "TMP.O"] "node_modules"
              [] ["deep.js"] example_visited_build Hrel eq_refl Hdir Hname Hrec)
    as [Hvisited Hfiles].
  assert (Hfile : "deep.js" ∈ ["deep.js"]) by elem_at.
  destruct (Hfiles eq_refl "deep.js" Hfile) as (it & _ & Hin & Hsrc & Hdst).
  split; [rewrite Hroot; reflexivity |].
  split; [apply Hdeep; discriminate |].
  split; [exact Hvisited |].
  exists it. split; [exact Hin |]. split; [exact Hsrc | exact Hdst].
Defined.

Lemma C1_witness :
  matches_ci "__PyCache__" (y_recursive_dirs Example.yaml)
  ∧ rec_item Example.self ["build"] "__PyCache__" ∈ Example.items
  ∧ filter (λ it, src it = ["srv"; "app"; "build"; "__PyCache__"]) Example.items
    = [rec_item Example.self ["build"] "__PyCache__"].
Proof.
  assert (Hm : matches_ci "__PyCache__" (y_recursive_dirs Example.yaml)).
  { exists "__pycache__". split; [compute_done | reflexivity]. }
  destruct (C1_recursive_dirs glob_fnmatch false ["srv"; "app"] ["mirror"]
              Example.yaml Example.source Example.src_fs Example.dst_fs
              Example.items example_plan) as (Hemit & _ & _).
  assert (Hname : "__PyCache__" ∈ Example.build_dirs.*1) by compute_done.
  assert (Hroot : ¬ (["build"] = [] ∧ matches_ci "__PyCache__" (y_root_dirs Example.yaml))).
  { intros [? _]. discriminate. }
  destruct (Hemit ["build"] Example.build_dirs ["tmp.o"; "TMP.O"] "__PyCache__"
              example_visited_build eq_refl Hname Hm Hroot) as [Hin Huniq].
  split; [exact Hm |]. split; [exact Hin | exact (Huniq example_wf)].
Defined.

Lemma C3_witness :
  _is_under_specific false Example.self ["scripts"; "output2"] = false
  ∧ specific_item Example.self ["scripts"; "output"] ∈ Example.items
  ∧ ∀ it q, it ∈ Example.items →
            src it = ["srv"; "app"; "scripts"; "output"] ++ q → q = [].
Proof.
  destruct (C3_specific_path_prefix glob_fnmatch false Example.self Example.source
              Example.src_fs Example.dst_fs Example.items example_plan)
    as (_ & _ & Hex & Hitem & Hinside).
  split; [exact (proj1 (Hex eq_refl)) |].
  split; [exact (proj1 (Hitem _ _ _ example_visited_output eq_refl)) |].
  intros it q Hit Hsrc. destruct q as [|x q]; [reflexivity |].
  assert (Hq : x :: q ≠ []) by discriminate.
  pose proof (Hinside it ["scripts"; "output"] (x :: q) Hit Hsrc Hq) as Hno.
  discriminate Hno.
Defined.

Lemma example_walk :
  walk glob_fnmatch false Example.self Example.src_fs Example.dst_fs [] Example.source
  = inr Example.items.
Proof. exact example_plan. Defined.

Lemma replan_skips_applied_witness :
  ∃ w' items',
    SyncApplier.apply true Example.src_fs
      (filter (λ it, act it = ADD ∨ act it = UPDATE) Example.items)
      [] Example.start = (inr (), w')
    ∧ walk glob_fnmatch false Example.self Example.src_fs (disk w') [] Example.source
      = inr items'
    ∧ mkItem SKIP ["srv"; "app"; "build"; "node_modules"; "deep.js"]
             ["mirror"; "build"; "node_modules"; "deep.js"] "same size+mtime"
      ∈ items'.
Proof.
  destruct (SyncApplier.apply true Example.src_fs
              (filter (λ it, act it = ADD ∨ act it = UPDATE) Example.items)
              [] Example.start) as [r w'] eqn:Hrun.
  assert (Hr : r = inr ()).
  { pose proof (f_equal fst Hrun) as Hfst. cbn [fst] in Hfst.
    rewrite <- Hfst. by vm_compute. }
  subst r.
  assert (Hin : mkItem UPDATE ["srv"; "app"; "build"; "node_modules"; "deep.js"]
                       ["mirror"; "build"; "node_modules"; "deep.js"]
                       "size ≠, mtime ="
                ∈ filter (λ it, act it = ADD ∨ act it = UPDATE) Example.items).
  { elem_at. }
  assert (Hfree : ∀ it it',
            it ∈ filter (λ it, act it = ADD ∨ act it = UPDATE) Example.items →
            it' ∈ filter (λ it, act it = ADD ∨ act it = UPDATE) Example.items →
            with_suffix_added (dst it') ".part" ≠ dst it).
  { assert (Hall :
      Forall (λ it, Forall (λ it', with_suffix_added (dst it') ".part" ≠ dst it)
                (filter (λ it, act it = ADD ∨ act it = UPDATE) Example.items))
             (filter (λ it, act it = ADD ∨ act it = UPDATE) Example.items))
      by compute_done.
    intros it it' Hit Hit'. rewrite Forall_forall in Hall.
    specialize (Hall it Hit). rewrite Forall_forall in Hall. exact (Hall it' Hit'). }
  destruct (replan_skips_applied glob_fnmatch false Example.self Example.source
              Example.src_fs Example.dst_fs [] Example.start w' Example.items
              example_wf example_walk Hfree Hrun) as [Hskip Hdone].
  destruct (Hdone eq_refl) as [items' Hitems'].
  exists w', items'. split; [reflexivity |]. split; [exact Hitems' |].
  exact (Hskip _ Hin items' Hitems').
Defined.

(** ** Long paths *)

Lemma to_long_path_prefixed p : startswith (_to_long_path true p) "\\?\" = true.
Proof.
  unfold _to_long_path. cbn [negb].
  destruct (startswith p "\\?\") eqn:E; [exact E |].
  destruct (startswith p "\\"); apply startswith_spec; eexists; reflexivity.
Qed.

Lemma length_append (a b : string) :
  String.length (a +:+ b) = String.length a + String.length b.
Proof.
  induction a as [|x a IH]; [done |]. rewrite append_cons. simpl. by rewrite IH.
Qed.

(** X1. [_to_long_path] adds the prefix once: applied to its own result it
    changes nothing.  On Windows the result always carries the prefix;
    elsewhere the path is returned as it is. *)
Theorem to_long_path_idempotent IS_WINDOWS p :
  _to_long_path IS_WINDOWS (_to_long_path IS_WINDOWS p) = _to_long_path IS_WINDOWS p
  ∧ if IS_WINDOWS then startswith (_to_long_path IS_WINDOWS p) "\\?\" = true
    else _to_long_path IS_WINDOWS p = p.
Proof.
  destruct IS_WINDOWS; [| done].
  split; [| apply to_long_path_prefixed].
  unfold _to_long_path at 1. cbn [negb].
  by rewrite to_long_path_prefixed.
Qed.

(** X2. [_short] undoes [_long] exactly for the paths that do not already
    carry the long-path prefix and whose text does not start with [UNC\]:
    on Windows a path spelled [UNC\x] comes back as [\\x], and a path that
    already has the prefix loses it. *)
Theorem short_long_round_trip IS_WINDOWS p :
  _short IS_WINDOWS (_long IS_WINDOWS p) = p
  ↔ IS_WINDOWS && (startswith p "\\?\" || startswith p "UNC\") = false.
Proof.
  destruct IS_WINDOWS; [| done].
  unfold _long, _to_long_path. cbn [negb andb].
  destruct (startswith p "\\?\") eqn:E1.
  - cbn [orb]. split; [| done]. intros Hp. exfalso. revert Hp.
    unfold _short. cbn [andb]. rewrite E1.
    destruct (startswith p "\\?\UNC\") eqn:E0.
    + apply startswith_spec in E0 as [r ->].
      change (str_from 7 ("\\?\UNC\" +:+ r)) with ("\" +:+ r). intros Hp.
      apply (f_equal String.length) in Hp. rewrite !length_append in Hp.
      simpl in Hp. lia.
    + apply startswith_spec in E1 as [r ->].
      change (str_from 4 ("\\?\" +:+ r)) with r. intros Hp.
      apply (f_equal String.length) in Hp. rewrite !length_append in Hp.
      simpl in Hp. lia.
  - cbn [orb]. destruct (startswith p "\\") eqn:E2.
    + apply startswith_spec in E2 as [r ->]. split; [reflexivity |]. intros _.
      unfold _short. cbn [andb].
      assert (startswith ("\\?\UNC" +:+ str_from 1 ("\\" +:+ r)) "\\?\UNC\" = true)
        as -> by (apply startswith_spec; eexists; reflexivity).
      reflexivity.
    + unfold _short. cbn [andb].
      assert (startswith ("\\?\" +:+ p) "\\?\UNC\" = startswith p "UNC\") as ->
        by reflexivity.
      assert (startswith ("\\?\" +:+ p) "\\?\" = true) as ->
        by (apply startswith_spec; eexists; reflexivity).
      change (str_from 4 ("\\?\" +:+ p)) with p.
      destruct (startswith p "UNC\") eqn:E3; [| done].
      apply startswith_spec in E3 as [r ->]. split; [| done].
      change (str_from 7 ("\\?\" +:+ "UNC\" +:+ r)) with ("\" +:+ r). intros Hp.
      apply (f_equal String.length) in Hp. rewrite !length_append in Hp.
      simpl in Hp. lia.
Qed.

(** ** The loaded configuration *)

Lemma ascii_lower_idemp c : ascii_lower (ascii_lower c) = ascii_lower c.
Proof. by destruct c as [[] [] [] [] [] [] [] []]. Qed.

Lemma lower_idemp s : lower (lower s) = lower s.
Proof.
  induction s as [|c s IH]; [done |]. simpl. by rewrite ascii_lower_idemp, IH.
Qed.

Lemma ascii_lower_slash c : Ascii.eqb (ascii_lower c) slash = Ascii.eqb c slash.
Proof. by destruct c as [[] [] [] [] [] [] [] []]. Qed.

Lemma contains_slash_lower s : contains slash (lower s) = contains slash s.
Proof.
  induction s as [|c s IH]; [done |]. simpl. by rewrite ascii_lower_slash, IH.
Qed.

Lemma contains_replace_slash s : contains slash (replace slash backslash s) = false.
Proof.
  induction s as [|c s IH]; [done |]. simpl. rewrite IH.
  by destruct (Ascii.eqb_spec c slash) as [-> | Hne%Ascii.eqb_neq]; [| rewrite Hne].
Qed.

Lemma lower_nil s : lower s = "" → s = "".
Proof. by destruct s. Qed.

(** The two forms a normalized specific path can have been written in:
    it keeps its trailing separator. *)
Lemma normalize_trailing s :
  (∃ s', s = s' +:+ "/" ∨ s = s' +:+ "\") →
  ∃ sp', lower (replace slash backslash s) = sp' +:+ "\".
Proof.
  intros [s' [-> | ->]]; exists (lower (replace slash backslash s'));
    by rewrite replace_append, lower_append.
Qed.

(** X3. What [from_yaml] stores is normalized: the directory names of both
    sets are lower-case, every specific path is lower-case and free of
    forward slashes, the file patterns are kept as written.  Loading the
    stored values again gives the same configuration. *)
Theorem from_yaml_normalized src dst excl :
  let ex := excludes (from_yaml src dst excl) in
  set_Forall (λ n, lower n = n) (root_dirs ex)
  ∧ set_Forall (λ n, lower n = n) (recursive_dirs ex)
  ∧ Forall (λ sp, lower sp = sp ∧ contains slash sp = false
                  ∧ replace slash backslash sp = sp) (specific_paths ex)
  ∧ file_patterns ex = y_file_patterns excl
  ∧ from_yaml src dst
      {| y_root_dirs := elements (root_dirs ex);
         y_recursive_dirs := elements (recursive_dirs ex);
         y_file_patterns := file_patterns ex;
         y_specific_paths := specific_paths ex |}
    = from_yaml src dst excl.
Proof.
  assert (Hset : ∀ l : list string,
            set_Forall (λ n, lower n = n) (list_to_set (lower <$> l) : gset string)).
  { intros l n (x & -> & _)%elem_of_list_to_set%list_elem_of_fmap. apply lower_idemp. }
  assert (Hsp : ∀ s, let sp := lower (replace slash backslash s) in
            lower sp = sp ∧ contains slash sp = false
            ∧ replace slash backslash sp = sp).
  { intros s sp.
    assert (Hno : contains slash sp = false)
      by (unfold sp; by rewrite contains_slash_lower, contains_replace_slash).
    split; [apply lower_idemp |]. split; [done | by apply replace_absent]. }
  assert (Hre : ∀ l : list string,
            list_to_set (lower <$> elements (list_to_set (lower <$> l) : gset string))
            = (list_to_set (lower <$> l) : gset string)).
  { intros l. apply set_eq. intros n.
    rewrite elem_of_list_to_set, list_elem_of_fmap. split.
    - intros (x & -> & Hx%elem_of_elements). by rewrite (Hset l x Hx).
    - intros Hn. exists n. split; [by rewrite (Hset l n Hn) | by apply elem_of_elements]. }
  cbv zeta. unfold from_yaml. cbn [excludes root_dirs recursive_dirs specific_paths
    file_patterns y_root_dirs y_recursive_dirs y_file_patterns y_specific_paths].
  split_and!.
  - apply Hset.
  - apply Hset.
  - apply Forall_fmap, Forall_forall. intros s _. apply Hsp.
  - done.
  - rewrite !Hre. do 2 f_equal. rewrite <- list_fmap_compose.
    apply fmap_pointwise. intros s. simpl.
    destruct (Hsp s) as (Hl & _ & Hr). cbv zeta in Hl, Hr. by rewrite Hr, Hl.
Qed.

(** X4. The directory names of [root_dirs] and [recursive_dirs] are read as
    sets of lower-cased names: two documents that name the same
    directories up to letter case, order and repetition load to the same
    configuration. *)
Theorem from_yaml_names_as_sets src dst e1 e2 :
  (∀ n, matches_ci n (y_root_dirs e1) ↔ matches_ci n (y_root_dirs e2)) →
  (∀ n, matches_ci n (y_recursive_dirs e1) ↔ matches_ci n (y_recursive_dirs e2)) →
  y_file_patterns e1 = y_file_patterns e2 →
  y_specific_paths e1 = y_specific_paths e2 →
  from_yaml src dst e1 = from_yaml src dst e2.
Proof.
  assert (Hset : ∀ l1 l2 : list string,
            (∀ n, matches_ci n l1 ↔ matches_ci n l2) →
            (list_to_set (lower <$> l1) : gset string) = list_to_set (lower <$> l2)).
  { intros l1 l2 Hl. apply set_eq. intros n. split.
    - intros (x & -> & Hx)%elem_of_list_to_set%list_elem_of_fmap.
      apply from_yaml_matches, Hl. by exists x.
    - intros (x & -> & Hx)%elem_of_list_to_set%list_elem_of_fmap.
      apply from_yaml_matches, Hl. by exists x. }
  intros Hroot Hrec Hpat Hspec. unfold from_yaml.
  by rewrite (Hset _ _ Hroot), (Hset _ _ Hrec), Hpat, Hspec.
Qed.

Lemma bind_all_nil {A B} (f : A → list B) (l : list A) :
  (∀ x, f x = []) → l ≫= f = [].
Proof.
  intros Hf. induction l as [|x l IH]; [done |]. by rewrite bind_cons, Hf, IH.
Qed.

Section specific_edges.
Context (fnmatch : string → string → bool) (IS_WINDOWS : bool).

(** X5. A specific path written with a trailing separator never matches: if
    every entry of [specific_paths] in the YAML document ends in [/] or
    [\], no directory with proper names is under a specific path. *)
Theorem specific_trailing_separator src dst excl (rel_dir : path) :
  Forall (λ s, ∃ s', s = s' +:+ "/" ∨ s = s' +:+ "\") (y_specific_paths excl) →
  Forall (λ n, entry_name n ∧ n ≠ "") rel_dir →
  _is_under_specific IS_WINDOWS (SyncPlanner_init (from_yaml src dst excl)) rel_dir
  = false.
Proof.
  intros Hsp Hnames. apply not_true_is_false.
  intros (sp & Hin & Hpre)%is_under_specific_segments.
  cbn [SyncPlanner_init _specific_excl from_yaml excludes specific_paths] in Hin.
  apply list_elem_of_fmap in Hin as (s & -> & Hs).
  rewrite Forall_forall in Hsp. destruct (normalize_trailing s (Hsp s Hs)) as [sp' Hsp'].
  rewrite Hsp' in Hpre. change (sp' +:+ "\") with (sp' +:+ String backslash "") in Hpre.
  rewrite split_app_sep in Hpre. change (split backslash "") with [""] in Hpre.
  destruct rel_dir as [|x l].
  - change (split backslash (_rel_str IS_WINDOWS [])) with ["."] in Hpre.
    apply prefix_length in Hpre. rewrite length_app in Hpre. simpl in Hpre.
    pose proof (split_nonempty backslash sp') as Hne.
    destruct (split backslash sp'); [done | simpl in Hpre; lia].
  - rewrite rel_str_segments in Hpre;
      [| done | eapply Forall_impl; [done | by intros ? [? _]]].
    assert (Hempty : "" ∈ lower <$> x :: l).
    { destruct Hpre as [k ->]. apply elem_of_app. left. apply elem_of_app. right.
      apply list_elem_of_here. }
    apply list_elem_of_fmap in Hempty as (n & Hn & Hin).
    rewrite Forall_forall in Hnames. destruct (Hnames n Hin) as [_ Hne].
    by apply Hne, lower_nil.
Qed.

Lemma normalized_segments (sep : string) (segs : path) :
  sep = "/" ∨ sep = "\" → segs ≠ [] → Forall entry_name segs →
  split backslash (lower (replace slash backslash (join sep segs))) = lower <$> segs.
Proof.
  intros Hsep Hne Hnames.
  rewrite replace_join by (eapply Forall_impl; [done | by intros ? [? _]]).
  assert (replace slash backslash sep = String backslash "") as ->
    by (by destruct Hsep as [-> | ->]).
  rewrite lower_join. change (lower (String backslash "")) with (String backslash "").
  apply split_join; [by destruct segs |].
  apply Forall_fmap. eapply Forall_impl; [done |]. intros s [_ Hs]. simpl.
  by rewrite contains_lower.
Qed.

(** X6. A specific path is matched by segments, case-insensitively, and
    whichever separator the YAML document writes it with: a directory is
    under the path written [a/b] or [a\b] exactly when the lower-cased
    names [a], [b] are the first names, lower-cased, of its relative
    path. *)
Theorem specific_path_as_written src dst excl (sep : string) (segs rel_dir : path) :
  sep = "/" ∨ sep = "\" →
  y_specific_paths excl = [join sep segs] →
  segs ≠ [] → Forall entry_name segs →
  rel_dir ≠ [] → Forall entry_name rel_dir →
  _is_under_specific IS_WINDOWS (SyncPlanner_init (from_yaml src dst excl)) rel_dir
  = true
  ↔ lower <$> segs `prefix_of` lower <$> rel_dir.
Proof.
  intros Hsep Hy Hne Hsegs Hrel Hnames.
  rewrite is_under_specific_segments, rel_str_segments by done.
  cbn [SyncPlanner_init _specific_excl from_yaml excludes specific_paths].
  rewrite Hy. cbn [fmap list_fmap]. split.
  - intros (sp & ->%list_elem_of_singleton & Hpre).
    by rewrite normalized_segments in Hpre.
  - intros Hpre. eexists. split; [apply list_elem_of_here |].
    by rewrite normalized_segments.
Qed.

(** X7. The specific path [.] names the source root itself: the plan is then
    the single item that excludes the root, whatever the tree holds. *)
Theorem specific_dot_excludes_all self dirs files src_fs dst_fs :
  "." ∈ _specific_excl self →
  plan fnmatch IS_WINDOWS self (inr (Node dirs files)) src_fs dst_fs
  = inr [specific_item self []].
Proof.
  intros Hdot.
  assert (Hs : _is_under_specific IS_WINDOWS self [] = true).
  { apply is_under_specific_segments. exists ".". split; [done |].
    by destruct IS_WINDOWS. }
  unfold plan. rewrite walk_complete.
  - f_equal. cbn [walk_items]. rewrite visit_specific by done. cbn [fst].
    rewrite Hs. by rewrite bind_all_nil.
  - intros rel_dir ds fl f Hv Hrel.
    assert (rel_dir = []) as ->; [| congruence].
    clear Hrel. induction Hv as [| ? ? ? ? ? ? ? IH Hs' ]; [done |].
    rewrite IH in Hs'. congruence.
Qed.
End specific_edges.

(** ** The plan as a whole *)

Lemma sublist_bind {A B} (f g : A → list B) (l : list A) :
  (∀ x, x ∈ l → f x `sublist_of` g x) → l ≫= f `sublist_of` l ≫= g.
Proof.
  induction l as [|x l IH]; intros H; [done |]. rewrite !bind_cons.
  apply sublist_app; [apply H, list_elem_of_here |].
  apply IH. intros y Hy. by apply H, list_elem_of_further.
Qed.

Lemma filter_bind {A B} (P : B → Prop) `{∀ x, Decision (P x)}
    (f : A → list B) (l : list A) :
  filter P (l ≫= f) = l ≫= (λ x, filter P (f x)).
Proof.
  induction l as [|x l IH]; [done |]. by rewrite !bind_cons, filter_app, IH.
Qed.

Lemma filter_cons_app {A} (P : A → Prop) `{∀ x, Decision (P x)} (x : A) (l : list A) :
  filter P (x :: l) = filter P [x] ++ filter P l.
Proof. apply (filter_app P [x] l). Qed.

Section plan_facts.
Context (fnmatch : string → string → bool) (IS_WINDOWS : bool).

Local Abbreviation copies := (λ it : PlanItem, act it = ADD ∨ act it = UPDATE).

(** X8. With unique names in every directory of the source, no source path
    and no destination path is planned twice. *)
Theorem plan_paths_distinct self root src_fs dst_fs items :
  wf_tree root →
  plan fnmatch IS_WINDOWS self (inr root) src_fs dst_fs = inr items →
  NoDup (src <$> items) ∧ NoDup (dst <$> items).
Proof.
  intros Hwf (? & [= <-] & _ & ->)%plan_inr.
  assert (Hsrc : NoDup (src <$> walk_items fnmatch IS_WINDOWS self src_fs dst_fs [] root))
    by (by apply walk_NoDup_src).
  split; [done |].
  apply (NoDup_fmap_transfer src); [| done].
  intros x y Hx Hy Hxy.
  apply walk_item_rel in Hx as (rx & _ & -> & Hdx & _).
  apply walk_item_rel in Hy as (ry & _ & -> & Hdy & _).
  rewrite Hdx, Hdy in Hxy. by apply app_inv_head in Hxy as ->.
Qed.

(** X9. A sub-directory that is a symbolic link, or that cannot be listed,
    contributes nothing to the plan: no item is planned for it or for
    anything below it, except the record of its exclusion when its name
    is excluded. *)
Theorem unlisted_directory_dropped self src_fs dst_fs top dirs files name sub items it :
  wf_tree (Node dirs files) →
  (name, sub) ∈ dirs →
  (sub = DirLink ∨ ∃ e, sub = ScandirError e) →
  walk fnmatch IS_WINDOWS self src_fs dst_fs top (Node dirs files) = inr items →
  it ∈ items →
  src_root self ++ top ++ [name] `prefix_of` src it →
  src it = src_root self ++ top ++ [name]
  ∧ act it = EXCLUDE
  ∧ pruned self top name.
Proof.
  intros Hwf Hd Hsub ->%walk_inr Hit Hpre.
  inversion Hwf as [? ? Hnd _ | |]; subst.
  assert (Hname : name ∈ dirs.*1) by (apply list_elem_of_fmap; by exists (name, sub)).
  apply elem_of_walk_Node in Hit as [Hit | (name' & sub' & Hd' & _ & _ & Hit)].
  - apply elem_of_visit in Hit
      as [[_ ->] | [_ [(r & _ & Hr & ->) | [(r & _ & Hr & ->) | (f & Hf & ->)]]]].
    + exfalso. cbn [src specific_item] in Hpre.
      apply prefix_app_inv, prefix_length in Hpre.
      rewrite length_app in Hpre. simpl in Hpre. lia.
    + cbn [src root_item act] in *.
      apply prefix_app_inv, prefix_app_inv, prefix_cons_inv_1 in Hpre as ->.
      split_and!; [done | done |]. destruct Hr as [-> Hr]. by left.
    + cbn [src rec_item act] in *.
      apply prefix_app_inv, prefix_app_inv, prefix_cons_inv_1 in Hpre as ->.
      split_and!; [done | done |]. destruct Hr as [_ Hr]. by right.
    + exfalso. rewrite file_item_src in Hpre.
      apply prefix_app_inv, prefix_app_inv, prefix_cons_inv_1 in Hpre as ->.
      apply NoDup_app in Hnd as (_ & Hdisj & _). by apply (Hdisj f).
  - exfalso. pose proof Hit as Hit'.
    apply walk_item_paths in Hit' as (q & Hsrc & _). rewrite Hsrc in Hpre.
    rewrite <- (assoc_L (++) top) in Hpre.
    apply prefix_app_inv, prefix_app_inv in Hpre. cbn [app] in Hpre.
    apply prefix_cons_inv_1 in Hpre as <-.
    apply NoDup_app in Hnd as (Hnd & _ & _).
    rewrite (NoDup_fst_agree dirs name sub' sub Hnd Hd' Hd) in Hit.
    destruct Hsub as [-> | [e ->]]; by apply elem_of_nil in Hit.
Qed.

Section more_excludes.
Context (self self' : SyncPlanner) (src_fs dst_fs : fs).
Hypothesis same_src : src_root self' = src_root self.
Hypothesis same_dst : dst_root self' = dst_root self.
Hypothesis more_root : _root_excl self ⊆ _root_excl self'.
Hypothesis more_rec : _rec_excl self ⊆ _rec_excl self'.
Hypothesis more_patterns : _file_patterns self ⊆ _file_patterns self'.
Hypothesis more_specific : _specific_excl self ⊆ _specific_excl self'.

Lemma specific_mono rel_dir :
  _is_under_specific IS_WINDOWS self rel_dir = true →
  _is_under_specific IS_WINDOWS self' rel_dir = true.
Proof.
  rewrite !is_under_specific_segments. intros (sp & Hsp & Hpre).
  exists sp. split; [by apply more_specific | done].
Qed.

Lemma file_excluded_mono name :
  _is_file_excluded fnmatch self name = true →
  _is_file_excluded fnmatch self' name = true.
Proof.
  unfold _is_file_excluded. rewrite !existsb_exists.
  intros (pat & Hpat%list_elem_of_In & Hm). exists pat.
  split; [by apply list_elem_of_In, more_patterns | done].
Qed.

Lemma pruned_mono rel_dir name :
  pruned self rel_dir name → pruned self' rel_dir name.
Proof.
  unfold pruned. intros [[-> Hr] | Hr]; [left | right]; set_solver.
Qed.

Lemma plan_file_mono rel_dir f :
  filter copies [file_item fnmatch self' src_fs dst_fs rel_dir f]
  `sublist_of` filter copies [file_item fnmatch self src_fs dst_fs rel_dir f].
Proof.
  destruct (_is_file_excluded fnmatch self' f) eqn:E'.
  - unfold file_item, plan_file at 1. rewrite E'.
    rewrite filter_cons_False by (simpl; by intros [? | ?]). apply sublist_nil_l.
  - assert (E : _is_file_excluded fnmatch self f = false).
    { destruct (_is_file_excluded fnmatch self f) eqn:E; [| done].
      apply file_excluded_mono in E. congruence. }
    unfold file_item, plan_file. by rewrite E, E', same_src, same_dst.
Qed.

Lemma plan_files_mono rel_dir files :
  filter copies (file_item fnmatch self' src_fs dst_fs rel_dir <$> files)
  `sublist_of` filter copies (file_item fnmatch self src_fs dst_fs rel_dir <$> files).
Proof.
  induction files as [|f files IH]; [done |]. rewrite !fmap_cons.
  rewrite (filter_cons_app _ (file_item fnmatch self' src_fs dst_fs rel_dir f)).
  rewrite (filter_cons_app _ (file_item fnmatch self src_fs dst_fs rel_dir f)).
  apply sublist_app; [apply plan_file_mono | exact IH].
Qed.

Lemma filter_excluded {A} (f : A → PlanItem) (l : list A) :
  (∀ x, act (f x) = EXCLUDE) → filter copies (f <$> l) = [].
Proof.
  intros Hf. induction l as [|x l IH]; [done |]. rewrite fmap_cons.
  rewrite filter_cons_False; [done |]. rewrite Hf. by intros [? | ?].
Qed.

Lemma walk_mono rel_dir t :
  filter copies (walk_items fnmatch IS_WINDOWS self' src_fs dst_fs rel_dir t)
  `sublist_of` filter copies (walk_items fnmatch IS_WINDOWS self src_fs dst_fs rel_dir t).
Proof.
  revert rel_dir. induction t as [dirs files IH | e |] using tree_ind';
    intros rel_dir; [| done | done].
  cbn [walk_items]. rewrite !filter_app, !filter_bind.
  destruct (_is_under_specific IS_WINDOWS self' rel_dir) eqn:Hs'.
  - rewrite visit_specific by done. cbn [fst].
    rewrite filter_cons_False by (simpl; by intros [? | ?]).
    rewrite bind_all_nil by done. apply sublist_nil_l.
  - assert (Hs : _is_under_specific IS_WINDOWS self rel_dir = false).
    { destruct (_is_under_specific IS_WINDOWS self rel_dir) eqn:Hs; [| done].
      apply specific_mono in Hs. congruence. }
    rewrite Hs, !visit_not_specific by done. cbn [fst].
    rewrite !filter_app.
    rewrite (filter_excluded (root_item self' rel_dir)),
      (filter_excluded (rec_item self' rel_dir)),
      (filter_excluded (root_item self rel_dir)),
      (filter_excluded (rec_item self rel_dir)) by done.
    cbn [app].
    apply sublist_app; [apply plan_files_mono |].
    apply sublist_bind. intros [name sub] Hd. cbn [fst snd].
    destruct (decide (pruned self' rel_dir name)) as [Hp' | Hp'];
      [apply sublist_nil_l |].
    destruct (decide (pruned self rel_dir name)) as [Hp | Hp];
      [by apply pruned_mono in Hp |].
    rewrite Forall_forall in IH. apply (IH _ Hd).
Qed.
End more_excludes.

(** X10. Exclusions only remove work: a planner that excludes at least what
    another one does (same roots) plans no copy the other does not plan,
    and plans its copies in the same order. *)
Theorem more_excludes_fewer_copies self self' root src_fs dst_fs items items' :
  src_root self' = src_root self →
  dst_root self' = dst_root self →
  _root_excl self ⊆ _root_excl self' →
  _rec_excl self ⊆ _rec_excl self' →
  _file_patterns self ⊆ _file_patterns self' →
  _specific_excl self ⊆ _specific_excl self' →
  plan fnmatch IS_WINDOWS self (inr root) src_fs dst_fs = inr items →
  plan fnmatch IS_WINDOWS self' (inr root) src_fs dst_fs = inr items' →
  filter (λ it, act it = ADD ∨ act it = UPDATE) items'
  `sublist_of` filter (λ it, act it = ADD ∨ act it = UPDATE) items.
Proof.
  intros Hsrc Hdst Hroot Hrec Hpat Hspec
    (? & [= <-] & _ & ->)%plan_inr (? & [= <-] & _ & ->)%plan_inr.
  by apply walk_mono.
Qed.

End plan_facts.

(** ** Applying a plan *)

Section apply_more.
Context (fnmatch : string → string → bool) (IS_WINDOWS : bool).

Local Abbreviation copies := (λ it : PlanItem, act it = ADD ∨ act it = UPDATE).

(** X11. Whatever part of a plan is applied, and however the operating system
    behaves, every path a call can create, change or remove lies under the
    destination root, but for the directories above the destination
    root, which [mkdir] creates when they are missing. *)
Theorem apply_stays_under_dest pm self root plan_src_fs plan_dst_fs items
    src_fs to_apply obs w r w' :
  plan fnmatch IS_WINDOWS self (inr root) plan_src_fs plan_dst_fs = inr items →
  to_apply ⊆ items →
  SyncApplier.apply pm src_fs to_apply obs w = (r, w') →
  ∃ new,
    trace w' = trace w ++ new
    ∧ Forall (λ ev, Forall (λ p, dst_root self `prefix_of` p
                                 ∨ ((∃ q, ev_call ev = Mkdir q)
                                    ∧ p ≠ [] ∧ p `prefix_of` dst_root self))
                           (written (ev_call ev)))
             new.
Proof.
  intros (? & [= <-] & _ & ->)%plan_inr Hsub Hrun.
  assert (Hrel : ∀ it, it ∈ to_apply → copies it →
            ∃ rel_dir name, dst it = dst_root self ++ rel_dir ++ [name]).
  { intros it Hin Ha. apply Hsub, walk_item_rel in Hin as (rel & _ & _ & Hdst & Hne).
    specialize (Hne Ha). destruct rel as [|x rel _] using rev_ind; [done |].
    by exists rel, x. }
  apply apply_written in Hrun as (new & Htrace & Hnew & _).
  - exists new. split; [done |]. eapply Forall_impl; [exact Hnew |].
    intros ev (it & Hin & Ha & Hw). apply Forall_forall. intros p Hp.
    destruct (Hrel it Hin Ha) as (rel_dir & name & Hdst).
    apply Hw in Hp. rewrite Hdst in Hp. rewrite (assoc_L (++)) in Hp.
    rewrite parent_snoc, with_suffix_added_snoc in Hp.
    destruct Hp as [[Hc [Hne Hpre]%elem_of_ancestors] | Hp].
    + destruct (prefix_weak_total (dst_root self) p (dst_root self ++ rel_dir))
        as [? | ?]; [by apply prefix_app_r | done | by left |].
      right. split; [by eexists | done].
    + left. repeat (apply elem_of_cons in Hp as [-> | Hp]);
        [| | by apply elem_of_nil in Hp];
        rewrite <- ?(assoc_L (++)); by apply prefix_app_r.
  - apply Forall_forall. intros it Hin Ha.
    destruct (Hrel it Hin Ha) as (rel_dir & name & ->).
    rewrite (assoc_L (++)). by destruct (dst_root self ++ rel_dir).
Qed.
End apply_more.

(** X13. After an item was copied to the end, what the planner decides for it
    depends on [preserve_mtime]: with it the file is up to date; without
    it the copy carries the time of the copy, and the file is planned for
    UPDATE again unless the planner's comparison of doubles finds that
    time within two seconds of the source's modification time. *)
Theorem applied_item_decision pm src_fs ob it w w' :
  dst it ≠ [] →
  SyncApplier.apply_item pm src_fs ob it w = (inr (), w') →
  ∃ d, src_fs !! src it = Some (File d)
       ∧ _decide src_fs (disk w') (src it) (dst it)
         = inr (if pm || within_two (f_mtime d) (now ob)
                then (SKIP, "same size+mtime")
                else (UPDATE, "size =, mtime ≠")).
Proof.
  intros Hdst Hrun.
  apply apply_item_spec in Hrun as (_ & _ & _ & _ & d & Hsrc & _ & _ & Hdisk); [| done].
  exists d. split; [done |].
  assert (Hlookup : disk w' !! dst it = Some (File (copied pm ob d)))
    by (rewrite Hdisk; apply lookup_insert_eq).
  assert (Hsize : bool_decide (st_size (stat_of d)
                               = st_size (stat_of (copied pm ob d))) = true)
    by (by apply bool_decide_eq_true_2).
  unfold _decide, path_exists, os_stat. rewrite Hsrc, Hlookup.
  cbv zeta. rewrite Hsize. cbn [andb].
  destruct pm.
  - change (st_mtime (stat_of (copied true ob d))) with (st_mtime (stat_of d)).
    by rewrite within_two_refl.
  - change (st_mtime (stat_of d)) with (f_mtime d).
    change (st_mtime (stat_of (copied false ob d))) with (now ob).
    cbn [orb]. by destruct (within_two (f_mtime d) (now ob)).
Qed.

(** X14. The applier skips SKIP and EXCLUDE items itself: applying a whole
    plan gives the result and makes the calls of applying its ADD and
    UPDATE items only, each item meeting the same behaviour of the
    operating system. *)
Theorem apply_ignores_skipped pm src_fs items obs w :
  SyncApplier.apply pm src_fs
    (filter (λ it, act it = ADD ∨ act it = UPDATE) items)
    (filter (λ x, act x.1 = ADD ∨ act x.1 = UPDATE) (zip items obs)).*2 w
  = SyncApplier.apply pm src_fs items obs w.
Proof.
  revert obs w. induction items as [|it rest IH]; intros obs w; [done |].
  destruct (decide (act it = ADD ∨ act it = UPDATE)) as [Ha | Ha].
  - rewrite filter_cons_True by done. rewrite !apply_cons by done.
    destruct obs as [|ob obs].
    + specialize (IH []). rewrite zip_with_nil_r in *. simpl in *.
      destruct (SyncApplier.apply_item pm src_fs calm it w) as [[e | []] w1];
        [done | apply IH].
    + simpl zip. rewrite filter_cons_True by done. simpl.
      destruct (SyncApplier.apply_item pm src_fs ob it w) as [[e | []] w1];
        [done | apply IH].
  - rewrite filter_cons_False by done.
    rewrite (apply_skip pm src_fs it rest obs) by (destruct (act it); tauto).
    destruct obs as [|ob obs].
    + specialize (IH []). rewrite zip_with_nil_r in *. apply IH.
    + simpl zip. rewrite filter_cons_False by done. apply IH.
Qed.

(** The loop over a list that continues another. *)
Lemma apply_app pm src_fs l1 l2 obs w :
  SyncApplier.apply pm src_fs (l1 ++ l2) obs w
  = match SyncApplier.apply pm src_fs l1 obs w with
    | (inl e, w1) => (inl e, w1)
    | (inr _, w1) => SyncApplier.apply pm src_fs l2 (drop (length l1) obs) w1
    end.
Proof.
  revert obs w. induction l1 as [|it l1 IH]; intros obs w; [done |].
  rewrite <- app_comm_cons.
  assert (Hdrop : drop (length (it :: l1)) obs = drop (length l1) (tail obs))
    by (destruct obs as [|? ?]; [simpl; by rewrite drop_nil | done]).
  rewrite Hdrop.
  destruct (decide (act it = ADD ∨ act it = UPDATE)) as [Ha | Ha].
  - rewrite !apply_cons by done.
    destruct (SyncApplier.apply_item pm src_fs _ it w) as [[e | []] w1]; [done |].
    apply IH.
  - rewrite !(apply_skip pm src_fs it) by (destruct (act it); tauto). apply IH.
Qed.

(** X15. A failed run is not rolled back: when the loop completes the items
    [done_items] and the next item [it] raises, every file of
    [done_items] stays installed, and the items after [it] are not
    looked at.  (No two of the items share a destination, and no
    temporary path is the destination of one of them.) *)
Theorem failed_apply_keeps_earlier_copies src_fs done_items it rest obs w w1 e w' :
  Forall (λ x, (act x = ADD ∨ act x = UPDATE) ∧ dst x ≠ []) (done_items ++ [it]) →
  NoDup (dst <$> done_items ++ [it]) →
  (∀ x y, x ∈ done_items ++ [it] → y ∈ done_items ++ [it] →
          with_suffix_added (dst y) ".part" ≠ dst x) →
  SyncApplier.apply true src_fs done_items obs w = (inr (), w1) →
  SyncApplier.apply true src_fs (done_items ++ [it]) obs w = (inl e, w') →
  SyncApplier.apply true src_fs (done_items ++ it :: rest) obs w = (inl e, w')
  ∧ ∀ x, x ∈ done_items →
      ∃ d, src_fs !! src x = Some (File d)
           ∧ disk w' !! dst x = Some (File (copied true calm d)).
Proof.
  intros Hall Hnd Htemp Hdone Hfail.
  apply Forall_app in Hall as [Hall [[Ha Hd] _]%Forall_cons].
  rewrite apply_app, Hdone in Hfail. rewrite apply_cons in Hfail by done.
  destruct (SyncApplier.apply_item true src_fs _ it w1) as [[e1 | []] w2] eqn:Hitem;
    [| done].
  injection Hfail as -> ->. split.
  - rewrite apply_app, Hdone. rewrite apply_cons by done. by rewrite Hitem.
  - intros x Hx.
    destruct (apply_installs src_fs done_items obs w w1) with (it := x)
      as (d & Hsrc & Hdst); [| | | | done | done | ].
    + eapply Forall_impl; [exact Hall | by intros ? [? _]].
    + eapply Forall_impl; [exact Hall | by intros ? [_ ?]].
    + rewrite fmap_app in Hnd. by apply NoDup_app in Hnd as [? _].
    + intros a b Hin Hin'. apply Htemp; apply elem_of_app; by left.
    + exists d. split; [done |]. rewrite <- Hdst.
      apply apply_item_spec in Hitem as (_ & _ & _ & Hframe & _); [| done].
      apply Hframe.
      * apply not_eq_sym, Htemp; apply elem_of_app; [by left |].
        right. apply list_elem_of_here.
      * intros Heq. rewrite fmap_app in Hnd.
        apply NoDup_app in Hnd as (_ & Hdisj & _).
        apply (Hdisj (dst x)); [by apply list_elem_of_fmap_2 |].
        rewrite Heq. apply list_elem_of_here.
Qed.

(** [_decide] looks at the destination only at the path it is given. *)
Lemma decide_ext src_fs dst_fs dst_fs' src dst :
  dst_fs' !! dst = dst_fs !! dst →
  _decide src_fs dst_fs' src dst = _decide src_fs dst_fs src dst.
Proof.
  intros H. unfold _decide, path_exists, os_stat. by rewrite H.
Qed.

(** X23. A copy that fails can be tried again: it leaves the destination
    file as it was, so whatever the source holds then, the planner decides
    for this file what it would have decided had the copy not been
    tried. *)
Theorem failed_item_decision_unchanged pm src_fs ob it w e w' src_fs' :
  dst it ≠ [] →
  SyncApplier.apply_item pm src_fs ob it w = (inl e, w') →
  disk w' !! dst it = disk w !! dst it
  ∧ _decide src_fs' (disk w') (src it) (dst it)
    = _decide src_fs' (disk w) (src it) (dst it).
Proof.
  intros Hdst Hrun.
  apply apply_item_spec in Hrun as (_ & _ & _ & _ & Hsame & _); [| done].
  split; [done | by apply decide_ext].
Qed.

Section no_temp.
Context (pm : bool) (src_fs : fs).

Local Abbreviation temp_of it := (with_suffix_added (dst it) ".part").

(** A path that holds nothing and is the destination of no item still
    holds nothing after one item was copied. *)
Lemma apply_item_keeps_absent ob it w w' p :
  dst it ≠ [] →
  SyncApplier.apply_item pm src_fs ob it w = (inr (), w') →
  p ≠ dst it →
  disk w !! p = None ∨ p = temp_of it →
  disk w' !! p = None.
Proof.
  intros Hdst Hrun Hp Habsent.
  apply apply_item_spec in Hrun as (_ & _ & _ & _ & d & _ & _ & _ & Hdisk); [| done].
  rewrite Hdisk, lookup_insert_ne by done.
  destruct Habsent as [Hnone | ->]; [| apply lookup_delete_eq].
  destruct (decide (p = temp_of it)) as [-> | Hne]; [apply lookup_delete_eq |].
  by rewrite lookup_delete_ne.
Qed.

Lemma apply_keeps_absent items obs w w' p :
  Forall (λ it, act it = ADD ∨ act it = UPDATE → dst it ≠ [] ∧ p ≠ dst it) items →
  SyncApplier.apply pm src_fs items obs w = (inr (), w') →
  disk w !! p = None →
  disk w' !! p = None.
Proof.
  revert obs w. induction items as [|it rest IH]; intros obs w Hall Hrun Hnone.
  - simpl in Hrun. by injection Hrun as <-.
  - apply Forall_cons in Hall as [Hit Hall].
    destruct (decide (act it = ADD ∨ act it = UPDATE)) as [Ha | Ha].
    + rewrite apply_cons in Hrun by done. destruct (Hit Ha) as [Hd Hp].
      destruct (SyncApplier.apply_item pm src_fs _ it w) as [[e | []] w1] eqn:Hitem;
        [done |].
      eapply IH; [done | done |]. eapply apply_item_keeps_absent; eauto.
    + rewrite apply_skip in Hrun by (destruct (act it); tauto). by eapply IH.
Qed.

(** X24. A run that completes leaves no temporary file: after it, the
    [.part] path of every item that was copied holds nothing, provided no
    such path is the destination of an item. *)
Theorem completed_apply_leaves_no_temp items obs w w' :
  Forall (λ it, act it = ADD ∨ act it = UPDATE → dst it ≠ []) items →
  (∀ it it', it ∈ items → it' ∈ items →
             act it = ADD ∨ act it = UPDATE → act it' = ADD ∨ act it' = UPDATE →
             temp_of it ≠ dst it') →
  SyncApplier.apply pm src_fs items obs w = (inr (), w') →
  ∀ it, it ∈ items → act it = ADD ∨ act it = UPDATE →
        disk w' !! temp_of it = None.
Proof.
  revert obs w. induction items as [|x rest IH]; intros obs w Hdst Htemp Hrun it Hin Ha;
    [by apply elem_of_nil in Hin |].
  apply Forall_cons in Hdst as [Hx Hdst].
  assert (Hrest : ∀ a b, a ∈ rest → b ∈ rest →
            act a = ADD ∨ act a = UPDATE → act b = ADD ∨ act b = UPDATE →
            temp_of a ≠ dst b).
  { intros a b Ha' Hb'. apply Htemp; by apply list_elem_of_further. }
  destruct (decide (act x = ADD ∨ act x = UPDATE)) as [Hax | Hax].
  - rewrite apply_cons in Hrun by done.
    destruct (SyncApplier.apply_item pm src_fs _ x w) as [[e | []] w1] eqn:Hitem;
      [done |].
    apply elem_of_cons in Hin as [-> | Hin]; [| by eapply IH].
    eapply apply_keeps_absent; [| exact Hrun |].
    + apply Forall_forall. intros b Hb Hab. rewrite Forall_forall in Hdst.
      split; [by apply Hdst |].
      apply Htemp; [apply list_elem_of_here | by apply list_elem_of_further | done | done].
    + eapply apply_item_keeps_absent; [by apply Hx | exact Hitem | | by right].
      apply Htemp; [apply list_elem_of_here | apply list_elem_of_here | done | done].
  - rewrite apply_skip in Hrun by (destruct (act x); tauto).
    apply elem_of_cons in Hin as [-> | Hin]; [done | by eapply IH].
Qed.
End no_temp.

(** ** The printed plan *)

Local Ltac in_lines H :=
  repeat (apply elem_of_cons in H as [-> | H]); try (by apply elem_of_nil in H).

Section report_facts.
Context (IS_WINDOWS : bool) (str_path : path → string).

Local Abbreviation is_row := (λ s : string, startswith s "  - " = true).
Local Abbreviation lines_of := (format_plan_lines IS_WINDOWS str_path).

(** The four groups hold every item once. *)
Lemma group_partition (items : list PlanItem) :
  items ≡ₚ group ADD items ++ group UPDATE items
           ++ group SKIP items ++ group EXCLUDE items.
Proof.
  unfold group. induction items as [|it items IH]; [done |].
  destruct (act it) eqn:Ha;
    repeat first [rewrite (filter_cons_True _ it) by done
                 | rewrite (filter_cons_False _ it) by (rewrite Ha; done)].
  all: rewrite <- ?app_comm_cons.
  - by constructor.
  - rewrite <- Permutation_middle. by constructor.
  - rewrite (assoc_L (++) (filter _ items)), <- Permutation_middle,
      <- (assoc_L (++) (filter _ items)).
    by constructor.
  - rewrite !(assoc_L (++)), <- Permutation_middle, <- !(assoc_L (++)).
    by constructor.
Qed.

Lemma total_length (items : list PlanItem) : total items = length items.
Proof.
  unfold total. pose proof (Permutation_length (group_partition items)) as H.
  rewrite !length_app in H. lia.
Qed.

Lemma group_act key items it : it ∈ group key items → act it = key.
Proof. by intros [? _]%list_elem_of_filter. Qed.

Lemma filter_rows {A} (f : A → string) (title : string) (l : list A) :
  startswith title "  - " = false →
  (∀ x, ∃ r, f x = "  - " +:+ r) →
  filter is_row ([title] ++ (f <$> l) ++ [""]) = f <$> l.
Proof.
  intros Htitle Hf. rewrite !filter_app.
  rewrite (filter_cons_False _ title) by (by rewrite Htitle).
  rewrite (filter_cons_False _ "") by done.
  rewrite !filter_nil, app_nil_r. simpl. apply filter_all.
  intros s (x & -> & _)%list_elem_of_fmap. apply startswith_spec.
  destruct (Hf x) as [r ->]. by exists r.
Qed.

Lemma rows_of_block items src_root title key :
  (∀ x, startswith (title +:+ x) "  - " = false) →
  filter is_row (block IS_WINDOWS str_path items src_root title key)
  = row IS_WINDOWS str_path src_root <$> group key items
  ∧ length (block IS_WINDOWS str_path items src_root title key)
    = length (group key items) + 2.
Proof.
  intros Htitle. unfold block. cbv zeta. split.
  - apply filter_rows; [apply Htitle |]. intros it. by eexists.
  - rewrite !length_app, length_fmap. simpl. lia.
Qed.

Lemma rows_of_block_verbose items title key :
  (∀ x, startswith (title +:+ x) "  - " = false) →
  filter is_row (block_verbose str_path items title key)
  = (λ it, row_verbose str_path (act it) it) <$> group key items
  ∧ length (block_verbose str_path items title key)
    = length (group key items) + 2.
Proof.
  intros Htitle. unfold block_verbose. cbv zeta. split.
  - rewrite filter_rows; [| apply Htitle | intros it; by eexists].
    apply list_eq_Forall2.
    apply Forall2_fmap, Forall_Forall2_diag, Forall_forall.
    intros it Hit. by rewrite (group_act _ _ _ Hit).
  - rewrite !length_app, length_fmap. simpl. lia.
Qed.

(** X17. The summary line gives the number of items of the plan, and the four
    counts it shows add up to it: every item is counted once. *)
Theorem format_plan_summary items src_root dst_root compact :
  last (lines_of items src_root dst_root compact)
  = Some ("Summary: total " +:+ pretty (length items) +:+ " | " +:+ counts items)
  ∧ length (group ADD items) + length (group UPDATE items)
    + length (group SKIP items) + length (group EXCLUDE items) = length items.
Proof.
  split; [| apply total_length].
  rewrite <- total_length. unfold format_plan_lines.
  destruct compact; rewrite !(assoc_L (++)); apply last_snoc.
Qed.

(** X18. Every item of the plan is listed exactly once: the rows of the
    listing are the rows of the items, up to the order of the four
    blocks, and the listing has nine more lines than the plan has items
    (eleven and one per root shown, when compact). *)
Theorem format_plan_lists_each_item_once items src_root dst_root compact :
  filter (λ s, startswith s "  - " = true) (lines_of items src_root dst_root compact)
  ≡ₚ (λ it, if compact then row IS_WINDOWS str_path src_root it
            else row_verbose str_path (act it) it) <$> items
  ∧ length (lines_of items src_root dst_root compact)
    = length items + 9
      + (if compact
         then 2 + (match src_root with Some _ => 1 | None => 0 end)
                + (match dst_root with Some _ => 1 | None => 0 end)
         else 0).
Proof.
  pose proof (total_length items) as Htotal. unfold total in Htotal.
  unfold format_plan_lines. destruct compact.
  - destruct (rows_of_block items src_root "ADDED" ADD) as [Ra La]; [done |].
    destruct (rows_of_block items src_root "UPDATED" UPDATE) as [Ru Lu]; [done |].
    destruct (rows_of_block items src_root "SKIPPED (already up-to-date)" SKIP)
      as [Rs Ls]; [done |].
    destruct (rows_of_block items src_root "EXCLUDED (by pattern or pruned dir)"
                EXCLUDE) as [Re Le]; [done |].
    split.
    + rewrite !filter_app, Ra, Ru, Rs, Re.
      rewrite (filter_none _ (match src_root with Some _ => _ | None => _ end))
        by (destruct src_root; intros s Hs; in_lines Hs; done).
      rewrite (filter_none _ (match dst_root with Some _ => _ | None => _ end))
        by (destruct dst_root; intros s Hs; in_lines Hs; done).
      rewrite (filter_none _ [_; ""]) by (intros s Hs; in_lines Hs; done).
      rewrite (filter_none _ [summary_line _]) by (intros s Hs; in_lines Hs; done).
      rewrite app_nil_r. cbn [app]. rewrite <- !fmap_app.
      by rewrite <- group_partition.
    + rewrite !length_app, La, Lu, Ls, Le.
      destruct src_root, dst_root; simpl; lia.
  - destruct (rows_of_block_verbose items "ADDED" ADD) as [Ra La]; [done |].
    destruct (rows_of_block_verbose items "UPDATED" UPDATE) as [Ru Lu]; [done |].
    destruct (rows_of_block_verbose items "SKIPPED (already up-to-date)" SKIP)
      as [Rs Ls]; [done |].
    destruct (rows_of_block_verbose items "EXCLUDED (by pattern or pruned dir)"
                EXCLUDE) as [Re Le]; [done |].
    split.
    + rewrite !filter_app, Ra, Ru, Rs, Re.
      rewrite (filter_none _ [summary_line _]) by (intros s Hs; in_lines Hs; done).
      rewrite app_nil_r, <- !fmap_app.
      by rewrite <- group_partition.
    + rewrite !length_app, La, Lu, Ls, Le. simpl. lia.
Qed.
End report_facts.

(** ** [main] *)

Section main_facts.
Context (fnmatch : string → string → bool) (IS_WINDOWS : bool).
Context (str_path : path → string).

Local Abbreviation main' := (main fnmatch IS_WINDOWS str_path).
Local Abbreviation copies := (λ it : PlanItem, act it = ADD ∨ act it = UPDATE).

Lemma main_apply_status src_fs items obs w :
  match main_apply src_fs items obs w with
  | (Exit code _, _) =>
      code = 1 ∧ ∃ e w', SyncApplier.apply true src_fs (filter copies items) obs w
                         = (inl e, w')
  | (Return msg, w') =>
      msg = "Apply complete."
      ∧ SyncApplier.apply true src_fs (filter copies items) obs w = (inr (), w')
  end.
Proof.
  unfold main_apply.
  destruct (SyncApplier.apply true src_fs _ obs w) as [[e | []] w1]; [| done].
  destruct (exn_kind e); eauto.
Qed.

(** X19. In compact mode every row of a plan shows the source path relative to
    the source root: for the items [plan] returns, [rel] never falls back
    to the full path. *)
Theorem compact_rows_relative self root src_fs dst_fs items :
  plan fnmatch IS_WINDOWS self (inr root) src_fs dst_fs = inr items →
  Forall (λ it, ∃ r, src it = src_root self ++ r
                     ∧ row IS_WINDOWS str_path (Some (src_root self)) it
                       = "  - " +:+ path_str IS_WINDOWS r
                         +:+ " [" +:+ reason it +:+ "]") items.
Proof.
  intros (? & [= <-] & _ & ->)%plan_inr.
  apply Forall_forall. intros it (r & Hrel & Hsrc & _)%walk_item_rel.
  exists r. split; [done |]. unfold row, rel. by rewrite Hrel.
Qed.

(** X22. When [main] is run with [--apply] and returns normally, every file
    the plan marks ADD or UPDATE is at its destination with the bytes and
    the times of its source, provided names are unique in every source
    directory and no temporary path is the destination of an applied
    item. *)
Theorem main_apply_complete args c root src_fs obs w items :
  arg_apply args = true →
  wf_tree root →
  plan fnmatch IS_WINDOWS (SyncPlanner_init c) (inr root) src_fs (disk w) = inr items →
  (∀ it it', it ∈ filter copies items → it' ∈ filter copies items →
             with_suffix_added (dst it') ".part" ≠ dst it) →
  status (main' args (inr c) (inr root) src_fs obs w) = None →
  ∀ it, it ∈ items → act it = ADD ∨ act it = UPDATE →
    ∃ d, src_fs !! src it = Some (File d)
         ∧ disk (final (main' args (inr c) (inr root) src_fs obs w)) !! dst it
           = Some (File (copied true calm d)).
Proof.
  intros Ha Hwf Hplan Htemp Hstatus it Hit Hact.
  revert Hstatus. unfold main. rewrite Hplan, Ha. cbv zeta. cbn [negb].
  pose proof (main_apply_status src_fs items obs w) as Hm.
  destruct (main_apply src_fs items obs w) as [[code msg | msg] w1].
  { by destruct Hm as [-> _]. }
  destruct Hm as [_ Hrun]. intros _. cbn [final].
  apply plan_inr in Hplan as (? & [= <-] & _ & Hitems).
  eapply (apply_installs src_fs (filter copies items)); [| | | exact Htemp | exact Hrun |].
  - apply Forall_forall. by intros x [? _]%list_elem_of_filter.
  - apply Forall_forall. intros x [Hx Hin]%list_elem_of_filter.
    pose proof (walk_item_dst fnmatch IS_WINDOWS (SyncPlanner_init c) src_fs (disk w) root)
      as Hd.
    rewrite Forall_forall in Hd. apply Hd; [by rewrite <- Hitems | done].
  - apply NoDup_fmap_filter. rewrite Hitems.
    apply (NoDup_fmap_transfer src); [| by apply walk_NoDup_src].
    intros x y Hx Hy Hxy.
    apply walk_item_rel in Hx as (rx & _ & -> & Hdx & _).
    apply walk_item_rel in Hy as (ry & _ & -> & Hdy & _).
    rewrite Hdx, Hdy in Hxy. by apply app_inv_head in Hxy as ->.
  - by apply list_elem_of_filter.
Qed.
End main_facts.

(** ** The further properties at the worked example *)

Local Ltac pick_elem :=
  vm_compute; repeat first [apply list_elem_of_here | apply list_elem_of_further].

Lemma specific_trailing_separator_witness :
  _is_under_specific false
    (SyncPlanner_init (from_yaml ["srv"; "app"] ["mirror"] Report.trailing_yaml))
    ["scripts"; "output"] = false.
Proof.
  apply (specific_trailing_separator false ["srv"; "app"] ["mirror"]
           Report.trailing_yaml ["scripts"; "output"]).
  - apply List.Forall_cons; [| apply List.Forall_nil].
    exists "scripts/output". left. reflexivity.
  - repeat apply List.Forall_cons; try apply List.Forall_nil;
      (split; [split; reflexivity | discriminate]).
Defined.

Lemma specific_dot_excludes_all_witness :
  plan glob_fnmatch false
    (SyncPlanner_init (from_yaml ["srv"; "app"] ["mirror"] Report.dot_yaml))
    (inr Example.source) Example.src_fs Example.dst_fs
  = inr [mkItem EXCLUDE ["srv"; "app"] ["mirror"] "specific_path"].
Proof.
  assert (Hdot : "." ∈ _specific_excl
            (SyncPlanner_init (from_yaml ["srv"; "app"] ["mirror"] Report.dot_yaml)))
    by apply list_elem_of_here.
  exact (specific_dot_excludes_all glob_fnmatch false _ Example.top_dirs
           Example.top_files Example.src_fs Example.dst_fs Hdot).
Defined.

Lemma specific_path_as_written_witness :
  _is_under_specific true
    (SyncPlanner_init (from_yaml ["srv"; "app"] ["mirror"] Report.capitals_yaml))
    ["scripts"; "OUTPUT"; "logs"] = true.
Proof.
  apply (specific_path_as_written true ["srv"; "app"] ["mirror"] Report.capitals_yaml
           "/" ["Scripts"; "Output"] ["scripts"; "OUTPUT"; "logs"]).
  - left. reflexivity.
  - reflexivity.
  - discriminate.
  - repeat apply List.Forall_cons; try apply List.Forall_nil; split; reflexivity.
  - discriminate.
  - repeat apply List.Forall_cons; try apply List.Forall_nil; split; reflexivity.
  - exists ["logs"]. reflexivity.
Defined.

Lemma from_yaml_names_as_sets_witness :
  from_yaml ["srv"; "app"] ["mirror"] Report.names_yaml
  = from_yaml ["srv"; "app"] ["mirror"] Report.names_yaml'.
Proof.
  apply from_yaml_names_as_sets; try reflexivity.
  intros n. unfold matches_ci. split; intros (c & Hc & Hn).
  - repeat (apply elem_of_cons in Hc as [-> | Hc]); [| | | by apply elem_of_nil in Hc].
    + exists "BUILD". split; [pick_elem | exact Hn].
    + exists "BUILD". split; [pick_elem | exact Hn].
    + exists "dist". split; [pick_elem | exact Hn].
  - repeat (apply elem_of_cons in Hc as [-> | Hc]); [| | by apply elem_of_nil in Hc].
    + exists "Dist". split; [pick_elem | exact Hn].
    + exists "Build". split; [pick_elem | exact Hn].
Defined.

Lemma plan_paths_distinct_witness :
  NoDup (src <$> Example.items) ∧ NoDup (dst <$> Example.items).
Proof.
  exact (plan_paths_distinct glob_fnmatch false Example.self Example.source
           Example.src_fs Example.dst_fs Example.items example_wf example_plan).
Defined.

Lemma more_excludes_fewer_copies_witness :
  filter (λ it, act it = ADD ∨ act it = UPDATE) Example.items
  `sublist_of`
  filter (λ it, act it = ADD ∨ act it = UPDATE)
    (Example.planned
       (walk glob_fnmatch false Report.bare_self Example.src_fs Example.dst_fs []
             Example.source)).
Proof.
  apply (more_excludes_fewer_copies glob_fnmatch false Report.bare_self Example.self
           Example.source Example.src_fs Example.dst_fs).
  - reflexivity.
  - reflexivity.
  - intros x Hx. apply (elem_of_list_to_set (C:=gset string) x []) in Hx.
    by apply elem_of_nil in Hx.
  - intros x Hx. apply (elem_of_list_to_set (C:=gset string) x []) in Hx.
    by apply elem_of_nil in Hx.
  - intros x Hx. by apply elem_of_nil in Hx.
  - intros x Hx. by apply elem_of_nil in Hx.
  - vm_compute. reflexivity.
  - exact example_plan.
Defined.

Lemma apply_stays_under_dest_witness :
  ∃ new,
    trace (SyncApplier.apply true Example.src_fs Example.items [Example.stuck]
             Example.start).2
    = trace Example.start ++ new
    ∧ Forall (λ ev, Forall (λ p, ["mirror"] `prefix_of` p
                                 ∨ ((∃ q, ev_call ev = Mkdir q)
                                    ∧ p ≠ [] ∧ p `prefix_of` ["mirror"]))
                           (written (ev_call ev))) new.
Proof.
  assert (Hsub : Example.items ⊆ Example.items) by (by intros x Hx).
  exact (apply_stays_under_dest glob_fnmatch false true Example.self Example.source
           Example.src_fs Example.dst_fs Example.items Example.src_fs Example.items
           [Example.stuck] Example.start _ _ example_plan Hsub (surjective_pairing _)).
Defined.

Lemma applied_item_decision_witness :
  ∃ w',
    SyncApplier.apply_item false Example.src_fs calm Example.a_item Example.start
    = (inr (), w')
    ∧ _decide Example.src_fs (disk w') (src Example.a_item) (dst Example.a_item)
      = inr (UPDATE, "size =, mtime ≠").
Proof.
  destruct (SyncApplier.apply_item false Example.src_fs calm Example.a_item
              Example.start) as [r w'] eqn:Hrun.
  assert (Hr : r = inr ()).
  { pose proof (f_equal fst Hrun) as Hfst. cbn [fst] in Hfst.
    rewrite <- Hfst. by vm_compute. }
  subst r. exists w'. split; [reflexivity |].
  assert (Hdst : dst Example.a_item ≠ []) by discriminate.
  destruct (applied_item_decision false Example.src_fs calm Example.a_item
              Example.start w' Hdst Hrun) as (d & Hsrc & Hdecide).
  rewrite Hdecide. vm_compute in Hsrc. injection Hsrc as <-. reflexivity.
Defined.

Lemma failed_apply_keeps_earlier_copies_witness :
  ∃ e w' d,
    SyncApplier.apply true Example.src_fs [Example.a_item; Report.k_item]
      [calm; Example.stuck] Example.start = (inl e, w')
    ∧ Example.src_fs !! src Example.a_item = Some (File d)
    ∧ disk w' !! dst Example.a_item = Some (File (copied true calm d)).
Proof.
  destruct (SyncApplier.apply true Example.src_fs [Example.a_item]
              [calm; Example.stuck] Example.start) as [r1 w1] eqn:Hdone.
  assert (Hr1 : r1 = inr ()).
  { pose proof (f_equal fst Hdone) as Hfst. cbn [fst] in Hfst.
    rewrite <- Hfst. by vm_compute. }
  subst r1.
  destruct (SyncApplier.apply true Example.src_fs ([Example.a_item] ++ [Report.k_item])
              [calm; Example.stuck] Example.start) as [r w'] eqn:Hfail.
  assert (Hr : r = inl Example.denied).
  { pose proof (f_equal fst Hfail) as Hfst. cbn [fst] in Hfst.
    rewrite <- Hfst. by vm_compute. }
  subst r.
  assert (Hall : Forall (λ x, (act x = ADD ∨ act x = UPDATE) ∧ dst x ≠ [])
                   ([Example.a_item] ++ [Report.k_item])).
  { repeat apply List.Forall_cons; try apply List.Forall_nil.
    - split; [by left | discriminate].
    - split; [by right | discriminate]. }
  assert (Hnd : NoDup (dst <$> [Example.a_item] ++ [Report.k_item])) by compute_done.
  assert (Htemp : ∀ x y, x ∈ [Example.a_item] ++ [Report.k_item] →
                         y ∈ [Example.a_item] ++ [Report.k_item] →
                         with_suffix_added (dst y) ".part" ≠ dst x).
  { assert (Hpairs :
      Forall (λ x, Forall (λ y, with_suffix_added (dst y) ".part" ≠ dst x)
                ([Example.a_item] ++ [Report.k_item]))
             ([Example.a_item] ++ [Report.k_item])) by compute_done.
    intros x y Hx Hy. rewrite Forall_forall in Hpairs.
    specialize (Hpairs x Hx). rewrite Forall_forall in Hpairs. exact (Hpairs y Hy). }
  destruct (failed_apply_keeps_earlier_copies Example.src_fs [Example.a_item]
              Report.k_item [] [calm; Example.stuck] Example.start w1 Example.denied w'
              Hall Hnd Htemp Hdone Hfail) as [Hwhole Hkept].
  destruct (Hkept Example.a_item (list_elem_of_here _ _)) as (d & Hsrc & Hdisk).
  exists Example.denied, w', d. split; [exact Hwhole |]. split; [exact Hsrc | exact Hdisk].
Defined.

Lemma compact_rows_relative_witness :
  Forall (λ it, ∃ r, src it = ["srv"; "app"] ++ r
                     ∧ row false Report.posix_str (Some ["srv"; "app"]) it
                       = "  - " +:+ path_str false r +:+ " [" +:+ reason it +:+ "]")
         Example.items.
Proof.
  exact (compact_rows_relative glob_fnmatch false Report.posix_str Example.self
           Example.source Example.src_fs Example.dst_fs Example.items example_plan).
Defined.

Lemma main_apply_complete_witness :
  ∃ d,
    Example.src_fs !! src Example.a_item = Some (File d)
    ∧ disk (final (main glob_fnmatch false Report.posix_str
                     Report.wet_run (inr Example.config) (inr Example.source)
                     Example.src_fs [] Example.start)) !! dst Example.a_item
      = Some (File (copied true calm d)).
Proof.
  assert (Htemp : ∀ it it',
            it ∈ filter (λ it, act it = ADD ∨ act it = UPDATE) Example.items →
            it' ∈ filter (λ it, act it = ADD ∨ act it = UPDATE) Example.items →
            with_suffix_added (dst it') ".part" ≠ dst it).
  { assert (Hpairs :
      Forall (λ it, Forall (λ it', with_suffix_added (dst it') ".part" ≠ dst it)
                (filter (λ it, act it = ADD ∨ act it = UPDATE) Example.items))
             (filter (λ it, act it = ADD ∨ act it = UPDATE) Example.items))
      by compute_done.
    intros it it' Hit Hit'. rewrite Forall_forall in Hpairs.
    specialize (Hpairs it Hit). rewrite Forall_forall in Hpairs. exact (Hpairs it' Hit'). }
  assert (Hstatus : status (main glob_fnmatch false Report.posix_str
                              Report.wet_run (inr Example.config) (inr Example.source)
                              Example.src_fs [] Example.start) = None)
    by (by vm_compute).
  assert (Hin : Example.a_item ∈ Example.items) by pick_elem.
  exact (main_apply_complete glob_fnmatch false Report.posix_str
           Report.wet_run Example.config Example.source Example.src_fs []
           Example.start Example.items eq_refl example_wf example_plan Htemp Hstatus
           Example.a_item Hin (or_introl eq_refl)).
Defined.

Lemma unlisted_directory_dropped_witness :
  act (mkItem EXCLUDE ["srv"; "app"; "node_modules"] ["mirror"; "node_modules"]
              "root_dir") = EXCLUDE
  ∧ pruned Example.self [] "node_modules".
Proof.
  assert (Hwf : wf_tree Report.linked_source).
  { apply wf_Node; [compute_done |].
    repeat apply List.Forall_cons; try apply List.Forall_nil; apply wf_DirLink. }
  assert (Hd : ("node_modules", DirLink) ∈ [("node_modules", DirLink); ("docs", DirLink)])
    by apply list_elem_of_here.
  assert (Hwalk : walk glob_fnmatch false Example.self Example.src_fs Example.dst_fs []
                        Report.linked_source
                   = inr [mkItem EXCLUDE ["srv"; "app"; "node_modules"]
                                 ["mirror"; "node_modules"] "root_dir";
                          mkItem ADD ["srv"; "app"; "a.txt"] ["mirror"; "a.txt"]
                                 "missing"])
    by (vm_compute; reflexivity).
  assert (Hit : mkItem EXCLUDE ["srv"; "app"; "node_modules"] ["mirror"; "node_modules"]
                       "root_dir"
                ∈ [mkItem EXCLUDE ["srv"; "app"; "node_modules"]
                          ["mirror"; "node_modules"] "root_dir";
                   mkItem ADD ["srv"; "app"; "a.txt"] ["mirror"; "a.txt"] "missing"])
    by apply list_elem_of_here.
  assert (Hpre : src_root Example.self ++ [] ++ ["node_modules"]
                 `prefix_of` ["srv"; "app"; "node_modules"]) by (by exists []).
  exact (proj2 (unlisted_directory_dropped glob_fnmatch false Example.self
                  Example.src_fs Example.dst_fs [] _ ["a.txt"] "node_modules" DirLink _ _
                  Hwf Hd (or_introl eq_refl) Hwalk Hit Hpre)).
Defined.


Lemma failed_item_decision_unchanged_witness :
  ∃ e w',
    SyncApplier.apply_item true Example.src_fs Example.stuck Example.a_item Example.start
    = (inl e, w')
    ∧ _decide Example.src_fs (disk w') (src Example.a_item) (dst Example.a_item)
      = inr (ADD, "missing").
Proof.
  destruct (SyncApplier.apply_item true Example.src_fs Example.stuck Example.a_item
              Example.start) as [r w'] eqn:Hrun.
  assert (Hr : r = inl Example.denied).
  { pose proof (f_equal fst Hrun) as Hfst. cbn [fst] in Hfst.
    rewrite <- Hfst. by vm_compute. }
  subst r. exists Example.denied, w'. split; [reflexivity |].
  assert (Hdst : dst Example.a_item ≠ []) by discriminate.
  destruct (failed_item_decision_unchanged true Example.src_fs Example.stuck
              Example.a_item Example.start Example.denied w' Example.src_fs Hdst Hrun)
    as [_ Hsame].
  rewrite Hsame. reflexivity.
Defined.

Lemma completed_apply_leaves_no_temp_witness :
  ∃ w',
    SyncApplier.apply true Example.src_fs [Example.a_item; Report.k_item] []
      Example.start = (inr (), w')
    ∧ disk w' !! ["mirror"; "scripts"; "output2"; "k.txt.part"] = None.
Proof.
  destruct (SyncApplier.apply true Example.src_fs [Example.a_item; Report.k_item] []
              Example.start) as [r w'] eqn:Hrun.
  assert (Hr : r = inr ()).
  { pose proof (f_equal fst Hrun) as Hfst. cbn [fst] in Hfst.
    rewrite <- Hfst. by vm_compute. }
  subst r. exists w'. split; [reflexivity |].
  assert (Hdst : Forall (λ it, act it = ADD ∨ act it = UPDATE → dst it ≠ [])
                   [Example.a_item; Report.k_item]).
  { repeat apply List.Forall_cons; try apply List.Forall_nil; intros _; discriminate. }
  assert (Htemp : ∀ it it', it ∈ [Example.a_item; Report.k_item] →
                    it' ∈ [Example.a_item; Report.k_item] →
                    act it = ADD ∨ act it = UPDATE → act it' = ADD ∨ act it' = UPDATE →
                    with_suffix_added (dst it) ".part" ≠ dst it').
  { assert (Hpairs :
      Forall (λ it, Forall (λ it', with_suffix_added (dst it) ".part" ≠ dst it')
                [Example.a_item; Report.k_item])
             [Example.a_item; Report.k_item]) by compute_done.
    intros it it' Hit Hit' _ _. rewrite Forall_forall in Hpairs.
    specialize (Hpairs it Hit). rewrite Forall_forall in Hpairs. exact (Hpairs it' Hit'). }
  assert (Hin : Report.k_item ∈ [Example.a_item; Report.k_item])
    by (apply list_elem_of_further, list_elem_of_here).
  exact (completed_apply_leaves_no_temp true Example.src_fs
           [Example.a_item; Report.k_item] [] Example.start w' Hdst Htemp Hrun
           Report.k_item Hin (or_intror eq_refl)).
Defined.
